(** * Multi-armed bandits: simulators, epsilon-greedy and Thompson sampling

    A shallow embedding of the code cells of
    [02_Multi-Armed_Bandits/02_Multi_Armed_Bandits.ipynb].

    Modelling conventions.
    - numpy [float64] values ([Q], [N], [alpha], [beta], probabilities,
      uniform draws) are the rationals they hold, [Qc], and comparisons of
      them are exact.  The simulators and [eg_update], [ts_update] with the
      loops built on them compute exactly; the statements made of them are
      about counts, which are integers that binary64 adds without error,
      about bounds that rounding respects, and about the order of events.
      Where a statement is about the value of an estimate, the update and
      the loop are [eg_update64] and [eg_round64], in which every arithmetic
      result is rounded to binary64.
    - Python integers (actions, counters, horizons) are [Z].
    - A one-dimensional numpy array is a [list]; indexing follows Python:
      an index in [[-n, -1]] wraps around, anything else outside [[0, n)]
      raises [IndexError].
    - The process-wide random source [np.random] is an explicit state [G]
      threaded through every call; the numpy routines the notebook calls are
      the operations of the class [Numpy], with the ranges and shapes numpy
      documents for them.
    - An exception does not roll mutations back: a computation over a mutable
      store [S] (the random source, or an environment object together with
      the random source) is a function [S -> result A * S]. *)

From Stdlib Require Import ZArith QArith Qcanon Qround Qpower Lia Lqa.
From Stdlib Require Floats.
From stdpp Require Import base numbers list.

Local Open Scope Qc_scope.

(** ** Python values, exceptions and the computation monad *)

Inductive exn : Type := IndexError | ValueError | AttributeError.

Inductive result (A : Type) : Type :=
| Ok (a : A)
| Raise (e : exn).
Arguments Ok {A} a.
Arguments Raise {A} e.

(** The numpy routines used by the notebook.  [np_random_randint k] is only
    called with [0 < k] (numpy raises [ValueError] otherwise, see [randint]). *)
Class Numpy (G : Type) : Type := {
  np_random_rand : G -> Qc * G;
  np_random_randint : Z -> G -> Z * G;
  np_random_beta : list Qc -> list Qc -> G -> list Qc * G;
  np_random_randn : nat -> G -> list Qc * G;
  np_exp : Qc -> Qc;
  np_random_rand_range : forall g, 0 ≤ (np_random_rand g).1 < 1;
  np_random_randint_range : forall k g,
    (0 < k)%Z -> (0 <= (np_random_randint k g).1 < k)%Z;
  np_random_beta_shape : forall a b g,
    length a = length b -> length (np_random_beta a b g).1 = length a;
  np_random_randn_shape : forall d g, length (np_random_randn d g).1 = d
}.

Definition M (S A : Type) : Type := S -> result A * S.

Definition ret {S A} (a : A) : M S A := fun s => (Ok a, s).

Definition raise {S A} (e : exn) : M S A := fun s => (Raise e, s).

Definition bind {S A B} (m : M S A) (f : A -> M S B) : M S B :=
  fun s => match m s with
           | (Ok a, s') => f a s'
           | (Raise e, s') => (Raise e, s')
           end.

Definition lift {S A} (r : result A) : M S A := fun s => (r, s).

(** A computation on the random source alone, run next to an object [E]. *)
Definition on_rng {E G A} (m : M G A) : M (E * G) A :=
  fun '(e, g) => let '(r, g') := m g in (r, (e, g')).

(** Reading and assigning attributes of the object ([self.x], [self.x = v]). *)
Definition get_self {E G} : M (E * G) E := fun '(e, g) => (Ok e, (e, g)).

Definition set_self {E G} (f : E -> E) : M (E * G) unit :=
  fun '(e, g) => (Ok tt, (f e, g)).

Notation "'let*' x ':=' m 'in' f" := (bind m (fun x => f))
  (at level 10, x pattern, m at level 100, f at level 200, only parsing).

(** ** numpy arrays *)

(** [a[i]] on an array of length [n]: the position read, or [IndexError]. *)
Definition py_index (n : nat) (i : Z) : result nat :=
  if decide (0 <= i < Z.of_nat n)%Z then Ok (Z.to_nat i)
  else if decide (- Z.of_nat n <= i < 0)%Z then Ok (Z.to_nat (i + Z.of_nat n))
  else Raise IndexError.

Definition getitem {A} (a : list A) (i : Z) : result A :=
  match py_index (length a) i with
  | Ok j => match a !! j with
            | Some x => Ok x
            | None => Raise IndexError
            end
  | Raise e => Raise e
  end.

(** [a[i] = x] *)
Definition setitem {A} (a : list A) (i : Z) (x : A) : result (list A) :=
  match py_index (length a) i with
  | Ok j => Ok (<[j := x]> a)
  | Raise e => Raise e
  end.

(** [np.zeros(k)] and [np.ones(k)] for [k = len(...)], which is never
    negative. *)
Definition np_zeros (k : Z) : list Qc := replicate (Z.to_nat k) 0.
Definition np_ones (k : Z) : list Qc := replicate (Z.to_nat k) 1.

(** [np.argmax]: scan left to right, keep the first position holding the
    largest value seen so far; [ValueError] on an empty array. *)
Fixpoint argmax_from (best_i : nat) (best : Qc) (i : nat) (l : list Qc) : nat :=
  match l with
  | [] => best_i
  | x :: l' =>
      if decide (best < x) then argmax_from i x (S i) l'
      else argmax_from best_i best (S i) l'
  end.

Definition np_argmax (a : list Qc) : result Z :=
  match a with
  | [] => Raise ValueError
  | x :: l => Ok (Z.of_nat (argmax_from 0 x 1 l))
  end.

Definition np_sum (a : list Qc) : Qc := foldr Qcplus 0 a.

(** [w.dot(x)] for one-dimensional [w] and [x]; numpy raises [ValueError]
    when the shapes differ. *)
Fixpoint dot_aligned (w x : list Qc) : Qc :=
  match w, x with
  | a :: w', b :: x' => a * b + dot_aligned w' x'
  | _, _ => 0
  end.

Definition np_dot (w x : list Qc) : result Qc :=
  if decide (length w = length x) then Ok (dot_aligned w x)
  else Raise ValueError.

(** ** The random source *)

Section RandomSource.
Context {G : Type} `{!Numpy G}.

(** [np.random.rand()] *)
Definition rand : M G Qc :=
  fun g => let '(u, g') := np_random_rand g in (Ok u, g').

(** [np.random.randint(k)] *)
Definition randint (k : Z) : M G Z :=
  if decide (0 < k)%Z
  then fun g => let '(a, g') := np_random_randint k g in (Ok a, g')
  else raise ValueError.

(** [np.random.beta(alpha, beta)]; the notebook passes two arrays of the same
    length, any other pair is treated as a shape mismatch. *)
Definition random_beta (alpha beta : list Qc) : M G (list Qc) :=
  if decide (length alpha = length beta)
  then fun g => let '(s, g') := np_random_beta alpha beta g in (Ok s, g')
  else raise ValueError.

(** [np.random.randn(d)] *)
Definition randn (d : Z) : M G (list Qc) :=
  if decide (0 <= d)%Z
  then fun g => let '(s, g') := np_random_randn (Z.to_nat d) g in (Ok s, g')
  else raise ValueError.

(** [1.0 / (1.0 + np.exp(-z))] *)
Definition sigmoid (z : Qc) : Qc := 1 / (1 + np_exp (- z)).

End RandomSource.

(** ** Simulators *)

(** The objects returned to Python callers, for comparing shapes of return
    values across simulators. *)
Definition pydict : Type := list (Z * Z).

Inductive pyatom : Type :=
| PyInt (z : Z)
| PyFloat (q : Qc)
| PyBool (b : bool)
| PyArray (a : list Qc)
| PyDict (d : pydict).

Inductive pyval : Type :=
| PyAtom (a : pyatom)
| PyTuple (vs : list pyatom).

(** [class BernoulliBandit] *)
Module BernoulliBandit.

Record t : Type := { p : list Qc; k : Z }.

(** [__init__(self, p)] *)
Definition init (p0 : list Qc) : t :=
  {| p := p0; k := Z.of_nat (length p0) |}.

(** What [step] returns: the reward alone. *)
Definition to_py (r : Z) : pyval := PyAtom (PyInt r).

Section Step.
Context {G : Type} `{!Numpy G}.

(** [return 1 if np.random.rand() < self.p[action] else 0] *)
Definition step (self : t) (action : Z) : M G Z :=
  let* u := rand in
  let* pa := lift (getitem (p self) action) in
  ret (if decide (u < pa) then 1%Z else 0%Z).

End Step.
End BernoulliBandit.

(** [class BernoulliBanditEnv(gym.Env)].  The two space descriptors set by
    the constructor are constants of [k] and are not stored here. *)
Module BernoulliBanditEnv.

Record t : Type := {
  p : list Qc;
  k : Z;
  num_steps : Z;
  current_step : Z
}.

(** What [step] returns: [obs, float(reward), done, False, info]. *)
Record step_result : Type := {
  obs : list Qc;
  reward : Qc;
  done : bool;
  truncated : bool;
  info : pydict
}.

Definition to_py (r : step_result) : pyval :=
  PyTuple [PyArray (obs r); PyFloat (reward r); PyBool (done r);
           PyBool (truncated r); PyDict (info r)].

(** The attributes that [__init__(self, p, num_steps=1000)] assigns. *)
Definition init (p0 : list Qc) (num_steps0 : Z) : t :=
  {| p := p0; k := Z.of_nat (length p0); num_steps := num_steps0;
     current_step := 0 |}.

(** [BernoulliBanditEnv(p, num_steps)]: among its assignments [__init__]
    builds [spaces.Discrete(self.k)], which raises [ValueError] unless
    [k >= 1]; no object exists then. *)
Definition construct (p0 : list Qc) (num_steps0 : Z) : result t :=
  match p0 with
  | [] => Raise ValueError
  | _ :: _ => Ok (init p0 num_steps0)
  end.

Definition set_current_step (c : Z) (self : t) : t :=
  {| p := p self; k := k self; num_steps := num_steps self;
     current_step := c |}.

Section Methods.
Context {G : Type} `{!Numpy G}.

(** [reset(self, seed=None, options=None)]; [super().reset(seed=None)] leaves
    [np.random] alone. *)
Definition reset : M (t * G) (list Qc * pydict) :=
  let* _ := set_self (set_current_step 0) in
  ret ([0], []).

Definition step (action : Z) : M (t * G) step_result :=
  let* u := on_rng rand in
  let* self := get_self in
  let* pa := lift (getitem (p self) action) in
  let reward := if decide (u < pa) then 1%Z else 0%Z in
  let* _ := set_self (set_current_step (current_step self + 1)) in
  let* self := get_self in
  let done := bool_decide (num_steps self <= current_step self)%Z in
  ret {| obs := [0]; reward := Qc_of_Z reward; done := done;
         truncated := false; info := [] |}.

End Methods.
End BernoulliBanditEnv.

(** [class RecommenderSystemBandit] and [class SearchBandit] have the same
    attributes and methods up to renaming ([item_weights]/[strategy_weights],
    [num_users]/[num_queries]); [weights] and [horizon] stand for both. *)
Module ContextualBandit.

Record t : Type := {
  weights : list (list Qc);
  k : Z;
  context_dim : Z;
  horizon : Z;
  current_step : Z
}.

(** [__init__(self, weights, context_dim=2, horizon=...)];
    [k = weights.shape[0]]. *)
Definition init (w : list (list Qc)) (context_dim0 horizon0 : Z) : t :=
  {| weights := w; k := Z.of_nat (length w); context_dim := context_dim0;
     horizon := horizon0; current_step := 0 |}.

Definition set_current_step (c : Z) (self : t) : t :=
  {| weights := weights self; k := k self; context_dim := context_dim self;
     horizon := horizon self; current_step := c |}.

(** What [step] returns: [reward, done]. *)
Definition to_py (r : Z * bool) : pyval := PyTuple [PyInt r.1; PyBool r.2].

Section Methods.
Context {G : Type} `{!Numpy G}.

(** [get_context(self)] *)
Definition get_context : M (t * G) (list Qc) :=
  let* self := get_self in
  on_rng (randn (context_dim self)).

(** [step(self, action, context)] *)
Definition step (action : Z) (context : list Qc) : M (t * G) (Z * bool) :=
  let* self := get_self in
  let* w := lift (getitem (weights self) action) in
  let* z := lift (np_dot w context) in
  let p := sigmoid z in
  let* u := on_rng rand in
  let reward := if decide (u < p) then 1%Z else 0%Z in
  let* _ := set_self (set_current_step (current_step self + 1)) in
  let* self := get_self in
  let done := bool_decide (horizon self <= current_step self)%Z in
  ret (reward, done).

End Methods.
End ContextualBandit.

Module RecommenderSystemBandit := ContextualBandit.
Module SearchBandit := ContextualBandit.

(** [class RecommenderSystemGymEnv(gym.Env)]: the attribute [context] does
    not exist before the first [reset]. *)
Module RecommenderSystemGymEnv.

Record t : Type := {
  item_weights : list (list Qc);
  k : Z;
  context_dim : Z;
  num_users : Z;
  current_step : Z;
  context : option (list Qc)
}.

(** What [step] returns: [self.context, reward, done, False, info]. *)
Record step_result : Type := {
  obs : list Qc;
  reward : Qc;
  done : bool;
  truncated : bool;
  info : pydict
}.

Definition to_py (r : step_result) : pyval :=
  PyTuple [PyArray (obs r); PyFloat (reward r); PyBool (done r);
           PyBool (truncated r); PyDict (info r)].

(** The attributes that [__init__(self, item_weights, context_dim=2,
    num_users=1000)] assigns. *)
Definition init (w : list (list Qc)) (context_dim0 num_users0 : Z) : t :=
  {| item_weights := w; k := Z.of_nat (length w); context_dim := context_dim0;
     num_users := num_users0; current_step := 0; context := None |}.

(** [RecommenderSystemGymEnv(item_weights, context_dim, num_users)]:
    [spaces.Discrete(self.k)] in [__init__] raises [ValueError] unless
    [k >= 1]. *)
Definition construct (w : list (list Qc)) (context_dim0 num_users0 : Z)
  : result t :=
  match w with
  | [] => Raise ValueError
  | _ :: _ => Ok (init w context_dim0 num_users0)
  end.

Definition set_current_step (c : Z) (self : t) : t :=
  {| item_weights := item_weights self; k := k self;
     context_dim := context_dim self; num_users := num_users self;
     current_step := c; context := context self |}.

Definition set_context (x : list Qc) (self : t) : t :=
  {| item_weights := item_weights self; k := k self;
     context_dim := context_dim self; num_users := num_users self;
     current_step := current_step self; context := Some x |}.

Section Methods.
Context {G : Type} `{!Numpy G}.

Definition reset : M (t * G) (list Qc * pydict) :=
  let* _ := set_self (set_current_step 0) in
  let* self := get_self in
  let* x := on_rng (randn (context_dim self)) in
  let* _ := set_self (set_context x) in
  ret (x, []).

Definition step (action : Z) : M (t * G) step_result :=
  let* self := get_self in
  let* w := lift (getitem (item_weights self) action) in
  let* x := match context self with
            | Some x => ret x
            | None => raise AttributeError
            end in
  let* z := lift (np_dot w x) in
  let p := sigmoid z in
  let* u := on_rng rand in
  let reward := if decide (u < p) then 1 else 0 in
  let* _ := set_self (set_current_step (current_step self + 1)) in
  let* self := get_self in
  let done := bool_decide (num_users self <= current_step self)%Z in
  let* x' := on_rng (randn (context_dim self)) in
  let* _ := set_self (set_context x') in
  ret {| obs := x'; reward := reward; done := done; truncated := false;
         info := [] |}.

End Methods.
End RecommenderSystemGymEnv.

(** ** Epsilon-greedy on a Bernoulli bandit *)

(** The local variables of [epsilon_greedy] that change in its loop.
    [actions_history] is a ghost variable: the values the local [action] took,
    one per round, next to the rewards the code records itself. *)
Record eg_locals : Type := {
  eg_Q : list Qc;
  eg_N : list Qc;
  rewards_history : list Z;
  actions_history : list Z
}.

(** [N[action] += 1; Q[action] += (reward - Q[action]) / N[action]], computed
    exactly; [eg_update64] is the same update with every result rounded.
    The divisor is a count that was just incremented, so the division never
    meets zero on a run. *)
Definition eg_update (Qv Nv : list Qc) (action : Z) (reward : Qc)
  : result (list Qc * list Qc) :=
  match getitem Nv action with
  | Raise e => Raise e
  | Ok n =>
    match setitem Nv action (n + 1) with
    | Raise e => Raise e
    | Ok Nv' =>
      match getitem Qv action, getitem Nv' action with
      | Ok q, Ok n' =>
        match setitem Qv action (q + (reward - q) / n') with
        | Ok Qv' => Ok (Qv', Nv')
        | Raise e => Raise e
        end
      | Raise e, _ => Raise e
      | _, Raise e => Raise e
      end
    end
  end.

(** [Q = np.zeros(k); N = np.zeros(k); rewards_history = []] *)
Definition eg_initial (k : Z) : eg_locals :=
  {| eg_Q := np_zeros k; eg_N := np_zeros k;
     rewards_history := []; actions_history := [] |}.

Section EpsilonGreedy.
Context {G : Type} `{!Numpy G}.

(** The explore-or-exploit statement at the head of the loop body. *)
Definition eg_select_action (k : Z) (epsilon : Qc) (Qv : list Qc) : M G Z :=
  let* u := rand in
  if decide (u < epsilon) then randint k else lift (np_argmax Qv).

(** One pass through the loop body. *)
Definition eg_round (bandit : BernoulliBandit.t) (k : Z) (epsilon : Qc)
  (s : eg_locals) : M G eg_locals :=
  let* action := eg_select_action k epsilon (eg_Q s) in
  let* reward := BernoulliBandit.step bandit action in
  let* (Qv, Nv) := lift (eg_update (eg_Q s) (eg_N s) action (Qc_of_Z reward)) in
  ret {| eg_Q := Qv; eg_N := Nv;
         rewards_history := rewards_history s ++ [reward];
         actions_history := actions_history s ++ [action] |}.

(** [for _ in range(num_steps): ...] *)
Fixpoint eg_loop (bandit : BernoulliBandit.t) (k : Z) (epsilon : Qc)
  (rounds : nat) (s : eg_locals) : M G eg_locals :=
  match rounds with
  | O => ret s
  | S rounds' =>
      let* s' := eg_round bandit k epsilon s in
      eg_loop bandit k epsilon rounds' s'
  end.

(** The locals of [epsilon_greedy] when its loop is left. *)
Definition epsilon_greedy_locals (bandit : BernoulliBandit.t) (num_steps : Z)
  (epsilon : Qc) : M G eg_locals :=
  let k := BernoulliBandit.k bandit in
  eg_loop bandit k epsilon (Z.to_nat num_steps) (eg_initial k).

(** [epsilon_greedy(bandit, num_steps=1000, epsilon=0.1)] *)
Definition epsilon_greedy (bandit : BernoulliBandit.t) (num_steps : Z)
  (epsilon : Qc) : M G (list Z * list Qc) :=
  let* s := epsilon_greedy_locals bandit num_steps epsilon in
  ret (rewards_history s, eg_Q s).

End EpsilonGreedy.

(** ** Thompson sampling on the search bandit *)

Record ts_locals : Type := {
  ts_alpha : list Qc;
  ts_beta : list Qc;
  ts_rewards_history : list Z;
  ts_actions_history : list Z
}.

(** [if reward == 1: alpha[action] += 1 else: beta[action] += 1] *)
Definition ts_update (alpha beta : list Qc) (action reward : Z)
  : result (list Qc * list Qc) :=
  if decide (reward = 1%Z) then
    match getitem alpha action with
    | Ok a =>
      match setitem alpha action (a + 1) with
      | Ok alpha' => Ok (alpha', beta)
      | Raise e => Raise e
      end
    | Raise e => Raise e
    end
  else
    match getitem beta action with
    | Ok b =>
      match setitem beta action (b + 1) with
      | Ok beta' => Ok (alpha, beta')
      | Raise e => Raise e
      end
    | Raise e => Raise e
    end.

(** [alpha = np.ones(k); beta = np.ones(k); rewards_history = []] *)
Definition ts_initial (k : Z) : ts_locals :=
  {| ts_alpha := np_ones k; ts_beta := np_ones k;
     ts_rewards_history := []; ts_actions_history := [] |}.

Section Thompson.
Context {G : Type} `{!Numpy G}.

(** [sampled_q = np.random.beta(alpha, beta); action = np.argmax(sampled_q)] *)
Definition ts_select_action (alpha beta : list Qc) : M G Z :=
  let* sampled_q := random_beta alpha beta in
  lift (np_argmax sampled_q).

(** One pass through the body of [while True], with the value of [done]. *)
Definition ts_round (s : ts_locals) : M (SearchBandit.t * G) (ts_locals * bool) :=
  let* query_context := SearchBandit.get_context in
  let* action := on_rng (ts_select_action (ts_alpha s) (ts_beta s)) in
  let* (reward, done) := SearchBandit.step action query_context in
  let* (alpha, beta) := lift (ts_update (ts_alpha s) (ts_beta s) action reward) in
  ret ({| ts_alpha := alpha; ts_beta := beta;
          ts_rewards_history := ts_rewards_history s ++ [reward];
          ts_actions_history := ts_actions_history s ++ [action] |}, done).

(** [while True: ...; if done: break].  [None] means that [fuel] passes were
    not enough to reach the [break]. *)
Fixpoint ts_loop (fuel : nat) (s : ts_locals)
  : M (SearchBandit.t * G) (option ts_locals) :=
  match fuel with
  | O => ret None
  | S fuel' =>
      let* (s', done) := ts_round s in
      if done then ret (Some s') else ts_loop fuel' s'
  end.

(** [run_thompson_search(env)]; the ghost action history is returned too. *)
Definition run_thompson_search (fuel : nat)
  : M (SearchBandit.t * G) (option ts_locals) :=
  let* env := get_self in
  let k := SearchBandit.k env in
  ts_loop fuel (ts_initial k).

End Thompson.

(** ** Epsilon-greedy in the Gym loop *)

(** The arrays and histories of the Gym-style drivers, whose rewards are
    floats.  [gym_actions_history] is a ghost variable, as above. *)
Record gym_locals : Type := {
  gym_Q : list Qc;
  gym_N : list Qc;
  gym_rewards_history : list Qc;
  gym_actions_history : list Z
}.

(** [Q = np.zeros(k); N = np.zeros(k); rewards_history = []] *)
Definition gym_initial (k : Z) : gym_locals :=
  {| gym_Q := np_zeros k; gym_N := np_zeros k;
     gym_rewards_history := []; gym_actions_history := [] |}.

Section EpsilonGreedyGym.
Context {G : Type} `{!Numpy G}.

(** One pass through the body of [while not done] in [epsilon_greedy_gym],
    up to its last statement; the locals carry [step_count], and the values
    of [done] and [truncated] are returned with them. *)
Definition egg_round (k : Z) (epsilon : Qc) (s : gym_locals * Z)
  : M (BernoulliBanditEnv.t * G) (gym_locals * Z * bool * bool) :=
  let step_count := (s.2 + 1)%Z in
  let* action := on_rng (eg_select_action k epsilon (gym_Q s.1)) in
  let* r := BernoulliBanditEnv.step action in
  let* (Qv, Nv) :=
    lift (eg_update (gym_Q s.1) (gym_N s.1) action
            (BernoulliBanditEnv.reward r)) in
  ret ({| gym_Q := Qv; gym_N := Nv;
          gym_rewards_history :=
            gym_rewards_history s.1 ++ [BernoulliBanditEnv.reward r];
          gym_actions_history := gym_actions_history s.1 ++ [action] |},
       step_count, BernoulliBanditEnv.done r, BernoulliBanditEnv.truncated r).

(** [while not done: ...; if done or truncated: break] *)
Fixpoint egg_loop (fuel : nat) (k : Z) (epsilon : Qc) (done : bool)
  (s : gym_locals * Z) : M (BernoulliBanditEnv.t * G) (option (gym_locals * Z)) :=
  if done then ret (Some s)
  else
    match fuel with
    | O => ret None
    | S fuel' =>
        let* (s', done', truncated) := egg_round k epsilon s in
        if done' || truncated then ret (Some s')
        else egg_loop fuel' k epsilon done' s'
    end.

(** The locals of [epsilon_greedy_gym] when its loop is left;
    [env.action_space.n] is [env.k]. *)
Definition epsilon_greedy_gym_locals (fuel : nat) (epsilon : Qc)
  : M (BernoulliBanditEnv.t * G) (option (gym_locals * Z)) :=
  let* env := get_self in
  let k := BernoulliBanditEnv.k env in
  let* _ := BernoulliBanditEnv.reset in
  egg_loop fuel k epsilon false (gym_initial k, 0%Z).

(** [epsilon_greedy_gym(env, epsilon=0.1)] *)
Definition epsilon_greedy_gym (fuel : nat) (epsilon : Qc)
  : M (BernoulliBanditEnv.t * G) (option (list Qc * list Qc)) :=
  let* o := epsilon_greedy_gym_locals fuel epsilon in
  ret ((fun s : gym_locals * Z => (gym_rewards_history s.1, gym_Q s.1)) <$> o).

End EpsilonGreedyGym.

(** ** Epsilon-greedy on the recommender simulators *)

Section Recommender.
Context {G : Type} `{!Numpy G}.

(** One pass through the body of [while True] in
    [run_epsilon_greedy_recommender], with the value of [done]. *)
Definition rec_round (k : Z) (epsilon : Qc) (s : eg_locals)
  : M (RecommenderSystemBandit.t * G) (eg_locals * bool) :=
  let* context := RecommenderSystemBandit.get_context in
  let* action := on_rng (eg_select_action k epsilon (eg_Q s)) in
  let* (reward, done) := RecommenderSystemBandit.step action context in
  let* (Qv, Nv) :=
    lift (eg_update (eg_Q s) (eg_N s) action (Qc_of_Z reward)) in
  ret ({| eg_Q := Qv; eg_N := Nv;
          rewards_history := rewards_history s ++ [reward];
          actions_history := actions_history s ++ [action] |}, done).

(** [while True: ...; if done: break] *)
Fixpoint rec_loop (fuel : nat) (k : Z) (epsilon : Qc) (s : eg_locals)
  : M (RecommenderSystemBandit.t * G) (option eg_locals) :=
  match fuel with
  | O => ret None
  | S fuel' =>
      let* (s', done) := rec_round k epsilon s in
      if done then ret (Some s') else rec_loop fuel' k epsilon s'
  end.

(** The locals of [run_epsilon_greedy_recommender] when its loop is left. *)
Definition run_epsilon_greedy_recommender_locals (fuel : nat) (epsilon : Qc)
  : M (RecommenderSystemBandit.t * G) (option eg_locals) :=
  let* env := get_self in
  let k := RecommenderSystemBandit.k env in
  rec_loop fuel k epsilon (eg_initial k).

(** [run_epsilon_greedy_recommender(env, epsilon=0.1)] *)
Definition run_epsilon_greedy_recommender (fuel : nat) (epsilon : Qc)
  : M (RecommenderSystemBandit.t * G) (option (list Z * list Qc)) :=
  let* o := run_epsilon_greedy_recommender_locals fuel epsilon in
  ret ((fun s => (rewards_history s, eg_Q s)) <$> o).

(** One pass through the body of [while not done] in
    [run_epsilon_greedy_recommender_gym]; the locals carry [obs]. *)
Definition rgym_round (k : Z) (epsilon : Qc) (s : gym_locals * list Qc)
  : M (RecommenderSystemGymEnv.t * G) (gym_locals * list Qc * bool * bool) :=
  let* action := on_rng (eg_select_action k epsilon (gym_Q s.1)) in
  let* r := RecommenderSystemGymEnv.step action in
  let* (Qv, Nv) :=
    lift (eg_update (gym_Q s.1) (gym_N s.1) action
            (RecommenderSystemGymEnv.reward r)) in
  ret ({| gym_Q := Qv; gym_N := Nv;
          gym_rewards_history :=
            gym_rewards_history s.1 ++ [RecommenderSystemGymEnv.reward r];
          gym_actions_history := gym_actions_history s.1 ++ [action] |},
       RecommenderSystemGymEnv.obs r,
       RecommenderSystemGymEnv.done r, RecommenderSystemGymEnv.truncated r).

(** [while not done: ...; if done or truncated: break] *)
Fixpoint rgym_loop (fuel : nat) (k : Z) (epsilon : Qc) (done : bool)
  (s : gym_locals * list Qc)
  : M (RecommenderSystemGymEnv.t * G) (option (gym_locals * list Qc)) :=
  if done then ret (Some s)
  else
    match fuel with
    | O => ret None
    | S fuel' =>
        let* (s', done', truncated) := rgym_round k epsilon s in
        if done' || truncated then ret (Some s')
        else rgym_loop fuel' k epsilon done' s'
    end.

(** The locals of [run_epsilon_greedy_recommender_gym] when its loop is
    left; [env.action_space.n] is [env.k]. *)
Definition run_epsilon_greedy_recommender_gym_locals (fuel : nat)
  (epsilon : Qc)
  : M (RecommenderSystemGymEnv.t * G) (option (gym_locals * list Qc)) :=
  let* env := get_self in
  let k := RecommenderSystemGymEnv.k env in
  let* (obs, _) := RecommenderSystemGymEnv.reset in
  rgym_loop fuel k epsilon false (gym_initial k, obs).

(** [run_epsilon_greedy_recommender_gym(env, epsilon=0.1)] *)
Definition run_epsilon_greedy_recommender_gym (fuel : nat) (epsilon : Qc)
  : M (RecommenderSystemGymEnv.t * G) (option (list Qc * list Qc)) :=
  let* o := run_epsilon_greedy_recommender_gym_locals fuel epsilon in
  ret ((fun s : gym_locals * list Qc =>
          (gym_rewards_history s.1, gym_Q s.1)) <$> o).

End Recommender.

(** ** Epsilon-greedy in binary64

    The definitions above compute on the rationals that the floats hold,
    which is all that counts, comparisons and bounds depend on.  What an
    estimate is worth after many updates depends on rounding, so the update
    and the loop of [epsilon_greedy] are given once more with every
    arithmetic result rounded as IEEE 754 binary64 does by default: to the
    nearest number with a 53-bit significand and an exponent of at least
    [-1074], ties to the even significand.  A result of magnitude [2^1024] or
    more is an infinity in numpy; such magnitudes do not arise from the
    rewards considered here and [round64] is not meant for them. *)

Definition Qcabs (x : Qc) : Qc := if decide (0 ≤ x) then x else - x.

(** [2^e] for an integer [e] of either sign. *)
Definition pow2 (e : Z) : Qc := Q2Qc (2 ^ e)%Q.

(** [floor (log2 |x|)] for [x <> 0]: the difference of the bit lengths of
    numerator and denominator, or one less. *)
Definition ilog2 (x : Qc) : Z :=
  let k := (Z.log2 (Z.abs (Qnum x)) - Z.log2 (Z.pos (Qden x)))%Z in
  if decide (pow2 k ≤ Qcabs x) then k else (k - 1)%Z.

Definition half : Qc := Q2Qc (1 # 2).

(** The nearest integer, the even one of two that are equally near. *)
Definition round_half_even (y : Qc) : Z :=
  let f := Qfloor y in
  let r := y - Qc_of_Z f in
  if decide (r < half) then f
  else if decide (half < r) then (f + 1)%Z
  else if Z.even f then f else (f + 1)%Z.

(** The exponent of the last place of the binary64 numbers around [x]:
    53 significant bits, never below the subnormal spacing [2^-1074]. *)
Definition ulp_exponent (x : Qc) : Z := Z.max (ilog2 x - 52) (-1074).

Definition round64 (x : Qc) : Qc :=
  if decide (x = 0) then 0
  else Qc_of_Z (round_half_even (x / pow2 (ulp_exponent x)))
       * pow2 (ulp_exponent x).

(** [N[action] += 1; Q[action] += (reward - Q[action]) / N[action]] on
    float64 arrays: four arithmetic operations, each rounded.  As in
    [eg_update] the divisor is a count that was just incremented. *)
Definition eg_update64 (Qv Nv : list Qc) (action : Z) (reward : Qc)
  : result (list Qc * list Qc) :=
  match getitem Nv action with
  | Raise e => Raise e
  | Ok n =>
    match setitem Nv action (round64 (n + 1)) with
    | Raise e => Raise e
    | Ok Nv' =>
      match getitem Qv action, getitem Nv' action with
      | Ok q, Ok n' =>
        match setitem Qv action
                (round64 (q + round64 (round64 (reward - q) / n'))) with
        | Ok Qv' => Ok (Qv', Nv')
        | Raise e => Raise e
        end
      | Raise e, _ => Raise e
      | _, Raise e => Raise e
      end
    end
  end.

(** The same update on the machine's binary64 numbers, Rocq's primitive
    floats, against which [round64] is checked on the inputs of the examples
    below. *)
Module Binary64.
Import PrimFloat FloatOps SpecFloat.

(** The rational a finite float holds. *)
Definition value (x : float) : option Qc :=
  match Prim2SF x with
  | S754_zero _ => Some 0
  | S754_finite sg m e =>
      Some ((if sg then -1 else 1) * Qc_of_Z (Z.pos m) * pow2 e)
  | _ => None
  end.

(** [N[a] += 1; Q[a] += (reward - Q[a]) / N[a]] on one arm. *)
Definition update (qn : float * float) (reward : float) : float * float :=
  let n := (qn.2 + 1)%float in
  ((qn.1 + (reward - qn.1) / n)%float, n).

Definition updates (rewards : list float) : float * float :=
  foldl update (0%float, 0%float) rewards.

(** [round64] of the exact result against the machine's result, for one
    operation on one pair of finite floats. *)
Definition agrees (exact : Qc → Qc → Qc) (op : float → float → float)
  (ab : float * float) : bool :=
  match value ab.1, value ab.2, value (op ab.1 ab.2) with
  | Some x, Some y, Some z => bool_decide (round64 (exact x y) = z)
  | _, _, _ => false
  end.

(** Pairs of floats, subnormal ones and halfway cases among them, on which
    the four operations stay finite. *)
Definition samples : list (float * float) :=
  [
   (0x1.0000000000000p+0, 0x1.8000000000000p+1);
   (0x1.999999999999ap-4, 0x1.999999999999ap-3);
   (0x1.0000000000000p+0, 0x1.0000000000000p-53);
   (0x1.0000000000001p+0, 0x1.0000000000000p-53);
   (0x1.0000000000000p+53, 0x1.0000000000000p+0);
   (0x0.0000000000001p-1022, 0x1.0000000000000p+1);
   (0x0.0000000000003p-1022, 0x1.0000000000000p+1);
   (0x1.0000000000000p-1022, 0x1.0000000000000p+1);
   (0x0.0000000000001p-1022, 0x0.0000000000001p-1022);
   (0x1.5af1d78b58c40p+66, 0x1.8000000000000p+1);
   (-0x1.8201e73ab4876p+26, 0x1.830c7cdcc6929p-10);
   (0x1.7253e18187993p-10, -0x1.e3effcf44dd3fp-1020);
   (-0x1.73f77f6fa5db8p+17, -0x1.03d719f8558a6p-13);
   (-0x1.30b1709208a65p-26, 0x1.76c46c7321cc0p-1021);
   (0x1.84e55320094eap+503, 0x1.a9964012d0ea6p+30);
   (-0x1.ff6666822a6b2p+2, 0x1.4105cb53302fcp-23);
   (0x1.079dd49fe85b0p+32, -0x1.1b98f66809a11p-20);
   (-0x1.0452ef542441dp-1018, -0x1.ed52a35b00a54p-6);
   (0x1.b57a6faf8cda9p-1021, -0x1.32d03a123f501p+495);
   (0x0.0f55202cdf2afp-1022, 0x1.8f2dfae9ca08bp-11);
   (-0x1.dd44f45114889p-33, 0x1.e2868ff769e37p+5);
   (-0x1.dab87feef16e9p-997, 0x1.fd42e0ac793f5p-21);
   (-0x1.c5cef027385c9p-1006, 0x1.12ca362dc08d6p-1004);
   (0x1.3e361a2f7647ap-1020, 0x1.740579f452c07p+14);
   (0x1.93171d5157e9dp+28, 0x1.27756a0931ed4p-10);
   (0x1.3096cb9b338ebp-2, -0x1.afdd83253b562p+37);
   (0x1.64409b45f51c3p-975, 0x1.7db2298b20411p+505);
   (0x1.3a782205bc308p-25, -0x1.365fd47bc7548p-24);
   (0x1.44e9e11b41900p-31, 0x1.2d1ef0beddb07p+478);
   (0x1.21af2f91acb8dp+495, 0x1.fb0197349dbc4p+505)
  ]%float.

Definition samples_agree : bool :=
  forallb (agrees Qcplus add) samples && forallb (agrees Qcminus sub) samples
  && forallb (agrees Qcmult mul) samples && forallb (agrees Qcdiv div) samples.

Definition after_1_0_0 : float := (updates [1; 0; 0]%float).1.
Definition after_0_0_0_0_1_0_0 : float :=
  (updates [0; 0; 0; 0; 1; 0; 0]%float).1.
Definition after_1e20_1_3 : float := (updates [1e20; 1; 3]%float).1.

End Binary64.

Section EpsilonGreedy64.
Context {G : Type} `{!Numpy G}.




End EpsilonGreedy64.

(** ** Vocabulary of the statements *)

(** Position [m] holds a largest value of [a], and every earlier position
    holds a strictly smaller one. *)
Definition first_max (a : list Qc) (m : nat) : Prop :=
  ∃ v, a !! m = Some v ∧
       (∀ j w, a !! j = Some w → w ≤ v) ∧
       (∀ j w, a !! j = Some w → (j < m)%nat → w < v).

(** A sequence of updates [(arm, reward)] applied to fresh estimates. *)
Definition eg_updates (k : Z) (us : list (Z * Qc)) : result (list Qc * list Qc) :=
  foldl (fun acc u =>
           match acc with
           | Ok (Qv, Nv) => eg_update Qv Nv u.1 u.2
           | Raise e => Raise e
           end)
        (Ok (np_zeros k, np_zeros k)) us.

(** The rewards that the updates [us] delivered to position [a] of an array
    of length [k], oldest first. *)
Definition rewards_received (k a : nat) (us : list (Z * Qc)) : list Qc :=
  omap (fun u => match py_index k u.1 with
                 | Ok j => if decide (j = a) then Some u.2 else None
                 | Raise _ => None
                 end) us.

(** A natural number as the float that holds it. *)
Definition count (n : nat) : Qc := Qc_of_Z (Z.of_nat n).


(** After the updates [us], for every position: the count is the number of
    rewards received, and the estimate times the count is their sum. *)
Definition averages (k : nat) (us : list (Z * Qc)) (Qv Nv : list Qc) : Prop :=
  length Qv = k ∧ length Nv = k ∧
  ∀ a, (a < k)%nat →
    ∃ q, Qv !! a = Some q ∧
         Nv !! a = Some (count (length (rewards_received k a us))) ∧
         q * count (length (rewards_received k a us))
         = np_sum (rewards_received k a us).

(** A Bernoulli reward. *)
Definition binary (r : Z) : Prop := r = 0%Z ∨ r = 1%Z.

(** The updates a run has made, from its two histories. *)
Definition eg_trace (s : eg_locals) : list (Z * Qc) :=
  zip (actions_history s) (Qc_of_Z <$> rewards_history s).

(** What holds of the locals between rounds. *)
Record eg_consistent (k : nat) (s : eg_locals) : Prop := {
  eg_len_Q : length (eg_Q s) = k;
  eg_len_N : length (eg_N s) = k;
  eg_len_hist : length (actions_history s) = length (rewards_history s);
  eg_actions_range :
    Forall (fun a => (0 <= a < Z.of_nat k)%Z) (actions_history s);
  eg_rewards_binary : Forall binary (rewards_history s)
}.

(** The arrays are what replaying the recorded updates on fresh arrays
    gives. *)
Definition eg_replays (k : Z) (s : eg_locals) : Prop :=
  eg_updates k (eg_trace s) = Ok (eg_Q s, eg_N s).

(** The attributes are as [__init__] leaves them for a weight matrix with at
    least one row and [context_dim] columns. *)
Record env_ready (env : SearchBandit.t) : Prop := {
  ready_k : SearchBandit.k env = Z.of_nat (length (SearchBandit.weights env));
  ready_rows : SearchBandit.weights env ≠ [];
  ready_dim : (0 <= SearchBandit.context_dim env)%Z;
  ready_shape :
    Forall (fun row => length row = Z.to_nat (SearchBandit.context_dim env))
           (SearchBandit.weights env)
}.

(** Passes through the loop of [run_thompson_search] until [done]. *)
Definition remaining (env : SearchBandit.t) : nat :=
  Z.to_nat (Z.max 1 (SearchBandit.horizon env - SearchBandit.current_step env)).

(** How often arm [i] occurs in a history of actions. *)
Definition times_selected (i : nat) (actions : list Z) : nat :=
  length (filter (fun a => a = Z.of_nat i) actions).

(** What holds of the locals of [run_thompson_search] between rounds. *)
Record ts_consistent (k : nat) (s : ts_locals) : Prop := {
  ts_len_alpha : length (ts_alpha s) = k;
  ts_len_beta : length (ts_beta s) = k;
  ts_len_hist : length (ts_actions_history s) = length (ts_rewards_history s);
  ts_actions_range :
    Forall (fun a => (0 <= a < Z.of_nat k)%Z) (ts_actions_history s);
  ts_rewards_binary : Forall binary (ts_rewards_history s);
  ts_pseudo_counts : ∀ i, (i < k)%nat →
    ∃ a b, ts_alpha s !! i = Some a ∧ ts_beta s !! i = Some b ∧
           a + b = 2 + count (times_selected i (ts_actions_history s));
  ts_total :
    np_sum (ts_alpha s) + np_sum (ts_beta s)
    = 2 * count k + count (length (ts_actions_history s))
}.

(** Every estimate lies in [[0, 1]], every count is non-negative, and an
    arm whose count is zero still has its initial estimate 0. *)
Definition unit_estimates (Qv Nv : list Qc) : Prop :=
  ∀ i q n, Qv !! i = Some q → Nv !! i = Some n →
           0 ≤ q ≤ 1 ∧ 0 ≤ n ∧ (n = 0 → q = 0).

(** Call [stp] once per input, in order, and collect what it returns. *)
Fixpoint call_each {S X R : Type} (stp : X → M S R) (xs : list X)
  : M S (list R) :=
  match xs with
  | [] => ret []
  | x :: xs' =>
      let* r := stp x in
      let* rs := call_each stp xs' in
      ret (r :: rs)
  end.

(** On any sequence of calls that raise nothing: the counter advances by one
    per call, the horizon stays, and the [n]-th call reports [done] exactly
    when the counter, after that call, has reached the horizon. *)
Definition counts_to_horizon {S X R : Type} (stp : X → M S R)
  (counter horizon : S → Z) (done_of : R → bool) : Prop :=
  ∀ xs st rs st',
    call_each stp xs st = (Ok rs, st') →
    counter st' = (counter st + Z.of_nat (length xs))%Z ∧
    horizon st' = horizon st ∧
    length rs = length xs ∧
    ∀ i r, rs !! i = Some r →
           done_of r
           = bool_decide (horizon st <= counter st + Z.of_nat i + 1)%Z.

(** Call [stp] once per input, in order, going on after a call that raised
    as a caller that catches the exception does, and collect every outcome. *)
Fixpoint attempt_each {St X R : Type} (stp : X → M St R) (xs : list X)
  (st : St) : list (result R) * St :=
  match xs with
  | [] => ([], st)
  | x :: xs' =>
      let '(r, st1) := stp x st in
      let '(rs, st2) := attempt_each stp xs' st1 in
      (r :: rs, st2)
  end.

(** How many of the calls returned. *)
Fixpoint returned {R : Type} (rs : list (result R)) : nat :=
  match rs with
  | [] => 0
  | Ok _ :: rs' => S (returned rs')
  | Raise _ :: rs' => returned rs'
  end.

(** On any sequence of calls from a state satisfying [Inv], some of which
    may raise: the counter has advanced by the number of calls that
    returned, the horizon stays, [Inv] still holds, and a call that returns
    reports [done] exactly when the counter, which then counts the calls
    that have returned so far, this one included, has reached the horizon. *)
Definition counts_returned_calls {St X R : Type} (stp : X → M St R)
  (counter horizon : St → Z) (done_of : R → bool) (Inv : St → Prop) : Prop :=
  ∀ xs st, Inv st →
    counter (attempt_each stp xs st).2
    = (counter st + Z.of_nat (returned (attempt_each stp xs st).1))%Z ∧
    horizon (attempt_each stp xs st).2 = horizon st ∧
    Inv (attempt_each stp xs st).2 ∧
    length (attempt_each stp xs st).1 = length xs ∧
    ∀ i r, (attempt_each stp xs st).1 !! i = Some (Ok r) →
           done_of r
           = bool_decide
               (horizon st
                <= counter st
                   + Z.of_nat (returned (take (S i) (attempt_each stp xs st).1)))%Z.

(** An object of [RecommenderSystemGymEnv] holds a context only if
    [context_dim] is one that [np.random.randn] accepts: [reset] and [step]
    store what [randn(context_dim)] returned. *)
Definition gym_context_drawn (env : RecommenderSystemGymEnv.t) : Prop :=
  (0 <= RecommenderSystemGymEnv.context_dim env)%Z ∨
  RecommenderSystemGymEnv.context env = None.

(** Passes through a loop that stops when [done] is reported, for an
    object with a step counter and a horizon: until the counter has reached
    the horizon, and one at least. *)
Definition passes {E : Type} (counter horizon : E → Z) (env : E) : nat :=
  Z.to_nat (Z.max 1 (horizon env - counter env)).

(** How many rounds chose arm [i] and were rewarded ([wins]), or chose it
    and were not ([losses]). *)
Definition wins (i : nat) (actions rewards : list Z) : nat :=
  length (filter (fun ar : Z * Z => ar.1 = Z.of_nat i ∧ ar.2 = 1%Z)
                 (zip actions rewards)).

Definition losses (i : nat) (actions rewards : list Z) : nat :=
  length (filter (fun ar : Z * Z => ar.1 = Z.of_nat i ∧ ar.2 ≠ 1%Z)
                 (zip actions rewards)).

(** The total reward of a run. *)
Definition total_reward (rewards : list Z) : Z := foldr Z.add 0%Z rewards.

(** A float reward of a Bernoulli simulator. *)
Definition unit_reward (r : Qc) : Prop := r = 0 ∨ r = 1.

(** The locals of the plain loop, read as locals of a Gym-style loop. *)
Definition to_gym (s : eg_locals) : gym_locals :=
  {| gym_Q := eg_Q s; gym_N := eg_N s;
     gym_rewards_history := Qc_of_Z <$> rewards_history s;
     gym_actions_history := actions_history s |}.

(** The books of an epsilon-greedy driver between rounds: arrays [Qv], [Nv]
    for [k] arms next to the actions taken and the rewards seen so far. *)
Record ledger (k : nat) (Qv Nv : list Qc) (actions : list Z)
  (rewards : list Qc) : Prop := {
  ledger_len : length actions = length rewards;
  ledger_range : Forall (fun a => (0 <= a < Z.of_nat k)%Z) actions;
  ledger_rewards : Forall unit_reward rewards;
  ledger_replay : eg_updates (Z.of_nat k) (zip actions rewards) = Ok (Qv, Nv);
  ledger_unit : unit_estimates Qv Nv
}.

(** What the books say when a driver returns: the counts add up to the
    number of rounds, and for every arm the count is the number of rounds
    that chose it and the estimate lies in [[0, 1]] and is still 0 if the
    arm was never chosen.  Nothing here depends on how the divisions are
    rounded. *)
Definition sound_counts (k : nat) (Qv Nv : list Qc) (actions : list Z)
  (rewards : list Qc) : Prop :=
  length actions = length rewards ∧
  length Qv = k ∧ length Nv = k ∧
  np_sum Nv = count (length rewards) ∧
  ∀ i, (i < k)%nat →
    ∃ q, Qv !! i = Some q ∧
         Nv !! i = Some (count (times_selected i actions)) ∧
         0 ≤ q ≤ 1 ∧
         (Z.of_nat i ∉ actions → q = 0).

(** The books kept in the locals of the plain loops. *)
Definition eg_ledger (k : nat) (s : eg_locals) : Prop :=
  ledger k (eg_Q s) (eg_N s) (actions_history s)
    (Qc_of_Z <$> rewards_history s).

(** The books kept in the locals of the Gym-style loops. *)
Definition gym_ledger (k : nat) (s : gym_locals) : Prop :=
  ledger k (gym_Q s) (gym_N s) (gym_actions_history s) (gym_rewards_history s).

(** [alpha[i] - 1] is the number of rewarded rounds of arm [i],
    [beta[i] - 1] the number of its other rounds, and the sums of the two
    arrays split the rounds into rewarded ones and others. *)
Record ts_tally (k : nat) (s : ts_locals) : Prop := {
  tally_arms : ∀ i, (i < k)%nat →
    ts_alpha s !! i
    = Some (1 + count (wins i (ts_actions_history s) (ts_rewards_history s))) ∧
    ts_beta s !! i
    = Some (1 + count (losses i (ts_actions_history s) (ts_rewards_history s)));
  tally_alpha :
    np_sum (ts_alpha s) = count k + Qc_of_Z (total_reward (ts_rewards_history s));
  tally_beta :
    np_sum (ts_beta s)
    = count k + count (length (ts_rewards_history s))
      - Qc_of_Z (total_reward (ts_rewards_history s))
}.

(** The attributes of a [RecommenderSystemGymEnv] are as [__init__] leaves
    them for a weight matrix with at least one row and [context_dim]
    columns. *)
Record gym_env_ready (env : RecommenderSystemGymEnv.t) : Prop := {
  gym_ready_k :
    RecommenderSystemGymEnv.k env
    = Z.of_nat (length (RecommenderSystemGymEnv.item_weights env));
  gym_ready_rows : RecommenderSystemGymEnv.item_weights env ≠ [];
  gym_ready_dim : (0 <= RecommenderSystemGymEnv.context_dim env)%Z;
  gym_ready_shape :
    Forall (fun row => length row
                       = Z.to_nat (RecommenderSystemGymEnv.context_dim env))
           (RecommenderSystemGymEnv.item_weights env)
}.

(** The environment [env] is [env0] after a [reset] and some steps: the
    same constants, and a stored context of the right length. *)
Definition gym_env_running (env0 env : RecommenderSystemGymEnv.t) : Prop :=
  RecommenderSystemGymEnv.item_weights env
  = RecommenderSystemGymEnv.item_weights env0 ∧
  RecommenderSystemGymEnv.k env = RecommenderSystemGymEnv.k env0 ∧
  RecommenderSystemGymEnv.context_dim env
  = RecommenderSystemGymEnv.context_dim env0 ∧
  RecommenderSystemGymEnv.num_users env
  = RecommenderSystemGymEnv.num_users env0 ∧
  ∃ x, RecommenderSystemGymEnv.context env = Some x ∧
       length x = Z.to_nat (RecommenderSystemGymEnv.context_dim env0).

(** Only arm 0 has been chosen so far, and the estimates of the others are
    still 0. *)
Definition stuck_on_first_arm (s : eg_locals) : Prop :=
  Forall (fun a => a = 0%Z) (actions_history s) ∧
  ∀ i q, (1 <= i)%nat → eg_Q s !! i = Some q → q = 0.

(** The actions of [n] rounds that all take the random branch, and the
    random source after them: each round draws the coin, then the arm, then
    the reward. *)
Fixpoint explore_trace {G : Type} `{!Numpy G} (k : Z) (n : nat) (g : G)
  : list Z * G :=
  match n with
  | O => ([], g)
  | S n' =>
      let g1 := (np_random_rand g).2 in
      let ag := np_random_randint k g1 in
      let g3 := (np_random_rand ag.2).2 in
      (ag.1 :: (explore_trace k n' g3).1, (explore_trace k n' g3).2)
  end.

(** What the head of a round does with the random source [g] and the
    estimates [Qv] to arrive at [action]: it draws [u]; if [u < epsilon] the
    action is the next [np.random.randint(k)], an index in [[0, k)];
    otherwise it is [np.argmax(Qv)], the first position of the largest
    estimate. *)
Definition eg_selects {G : Type} `{!Numpy G} (k : Z) (epsilon : Qc)
  (Qv : list Qc) (g : G) (action : Z) : Prop :=
  let u := (np_random_rand g).1 in
  let g1 := (np_random_rand g).2 in
  0 ≤ u < 1 ∧
  (u < epsilon →
   action = (np_random_randint k g1).1 ∧ (0 <= action < k)%Z) ∧
  (¬ u < epsilon →
   np_argmax Qv = Ok action ∧ (0 <= action < Z.of_nat (length Qv))%Z ∧
   first_max Qv (Z.to_nat action)).

(** A sequence of updates [(arm, reward)] applied to fresh estimates, in
    binary64. *)
Definition eg_updates64 (k : Z) (us : list (Z * Qc))
  : result (list Qc * list Qc) :=
  foldl (fun acc u =>
           match acc with
           | Ok (Qv, Nv) => eg_update64 Qv Nv u.1 u.2
           | Raise e => Raise e
           end)
        (Ok (np_zeros k, np_zeros k)) us.







(** ** A concrete random source

    A deterministic stand-in for numpy's generator, used to run the model on
    concrete inputs: the state counts the calls made so far, uniform draws
    cycle through 0, 1/4, 1/2, 3/4. *)

Definition quarter (g : nat) : Qc :=
  match g mod 4 with
  | 0 => 0
  | 1 => Q2Qc (1 # 4)
  | 2 => Q2Qc (1 # 2)
  | _ => Q2Qc (3 # 4)
  end.

Definition counter_rand (g : nat) : Qc * nat := (quarter g, S g).

Definition counter_randint (k : Z) (g : nat) : Z * nat :=
  ((Z.of_nat g) mod k, S g)%Z.

Definition counter_beta (a b : list Qc) (g : nat) : list Qc * nat :=
  (imap (fun i _ => quarter (g + i)) a, S g).

Definition counter_randn (d : nat) (g : nat) : list Qc * nat :=
  (replicate d (quarter g - Q2Qc (1 # 4)), S g).

(** Second-order Taylor polynomial, in place of [np.exp]. *)
Definition taylor_exp (z : Qc) : Qc := 1 + z + z * z / 2.

#[export] Instance counter_numpy : Numpy nat.
Proof.
  refine {| np_random_rand := counter_rand;
            np_random_randint := counter_randint;
            np_random_beta := counter_beta;
            np_random_randn := counter_randn;
            np_exp := taylor_exp |}.
  - intros g. change (0 ≤ quarter g < 1). unfold quarter.
    destruct (g mod 4) as [|[|[|?]]]; split; done.
  - intros k g Hk. apply Z.mod_pos_bound. exact Hk.
  - intros a b g _. apply length_imap.
  - intros d g. apply length_replicate.
Defined.

(** The search demo of the notebook, cut to five queries. *)
Definition demo_search_env : SearchBandit.t :=
  SearchBandit.init [[1; 1]; [Q2Qc (-1 # 2); 2]; [2; Q2Qc (-1 # 5)]] 2 5.

(** The recommender demo of the notebook, cut to five users. *)
Definition demo_recommender_env : RecommenderSystemBandit.t :=
  RecommenderSystemBandit.init
    [[Q2Qc (3 # 2); Q2Qc (1 # 2)]; [Q2Qc (-1 # 2); Q2Qc (6 # 5)];
     [Q2Qc (4 # 5); Q2Qc (4 # 5)]] 2 5.

(** The Gym recommender demo of the notebook, cut to four users. *)
Definition demo_recommender_gym_env : RecommenderSystemGymEnv.t :=
  RecommenderSystemGymEnv.init
    [[Q2Qc (3 # 2); Q2Qc (1 # 2)]; [Q2Qc (-1 # 2); Q2Qc (6 # 5)];
     [Q2Qc (4 # 5); Q2Qc (4 # 5)]] 2 4.

(** * Proofs *)

(** ** Indexing *)

Lemma py_index_inrange n i :
  (0 <= i < Z.of_nat n)%Z → py_index n i = Ok (Z.to_nat i).
Proof. intros Hi. unfold py_index. rewrite decide_True; done. Qed.

Lemma py_index_wrap n i :
  (- Z.of_nat n <= i < 0)%Z → py_index n i = Ok (Z.to_nat (i + Z.of_nat n)).
Proof.
  intros Hi. unfold py_index.
  rewrite decide_False by lia. rewrite decide_True; done.
Qed.

Lemma py_index_outside n i :
  (i < - Z.of_nat n ∨ Z.of_nat n <= i)%Z → py_index n i = Raise IndexError.
Proof.
  intros Hi. unfold py_index.
  rewrite decide_False by lia. rewrite decide_False by lia. done.
Qed.

Lemma py_index_Ok n i j :
  py_index n i = Ok j →
  (j < n)%nat ∧
  ((0 <= i < Z.of_nat n)%Z ∧ j = Z.to_nat i ∨
   (- Z.of_nat n <= i < 0)%Z ∧ j = Z.to_nat (i + Z.of_nat n)).
Proof.
  unfold py_index. intros Hj.
  destruct (decide (0 <= i < Z.of_nat n)%Z) as [Hin|Hout].
  - inversion Hj; subst. split; [lia | left; done].
  - destruct (decide (- Z.of_nat n <= i < 0)%Z) as [Hneg|?]; [|done].
    inversion Hj; subst. split; [lia | right; done].
Qed.

Lemma py_index_Raise n i e :
  py_index n i = Raise e →
  e = IndexError ∧ (i < - Z.of_nat n ∨ Z.of_nat n <= i)%Z.
Proof.
  unfold py_index. intros He.
  destruct (decide (0 <= i < Z.of_nat n)%Z); [done|].
  destruct (decide (- Z.of_nat n <= i < 0)%Z); [done|].
  inversion He. split; [done | lia].
Qed.

Lemma getitem_index {A} (a : list A) i j :
  py_index (length a) i = Ok j → ∃ x, a !! j = Some x ∧ getitem a i = Ok x.
Proof.
  intros Hj. destruct (py_index_Ok _ _ _ Hj) as [Hlt _].
  destruct (lookup_lt_is_Some_2 a j Hlt) as [x Hx].
  exists x. split; [done|]. unfold getitem. rewrite Hj, Hx. done.
Qed.

Lemma getitem_Ok {A} (a : list A) i x :
  getitem a i = Ok x → ∃ j, py_index (length a) i = Ok j ∧ a !! j = Some x.
Proof.
  unfold getitem. destruct (py_index (length a) i) as [j|e] eqn:Hj; [|done].
  destruct (a !! j) as [y|] eqn:Hy; [|done].
  intros [= ->]. eauto.
Qed.

Lemma getitem_Raise {A} (a : list A) i e :
  getitem a i = Raise e →
  e = IndexError ∧ (i < - Z.of_nat (length a) ∨ Z.of_nat (length a) <= i)%Z.
Proof.
  unfold getitem. destruct (py_index (length a) i) as [j|e'] eqn:Hj.
  - destruct (getitem_index a i j Hj) as (x & Hx & _). rewrite Hx. done.
  - intros [= ->]. eapply py_index_Raise. exact Hj.
Qed.

Lemma getitem_outside {A} (a : list A) i :
  (i < - Z.of_nat (length a) ∨ Z.of_nat (length a) <= i)%Z →
  getitem a i = Raise IndexError.
Proof. intros Hi. unfold getitem. rewrite py_index_outside; done. Qed.

(** ** The Bernoulli simulators, call by call *)

Section BernoulliStep.
Context {G : Type} `{!Numpy G}.

Lemma bandit_step_unfold (self : BernoulliBandit.t) (action : Z) (g : G) :
  BernoulliBandit.step self action g =
  match getitem (BernoulliBandit.p self) action with
  | Ok pa => (Ok (if decide ((np_random_rand g).1 < pa) then 1%Z else 0%Z),
              (np_random_rand g).2)
  | Raise e => (Raise e, (np_random_rand g).2)
  end.
Proof.
  unfold BernoulliBandit.step, bind, rand, lift, ret.
  destruct (np_random_rand g) as [u g1]; simpl.
  destruct (getitem (BernoulliBandit.p self) action); reflexivity.
Qed.

Lemma env_step_unfold (env : BernoulliBanditEnv.t) (action : Z) (g : G) :
  BernoulliBanditEnv.step action (env, g) =
  match getitem (BernoulliBanditEnv.p env) action with
  | Ok pa =>
      (Ok {| BernoulliBanditEnv.obs := [0];
             BernoulliBanditEnv.reward :=
               Qc_of_Z (if decide ((np_random_rand g).1 < pa) then 1 else 0);
             BernoulliBanditEnv.done :=
               bool_decide (BernoulliBanditEnv.num_steps env
                            <= BernoulliBanditEnv.current_step env + 1)%Z;
             BernoulliBanditEnv.truncated := false;
             BernoulliBanditEnv.info := [] |},
       (BernoulliBanditEnv.set_current_step
          (BernoulliBanditEnv.current_step env + 1) env,
        (np_random_rand g).2))
  | Raise e => (Raise e, (env, (np_random_rand g).2))
  end.
Proof.
  unfold BernoulliBanditEnv.step, bind, on_rng, rand, get_self, set_self,
    lift, ret.
  destruct (np_random_rand g) as [u g1]; simpl.
  destruct (getitem (BernoulliBanditEnv.p env) action); reflexivity.
Qed.

Lemma bernoulli_reward_binary (u pa : Qc) :
  let r := if decide (u < pa) then 1%Z else 0%Z in r = 0%Z ∨ r = 1%Z.
Proof. simpl. destruct (decide (u < pa)); auto. Qed.

End BernoulliStep.

Lemma unit_reward_binary (r : Z) : binary r → unit_reward (Qc_of_Z r).
Proof.
  intros [->| ->]; [left; apply Z2Qc_inj_0 | right; apply Z2Qc_inj_1].
Qed.

(** C6.  One call of [step], on [BernoulliBandit] and on
    [BernoulliBanditEnv]: the random source is left in the state that one
    call of [np.random.rand()] produces, whether or not the index is
    accepted; the value [u] drawn lies in [[0, 1)]; when [p[action]] exists
    the reward is 1 if [u < p[action]] and 0 otherwise; a returned reward is
    0 or 1. *)
Theorem step_draws_once {G : Type} `{!Numpy G}
  (self : BernoulliBandit.t) (env : BernoulliBanditEnv.t) (action : Z) (g : G) :
  let u := (np_random_rand g).1 in
  let g1 := (np_random_rand g).2 in
  0 ≤ u < 1 ∧
  (BernoulliBandit.step self action g).2 = g1 ∧
  (∀ pa, getitem (BernoulliBandit.p self) action = Ok pa →
     (BernoulliBandit.step self action g).1
     = Ok (if decide (u < pa) then 1%Z else 0%Z)) ∧
  (∀ r, (BernoulliBandit.step self action g).1 = Ok r → r = 0%Z ∨ r = 1%Z) ∧
  (BernoulliBanditEnv.step action (env, g)).2.2 = g1 ∧
  (∀ pa, getitem (BernoulliBanditEnv.p env) action = Ok pa →
     ∃ r, (BernoulliBanditEnv.step action (env, g)).1 = Ok r ∧
          BernoulliBanditEnv.reward r
          = Qc_of_Z (if decide (u < pa) then 1 else 0)) ∧
  (∀ r, (BernoulliBanditEnv.step action (env, g)).1 = Ok r →
     BernoulliBanditEnv.reward r = 0 ∨ BernoulliBanditEnv.reward r = 1).
Proof.
  intros u g1. subst u g1.
  rewrite bandit_step_unfold, env_step_unfold.
  split; [apply np_random_rand_range|].
  split; [destruct (getitem _ action); reflexivity|].
  split; [intros pa ->; reflexivity|].
  split.
  { destruct (getitem (BernoulliBandit.p self) action) as [pa|e]; simpl;
      [|discriminate].
    intros r [= <-]. apply bernoulli_reward_binary. }
  split; [destruct (getitem _ action); reflexivity|].
  split.
  { intros pa ->. eexists; split; reflexivity. }
  destruct (getitem (BernoulliBanditEnv.p env) action) as [pa|e]; simpl;
    [|discriminate].
  intros r [= <-]; simpl.
  destruct (decide ((np_random_rand g).1 < pa));
    [right; apply Z2Qc_inj_1 | left; apply Z2Qc_inj_0].
Qed.

(** C9.  With [k = len(p)] and [-k <= action <= -1], [BernoulliBandit.step]
    raises nothing: it returns 1 if the draw is below [p[k + action]] and 0
    otherwise, and leaves the random source one draw further. *)
Theorem step_negative_index_wraps {G : Type} `{!Numpy G}
  (p0 : list Qc) (action : Z) (g : G) :
  (- Z.of_nat (length p0) <= action <= -1)%Z →
  ∃ pa, p0 !! Z.to_nat (Z.of_nat (length p0) + action) = Some pa ∧
        BernoulliBandit.step (BernoulliBandit.init p0) action g
        = (Ok (if decide ((np_random_rand g).1 < pa) then 1%Z else 0%Z),
           (np_random_rand g).2) ∧
        ((if decide ((np_random_rand g).1 < pa) then 1%Z else 0%Z) = 0%Z ∨
         (if decide ((np_random_rand g).1 < pa) then 1%Z else 0%Z) = 1%Z).
Proof.
  intros Hrange.
  assert (Hidx : py_index (length p0) action
                 = Ok (Z.to_nat (action + Z.of_nat (length p0))))
    by (apply py_index_wrap; lia).
  destruct (getitem_index p0 action _ Hidx) as (pa & Hpa & Hget).
  exists pa. rewrite Z.add_comm. split; [exact Hpa|].
  rewrite bandit_step_unfold. simpl. rewrite Hget.
  split; [reflexivity | apply bernoulli_reward_binary].
Qed.

Lemma step_negative_index_wraps_witness :
  ∃ pa, [Q2Qc (1 # 10); Q2Qc (3 # 10); Q2Qc (4 # 5)]
          !! Z.to_nat (3 + (-1)) = Some pa ∧
        BernoulliBandit.step
          (BernoulliBandit.init [Q2Qc (1 # 10); Q2Qc (3 # 10); Q2Qc (4 # 5)])
          (-1) 0%nat
        = (Ok (if decide ((np_random_rand 0%nat).1 < pa) then 1%Z else 0%Z),
           (np_random_rand 0%nat).2) ∧
        ((if decide ((np_random_rand 0%nat).1 < pa) then 1%Z else 0%Z) = 0%Z ∨
         (if decide ((np_random_rand 0%nat).1 < pa) then 1%Z else 0%Z) = 1%Z).
Proof.
  apply (step_negative_index_wraps
           [Q2Qc (1 # 10); Q2Qc (3 # 10); Q2Qc (4 # 5)] (-1) 0%nat).
  simpl. lia.
Defined.

(** C3, as stated, fails at [p = [0.1, 0.3, 0.8]], [action = -1]: the index
    is outside [[0, 3)], yet [step] returns a reward. *)
Lemma step_out_of_range_accepted :
  ¬ (0 <= -1 < 3)%Z ∧
  (BernoulliBandit.step
     (BernoulliBandit.init [Q2Qc (1 # 10); Q2Qc (3 # 10); Q2Qc (4 # 5)])
     (-1) 0%nat).1 = Ok 1%Z ∧
  ∃ r, (BernoulliBanditEnv.step (-1)
          (BernoulliBanditEnv.init
             [Q2Qc (1 # 10); Q2Qc (3 # 10); Q2Qc (4 # 5)] 1000, 0%nat)).1
       = Ok r.
Proof.
  split; [lia|]. split; [vm_compute; reflexivity|].
  rewrite env_step_unfold. eexists. vm_compute. reflexivity.
Qed.

(** C3, amended.  For every [k = len(p) >= 1], on [BernoulliBandit] and on a
    [BernoulliBanditEnv] built from [p]: [step] raises exactly when
    [action < -k] or [action >= k], and what it raises is [IndexError]; in
    particular [action = k] raises.  An index in [[-k, -1]] is not rejected:
    both simulators draw the reward against [p[k + action]]. *)
Theorem step_index_error {G : Type} `{!Numpy G}
  (p0 : list Qc) (num_steps : Z) (action : Z) (g : G) :
  p0 ≠ [] →
  let k := Z.of_nat (length p0) in
  let bandit := BernoulliBandit.init p0 in
  let u := (np_random_rand g).1 in
  ∃ env,
    BernoulliBanditEnv.construct p0 num_steps = Ok env ∧
    ((∃ e, (BernoulliBandit.step bandit action g).1 = Raise e)
     ↔ (action < - k ∨ k <= action)%Z) ∧
    (∀ e, (BernoulliBandit.step bandit action g).1 = Raise e
          → e = IndexError) ∧
    ((∃ e, (BernoulliBanditEnv.step action (env, g)).1 = Raise e)
     ↔ (action < - k ∨ k <= action)%Z) ∧
    (∀ e, (BernoulliBanditEnv.step action (env, g)).1 = Raise e
          → e = IndexError) ∧
    (BernoulliBandit.step bandit k g).1 = Raise IndexError ∧
    (BernoulliBanditEnv.step k (env, g)).1 = Raise IndexError ∧
    ((- k <= action <= -1)%Z →
     ∃ pa, p0 !! Z.to_nat (k + action) = Some pa ∧
           (BernoulliBandit.step bandit action g).1
           = Ok (if decide (u < pa) then 1%Z else 0%Z) ∧
           ∃ r, (BernoulliBanditEnv.step action (env, g)).1 = Ok r ∧
                BernoulliBanditEnv.reward r
                = Qc_of_Z (if decide (u < pa) then 1 else 0)).
Proof.
  intros Hne k bandit u. subst bandit u.
  exists (BernoulliBanditEnv.init p0 num_steps).
  split; [destruct p0; [done | reflexivity]|].
  rewrite !bandit_step_unfold, !env_step_unfold. simpl.
  assert (Hk : getitem p0 k = Raise IndexError)
    by (apply getitem_outside; lia).
  rewrite Hk. simpl.
  destruct (getitem p0 action) as [pa|e0] eqn:Hget; simpl.
  - pose proof Hget as Hget'.
    apply getitem_Ok in Hget as (j & Hj & Hpa).
    pose proof Hj as Hj'. apply py_index_Ok in Hj as [_ Hj].
    split; [split; [intros [e He]; done | intros; lia]|].
    split; [done|].
    split; [split; [intros [e He]; done | intros; lia]|].
    split; [done|]. split; [done|]. split; [done|].
    intros Hneg. rewrite py_index_wrap in Hj' by lia. injection Hj' as <-.
    exists pa. rewrite Z.add_comm in Hpa. split; [exact Hpa|].
    split; [reflexivity|]. eexists. split; reflexivity.
  - apply getitem_Raise in Hget as [-> Hout].
    split; [split; [intros _; exact Hout | intros _; eauto]|].
    split; [congruence|].
    split; [split; [intros _; exact Hout | intros _; eauto]|].
    split; [congruence|]. split; [done|]. split; [done|].
    intros Hneg. lia.
Qed.

Lemma step_index_error_witness :
  ∃ env,
    BernoulliBanditEnv.construct
      [Q2Qc (1 # 10); Q2Qc (3 # 10); Q2Qc (4 # 5)] 1000 = Ok env ∧
    (BernoulliBandit.step
       (BernoulliBandit.init [Q2Qc (1 # 10); Q2Qc (3 # 10); Q2Qc (4 # 5)])
       3 0%nat).1 = Raise IndexError ∧
    (BernoulliBanditEnv.step 3 (env, 0%nat)).1 = Raise IndexError.
Proof.
  destruct (step_index_error
              [Q2Qc (1 # 10); Q2Qc (3 # 10); Q2Qc (4 # 5)] 1000 (-1) 0%nat
              ltac:(discriminate))
    as (env & Hc & _ & _ & _ & _ & Hb & He & _).
  exists env. split; [exact Hc|]. split; [exact Hb | exact He].
Defined.

(** Without arms there is no [BernoulliBanditEnv] to step. *)
Lemma env_needs_an_arm (num_steps : Z) :
  BernoulliBanditEnv.construct [] num_steps = Raise ValueError.
Proof. reflexivity. Qed.

(** ** [np.argmax] returns the first maximum *)

Lemma argmax_from_first_max (l pre : list Qc) (best_i : nat) (best : Qc) :
  first_max pre best_i → pre !! best_i = Some best →
  first_max (pre ++ l) (argmax_from best_i best (length pre) l).
Proof.
  revert pre best_i best.
  induction l as [|x l IH]; intros pre best_i best Hfm Hbest; simpl.
  - rewrite app_nil_r. exact Hfm.
  - destruct Hfm as (v & Hv & Hmax & Hfirst).
    assert (v = best) as -> by congruence.
    assert (Hlen : length (pre ++ [x]) = S (length pre))
      by (rewrite length_app; simpl; lia).
    rewrite (cons_middle x pre l), app_assoc.
    destruct (decide (best < x)) as [Hlt|Hge]; rewrite <- Hlen.
    + apply (IH (pre ++ [x]) (length pre) x).
      * exists x. split; [apply list_lookup_middle; reflexivity|].
        split.
        -- intros j w Hj. apply lookup_app_Some in Hj as [Hj|[_ Hj]].
           ++ apply Qclt_le_weak. eapply Qcle_lt_trans; [eapply Hmax|]; eauto.
           ++ apply list_lookup_singleton_Some in Hj as [_ ->].
              apply Qcle_refl.
        -- intros j w Hj Hjlt. rewrite lookup_app_l in Hj by lia.
           eapply Qcle_lt_trans; [eapply Hmax|]; eauto.
      * apply list_lookup_middle; reflexivity.
    + apply (IH (pre ++ [x]) best_i best).
      * exists best. split; [apply lookup_app_l_Some; exact Hbest|].
        split.
        -- intros j w Hj. apply lookup_app_Some in Hj as [Hj|[_ Hj]].
           ++ eapply Hmax; eauto.
           ++ apply list_lookup_singleton_Some in Hj as [_ ->].
              apply Qcnot_lt_le. exact Hge.
        -- intros j w Hj Hjlt.
           assert (best_i < length pre)%nat by (eapply lookup_lt_Some; eauto).
           rewrite lookup_app_l in Hj by lia. eapply Hfirst; eauto.
      * apply lookup_app_l_Some; exact Hbest.
Qed.

Lemma np_argmax_first_max (a : list Qc) (m : Z) :
  np_argmax a = Ok m →
  (0 <= m < Z.of_nat (length a))%Z ∧ first_max a (Z.to_nat m).
Proof.
  destruct a as [|x l]; simpl; [done|].
  intros [= <-]. rewrite Nat2Z.id.
  pose proof (argmax_from_first_max l [x] 0 x) as Hfm. simpl in Hfm.
  assert (Hfm' : first_max (x :: l) (argmax_from 0 x 1 l)).
  { apply Hfm; [|reflexivity].
    exists x. split; [reflexivity|]. split.
    - intros [|j] w Hj; simpl in Hj; [|done].
      injection Hj as ->. apply Qcle_refl.
    - intros j w _ Hj. lia. }
  split; [|exact Hfm'].
  destruct Hfm' as (v & Hv & _). apply lookup_lt_Some in Hv. simpl in Hv. lia.
Qed.

Lemma np_argmax_nonempty (a : list Qc) :
  a ≠ [] → ∃ m, np_argmax a = Ok m.
Proof. destruct a; [done|]. intros _. simpl. eauto. Qed.

Lemma np_argmax_singleton (a : list Qc) :
  length a = 1%nat → np_argmax a = Ok 0%Z.
Proof. destruct a as [|x [|??]]; simpl; try done. Qed.

(** ** Epsilon-greedy selection *)

Section Selection.
Context {G : Type} `{!Numpy G}.

Lemma eg_select_action_unfold (k : Z) (epsilon : Qc) (Qv : list Qc) (g : G) :
  eg_select_action k epsilon Qv g =
  if decide ((np_random_rand g).1 < epsilon)
  then randint k (np_random_rand g).2
  else (np_argmax Qv, (np_random_rand g).2).
Proof.
  unfold eg_select_action, bind, rand, lift.
  destruct (np_random_rand g) as [u g1]; simpl.
  destruct (decide (u < epsilon)); reflexivity.
Qed.

Lemma randint_range (k : Z) (g : G) :
  (0 < k)%Z →
  ∃ a, randint k g = (Ok a, (np_random_randint k g).2) ∧ (0 <= a < k)%Z.
Proof.
  intros Hk. unfold randint. rewrite decide_True by done.
  pose proof (np_random_randint_range k g Hk) as Hr.
  destruct (np_random_randint k g) as [a g']. simpl in *. eauto.
Qed.

Lemma randint_nonpositive (k : Z) (g : G) :
  (k <= 0)%Z → randint k g = (Raise ValueError, g).
Proof. intros Hk. unfold randint. rewrite decide_False by lia. done. Qed.

End Selection.

(** ** The sample-average update *)

Lemma count_S n : count (S n) = count n + 1.
Proof.
  unfold count. rewrite Nat2Z.inj_succ, <- Z.add_1_r, Z2Qc_inj_add, Z2Qc_inj_1.
  reflexivity.
Qed.

Lemma count_0 : count 0 = 0.
Proof. apply Z2Qc_inj_0. Qed.

Lemma count_nonneg n : 0 ≤ count n.
Proof. unfold count. rewrite <- Z2Qc_inj_0, <- Z2Qc_inj_le. lia. Qed.

Lemma count_S_pos n : 0 < count (S n).
Proof. unfold count. rewrite <- Z2Qc_inj_0, <- Z2Qc_inj_lt. lia. Qed.

Lemma count_S_nonzero n : count n + 1 ≠ 0.
Proof.
  rewrite <- count_S. intros Hz. pose proof (count_S_pos n) as Hpos.
  rewrite Hz in Hpos. exact (Qclt_not_eq _ _ Hpos eq_refl).
Qed.

Lemma np_sum_snoc rs r : np_sum (rs ++ [r]) = np_sum rs + r.
Proof.
  unfold np_sum. induction rs as [|x rs IH]; simpl.
  - ring.
  - rewrite IH. ring.
Qed.

Lemma np_zeros_length k : length (np_zeros k) = Z.to_nat k.
Proof. apply length_replicate. Qed.

Lemma np_zeros_lookup k i :
  (i < Z.to_nat k)%nat → np_zeros k !! i = Some 0.
Proof. intros Hi. apply lookup_replicate_2. exact Hi. Qed.

Lemma eg_update_unfold (Qv Nv : list Qc) (action : Z) (reward : Qc) :
  length Qv = length Nv →
  eg_update Qv Nv action reward =
  match py_index (length Nv) action with
  | Raise e => Raise e
  | Ok j =>
      match Qv !! j, Nv !! j with
      | Some q, Some n =>
          Ok (<[j := q + (reward - q) / (n + 1)]> Qv, <[j := n + 1]> Nv)
      | _, _ => Raise IndexError
      end
  end.
Proof.
  intros Hlen. unfold eg_update, getitem, setitem. rewrite Hlen.
  destruct (py_index (length Nv) action) as [j|e] eqn:Hj; [|reflexivity].
  destruct (py_index_Ok _ _ _ Hj) as [Hlt _].
  destruct (lookup_lt_is_Some_2 Nv j Hlt) as [n Hn].
  destruct (lookup_lt_is_Some_2 Qv j ltac:(lia)) as [q Hq].
  rewrite Hn, Hq, length_insert, Hj, list_lookup_insert_eq by exact Hlt.
  reflexivity.
Qed.

Lemma averages_init k : averages (Z.to_nat k) [] (np_zeros k) (np_zeros k).
Proof.
  split; [apply np_zeros_length|]. split; [apply np_zeros_length|].
  intros a Ha. exists 0. simpl. rewrite np_zeros_lookup by exact Ha.
  rewrite count_0. split; [reflexivity|]. split; [reflexivity|]. ring.
Qed.

Lemma rewards_received_snoc k a us i r :
  rewards_received k a (us ++ [(i, r)]) =
  rewards_received k a us ++
  match py_index k i with
  | Ok j => if decide (j = a) then [r] else []
  | Raise _ => []
  end.
Proof.
  unfold rewards_received. rewrite omap_app. f_equal. simpl.
  destruct (py_index k i) as [j|e]; [|reflexivity].
  destruct (decide (j = a)); reflexivity.
Qed.

Lemma averages_update k us Qv Nv i r Qv' Nv' :
  averages k us Qv Nv →
  eg_update Qv Nv i r = Ok (Qv', Nv') →
  averages k (us ++ [(i, r)]) Qv' Nv'.
Proof.
  intros (HQ & HN & Hav) Hupd.
  rewrite eg_update_unfold in Hupd by congruence.
  rewrite HN in Hupd.
  destruct (py_index k i) as [j|e] eqn:Hj; [|discriminate].
  destruct (Qv !! j) as [q|] eqn:Hq; [|discriminate].
  destruct (Nv !! j) as [n|] eqn:Hn; [|discriminate].
  injection Hupd as <- <-.
  split; [rewrite length_insert; exact HQ|].
  split; [rewrite length_insert; exact HN|].
  intros a Ha. destruct (Hav a Ha) as (qa & Hqa & Hna & Hmean).
  rewrite rewards_received_snoc, Hj.
  destruct (decide (j = a)) as [->|Hne].
  - assert (qa = q) as -> by congruence.
    assert (n = count (length (rewards_received k a us))) as -> by congruence.
    exists (q + (r - q) / (count (length (rewards_received k a us)) + 1)).
    rewrite !list_lookup_insert_eq by lia.
    rewrite length_app, Nat.add_1_r, count_S, np_sum_snoc. simpl.
    split; [reflexivity|]. split; [reflexivity|]. rewrite <- Hmean.
    pose proof (count_S_nonzero (length (rewards_received k a us))) as Hnz.
    field. exact Hnz.
  - exists qa. rewrite !list_lookup_insert_ne by exact Hne.
    rewrite app_nil_r. done.
Qed.

Lemma eg_updates_snoc k us i r :
  eg_updates k (us ++ [(i, r)]) =
  match eg_updates k us with
  | Ok (Qv, Nv) => eg_update Qv Nv i r
  | Raise e => Raise e
  end.
Proof. unfold eg_updates. rewrite foldl_snoc. reflexivity. Qed.

Lemma eg_updates_averages k us Qv Nv :
  eg_updates k us = Ok (Qv, Nv) → averages (Z.to_nat k) us Qv Nv.
Proof.
  revert Qv Nv. induction us as [|[i r] us IH] using rev_ind; intros Qv Nv.
  - intros [= <- <-]. apply averages_init.
  - rewrite eg_updates_snoc.
    destruct (eg_updates k us) as [[Qv0 Nv0]|e]; [|discriminate].
    intros Hupd. eapply averages_update; eauto.
Qed.

(** ** Runs of [epsilon_greedy] *)

Section EpsilonGreedyRuns.
Context {G : Type} `{!Numpy G}.

Lemma eg_select_action_range (k : Z) (epsilon : Qc) (Qv : list Qc) (g : G) :
  (0 < k)%Z → length Qv = Z.to_nat k →
  ∃ a g', eg_select_action k epsilon Qv g = (Ok a, g') ∧ (0 <= a < k)%Z.
Proof.
  intros Hk Hlen. rewrite eg_select_action_unfold.
  destruct (decide ((np_random_rand g).1 < epsilon)).
  - destruct (randint_range k (np_random_rand g).2 Hk) as (a & -> & Ha). eauto.
  - destruct (np_argmax_nonempty Qv) as [m Hm].
    { intros ->. simpl in Hlen. lia. }
    rewrite Hm. apply np_argmax_first_max in Hm as [Hm _].
    exists m, (np_random_rand g).2. split; [reflexivity | lia].
Qed.

Lemma eg_select_action_Ok (k : Z) (epsilon : Qc) (Qv : list Qc) (g g' : G) a :
  eg_select_action k epsilon Qv g = (Ok a, g') → length Qv = Z.to_nat k →
  (0 <= a < k)%Z.
Proof.
  intros Hsel Hlen. rewrite eg_select_action_unfold in Hsel.
  destruct (decide ((np_random_rand g).1 < epsilon)).
  - destruct (decide (0 < k)%Z) as [Hk|Hk].
    + destruct (randint_range k (np_random_rand g).2 Hk) as (a' & Hr & Ha).
      rewrite Hr in Hsel. congruence.
    + rewrite randint_nonpositive in Hsel by lia. discriminate.
  - injection Hsel as Hm _. apply np_argmax_first_max in Hm as [Hm _]. lia.
Qed.

(** One round, when it raises nothing: the action chosen, the reward
    observed, and the locals after it. *)
Lemma eg_round_Ok (p0 : list Qc) (epsilon : Qc) (s s' : eg_locals) (g g' : G) :
  eg_round (BernoulliBandit.init p0) (Z.of_nat (length p0)) epsilon s g
  = (Ok s', g') →
  length (eg_Q s) = length p0 →
  ∃ action reward,
    (0 <= action < Z.of_nat (length p0))%Z ∧ binary reward ∧
    eg_update (eg_Q s) (eg_N s) action (Qc_of_Z reward)
    = Ok (eg_Q s', eg_N s') ∧
    rewards_history s' = rewards_history s ++ [reward] ∧
    actions_history s' = actions_history s ++ [action].
Proof.
  intros Hround HlenQ. unfold eg_round, bind in Hround.
  destruct (eg_select_action _ epsilon (eg_Q s) g) as [[action|e] g1] eqn:Hsel;
    [|discriminate].
  apply eg_select_action_Ok in Hsel; [|rewrite Nat2Z.id; exact HlenQ].
  rewrite bandit_step_unfold in Hround. simpl in Hround.
  destruct (getitem p0 action) as [pa|e]; [|discriminate].
  unfold lift, ret in Hround.
  destruct (eg_update _ _ action _) as [[Qv Nv]|e] eqn:Hupd; [|discriminate].
  injection Hround as <- _. simpl.
  eexists action, _. split; [exact Hsel|].
  split; [apply bernoulli_reward_binary|]. split; [exact Hupd|]. done.
Qed.

Lemma eg_update_lengths Qv Nv i r Qv' Nv' :
  length Qv = length Nv → eg_update Qv Nv i r = Ok (Qv', Nv') →
  length Qv' = length Qv ∧ length Nv' = length Nv.
Proof.
  intros Hlen Hupd. rewrite eg_update_unfold in Hupd by exact Hlen.
  destruct (py_index _ i) as [j|e]; [|discriminate].
  destruct (Qv !! j), (Nv !! j); try discriminate.
  injection Hupd as <- <-. rewrite !length_insert. done.
Qed.

Lemma eg_round_consistent (p0 : list Qc) epsilon s s' (g g' : G) :
  eg_round (BernoulliBandit.init p0) (Z.of_nat (length p0)) epsilon s g
  = (Ok s', g') →
  eg_consistent (length p0) s → eg_consistent (length p0) s'.
Proof.
  intros Hround [HQ HN Hh Ha Hr].
  destruct (eg_round_Ok _ _ _ _ _ _ Hround HQ)
    as (action & reward & Hact & Hbin & Hupd & Hrh & Hah).
  assert (Hlen : length (eg_Q s) = length (eg_N s)) by congruence.
  destruct (eg_update_lengths _ _ _ _ _ _ Hlen Hupd) as [HQ' HN'].
  split.
  - congruence.
  - congruence.
  - rewrite Hrh, Hah, !length_app. simpl. lia.
  - rewrite Hah. apply Forall_app. split; [exact Ha|]. by constructor.
  - rewrite Hrh. apply Forall_app. split; [exact Hr|]. by constructor.
Qed.

(** A round on a bandit with at least one arm raises nothing. *)
Lemma eg_round_total (p0 : list Qc) epsilon s (g : G) :
  p0 ≠ [] → eg_consistent (length p0) s →
  ∃ s' g',
    eg_round (BernoulliBandit.init p0) (Z.of_nat (length p0)) epsilon s g
    = (Ok s', g').
Proof.
  intros Hne [HQ HN _ _ _].
  assert (Hk : (0 < Z.of_nat (length p0))%Z) by (destruct p0; [done | simpl; lia]).
  unfold eg_round, bind.
  destruct (eg_select_action_range (Z.of_nat (length p0)) epsilon (eg_Q s) g Hk)
    as (action & g1 & -> & Hact); [rewrite Nat2Z.id; exact HQ|].
  rewrite bandit_step_unfold. simpl.
  destruct (getitem_index p0 action (Z.to_nat action)) as (pa & _ & ->);
    [apply py_index_inrange; exact Hact|].
  unfold lift, ret. rewrite eg_update_unfold by congruence.
  rewrite HN, py_index_inrange by exact Hact.
  destruct (lookup_lt_is_Some_2 (eg_Q s) (Z.to_nat action) ltac:(lia)) as [q ->].
  destruct (lookup_lt_is_Some_2 (eg_N s) (Z.to_nat action) ltac:(lia)) as [n ->].
  eauto.
Qed.

End EpsilonGreedyRuns.

(** ** Counts add up to the number of updates *)

Lemma np_sum_insert (a : list Qc) (j : nat) (old new : Qc) :
  a !! j = Some old → np_sum (<[j := new]> a) = np_sum a - old + new.
Proof.
  revert j. induction a as [|x a IH]; intros [|j] Hj; simpl in *; try done.
  - injection Hj as ->. unfold np_sum. simpl. ring.
  - unfold np_sum in *. simpl. rewrite (IH j Hj). ring.
Qed.

Lemma np_sum_replicate n (x : Qc) : np_sum (replicate n x) = count n * x.
Proof.
  induction n as [|n IH].
  - rewrite count_0. unfold np_sum. simpl. ring.
  - rewrite count_S. unfold np_sum in *. simpl. rewrite IH. ring.
Qed.

Lemma eg_updates_count_sum k us Qv Nv :
  eg_updates k us = Ok (Qv, Nv) →
  length Qv = length Nv ∧ np_sum Nv = count (length us).
Proof.
  revert Qv Nv. induction us as [|[i r] us IH] using rev_ind; intros Qv Nv.
  - intros [= <- <-]. split; [reflexivity|].
    unfold np_zeros. rewrite np_sum_replicate. simpl. rewrite count_0. ring.
  - rewrite eg_updates_snoc.
    destruct (eg_updates k us) as [[Qv0 Nv0]|e]; [|discriminate].
    destruct (IH Qv0 Nv0 eq_refl) as [Hlen Hsum].
    intros Hupd. rewrite eg_update_unfold in Hupd by exact Hlen.
    destruct (py_index _ i) as [j|e]; [|discriminate].
    destruct (Qv0 !! j) as [q|]; [|discriminate].
    destruct (Nv0 !! j) as [n|] eqn:Hn; [|discriminate].
    injection Hupd as <- <-. rewrite !length_insert. split; [exact Hlen|].
    rewrite (np_sum_insert _ _ _ _ Hn), Hsum, length_app, Nat.add_1_r, count_S.
    ring.
Qed.

(** ** Whole runs of the epsilon-greedy loop *)

Section EpsilonGreedyLoop.
Context {G : Type} `{!Numpy G}.

Lemma eg_initial_consistent k : eg_consistent (Z.to_nat k) (eg_initial k).
Proof.
  split; simpl; try apply np_zeros_length; try done; constructor.
Qed.

Lemma eg_round_replays (p0 : list Qc) epsilon s s' (g g' : G) :
  eg_round (BernoulliBandit.init p0) (Z.of_nat (length p0)) epsilon s g
  = (Ok s', g') →
  eg_consistent (length p0) s →
  eg_replays (Z.of_nat (length p0)) s → eg_replays (Z.of_nat (length p0)) s'.
Proof.
  intros Hround Hcons Hrep.
  destruct (eg_round_Ok _ _ _ _ _ _ Hround (eg_len_Q _ _ Hcons))
    as (action & reward & _ & _ & Hupd & Hrh & Hah).
  unfold eg_replays, eg_trace in *. rewrite Hrh, Hah, fmap_app.
  rewrite zip_with_app
    by (rewrite length_fmap; exact (eg_len_hist _ _ Hcons)).
  simpl. rewrite eg_updates_snoc, Hrep. exact Hupd.
Qed.

Lemma eg_loop_O bandit k epsilon s (g : G) :
  eg_loop bandit k epsilon 0 s g = (Ok s, g).
Proof. reflexivity. Qed.

Lemma eg_loop_S bandit k epsilon rounds s (g : G) :
  eg_loop bandit k epsilon (S rounds) s g =
  match eg_round bandit k epsilon s g with
  | (Ok s', g') => eg_loop bandit k epsilon rounds s' g'
  | (Raise e, g') => (Raise e, g')
  end.
Proof. reflexivity. Qed.

(** A property of the locals that holds at the start and survives every
    round that raises nothing holds when the loop is left. *)
Lemma eg_loop_invariant (P : eg_locals → Prop) bandit k epsilon :
  (∀ s (g : G) s' g',
     P s → eg_round bandit k epsilon s g = (Ok s', g') → P s') →
  ∀ rounds s g s' g',
    P s → eg_loop bandit k epsilon rounds s g = (Ok s', g') → P s'.
Proof.
  intros Hstep rounds.
  induction rounds as [|rounds IH]; intros s g s' g' HP Hloop.
  - rewrite eg_loop_O in Hloop. congruence.
  - rewrite eg_loop_S in Hloop.
    destruct (eg_round bandit k epsilon s g) as [[s1|e] g1] eqn:Hround;
      [|discriminate].
    eapply IH; [|exact Hloop]. eapply Hstep; eauto.
Qed.

Lemma eg_loop_rounds (p0 : list Qc) epsilon rounds s (g : G) s' g' :
  eg_loop (BernoulliBandit.init p0) (Z.of_nat (length p0)) epsilon rounds s g
  = (Ok s', g') →
  eg_consistent (length p0) s →
  length (rewards_history s') = (length (rewards_history s) + rounds)%nat.
Proof.
  revert s g. induction rounds as [|rounds IH]; intros s g Hloop Hcons.
  - rewrite eg_loop_O in Hloop. injection Hloop as <- _. lia.
  - rewrite eg_loop_S in Hloop.
    destruct (eg_round _ _ epsilon s g) as [[s1|e] g1] eqn:Hround;
      [|discriminate].
    destruct (eg_round_Ok _ _ _ _ _ _ Hround (eg_len_Q _ _ Hcons))
      as (action & reward & _ & _ & _ & Hrh & _).
    rewrite (IH _ _ Hloop), Hrh, length_app; [simpl; lia|].
    eapply eg_round_consistent; eauto.
Qed.

Lemma eg_loop_total (p0 : list Qc) epsilon rounds s (g : G) :
  p0 ≠ [] → eg_consistent (length p0) s →
  ∃ s' g',
    eg_loop (BernoulliBandit.init p0) (Z.of_nat (length p0)) epsilon rounds s g
    = (Ok s', g').
Proof.
  intros Hne. revert s g. induction rounds as [|rounds IH]; intros s g Hcons.
  - rewrite eg_loop_O. eauto.
  - rewrite eg_loop_S.
    destruct (eg_round_total p0 epsilon s g Hne Hcons) as (s1 & g1 & Hround).
    rewrite Hround. apply IH. eapply eg_round_consistent; eauto.
Qed.

Lemma epsilon_greedy_locals_unfold (p0 : list Qc) num_steps epsilon (g : G) :
  epsilon_greedy_locals (BernoulliBandit.init p0) num_steps epsilon g =
  eg_loop (BernoulliBandit.init p0) (Z.of_nat (length p0)) epsilon
    (Z.to_nat num_steps) (eg_initial (Z.of_nat (length p0))) g.
Proof. reflexivity. Qed.

(** What is known of the locals when [epsilon_greedy] leaves its loop. *)
Lemma epsilon_greedy_locals_Ok (p0 : list Qc) num_steps epsilon (g : G) s g' :
  epsilon_greedy_locals (BernoulliBandit.init p0) num_steps epsilon g
  = (Ok s, g') →
  eg_consistent (length p0) s ∧ eg_replays (Z.of_nat (length p0)) s ∧
  length (rewards_history s) = Z.to_nat num_steps.
Proof.
  rewrite epsilon_greedy_locals_unfold. intros Hloop.
  pose proof (eg_initial_consistent (Z.of_nat (length p0))) as H0.
  rewrite Nat2Z.id in H0.
  assert (Hboth : eg_consistent (length p0) s ∧
                  eg_replays (Z.of_nat (length p0)) s).
  { eapply (eg_loop_invariant
              (fun s => eg_consistent (length p0) s ∧
                        eg_replays (Z.of_nat (length p0)) s));
      [| |exact Hloop].
    - intros s0 g0 s1 g1 [Hc Hr] Hround.
      split; [eapply eg_round_consistent | eapply eg_round_replays]; eauto.
    - split; [exact H0 | reflexivity]. }
  destruct Hboth as [Hc Hr]. split; [exact Hc|]. split; [exact Hr|].
  rewrite (eg_loop_rounds _ _ _ _ _ _ _ Hloop H0). reflexivity.
Qed.

Lemma epsilon_greedy_locals_total (p0 : list Qc) num_steps epsilon (g : G) :
  p0 ≠ [] →
  ∃ s g', epsilon_greedy_locals (BernoulliBandit.init p0) num_steps epsilon g
          = (Ok s, g').
Proof.
  intros Hne. rewrite epsilon_greedy_locals_unfold.
  apply eg_loop_total; [exact Hne|].
  pose proof (eg_initial_consistent (Z.of_nat (length p0))) as H0.
  rewrite Nat2Z.id in H0. exact H0.
Qed.

(** What [epsilon_greedy] returns: the recorded rewards and [Q]. *)
Lemma epsilon_greedy_returns (bandit : BernoulliBandit.t) num_steps epsilon
  (g : G) :
  epsilon_greedy bandit num_steps epsilon g =
  match epsilon_greedy_locals bandit num_steps epsilon g with
  | (Ok s, g') => (Ok (rewards_history s, eg_Q s), g')
  | (Raise e, g') => (Raise e, g')
  end.
Proof. reflexivity. Qed.

End EpsilonGreedyLoop.

(** ** The action chosen on every round *)

Section EveryRound.
Context {G : Type} `{!Numpy G}.

Lemma eg_select_action_selects (k : Z) (epsilon : Qc) (Qv : list Qc)
  (g g1 : G) (action : Z) :
  eg_select_action k epsilon Qv g = (Ok action, g1) →
  eg_selects k epsilon Qv g action.
Proof.
  intros Hsel. rewrite eg_select_action_unfold in Hsel.
  split; [apply np_random_rand_range|].
  destruct (decide ((np_random_rand g).1 < epsilon)) as [Hu|Hu].
  - split; [|done]. intros _.
    destruct (decide (0 < k)%Z) as [Hk|Hk].
    + pose proof (np_random_randint_range k (np_random_rand g).2 Hk) as Ha.
      unfold randint in Hsel. rewrite decide_True in Hsel by exact Hk.
      destruct (np_random_randint k (np_random_rand g).2) as [a' g'].
      injection Hsel as <- _. done.
    + rewrite randint_nonpositive in Hsel by lia. discriminate.
  - split; [done|]. intros _. injection Hsel as Hm _.
    split; [exact Hm|]. apply np_argmax_first_max. exact Hm.
Qed.

(** One round, whatever the bandit and the locals: the action selected is
    the one the bandit is stepped with, the one whose estimate is updated and
    the one recorded. *)
Lemma eg_round_inv bandit (k : Z) (epsilon : Qc) (s s' : eg_locals) (g g' : G) :
  eg_round bandit k epsilon s g = (Ok s', g') →
  ∃ action reward g1,
    eg_select_action k epsilon (eg_Q s) g = (Ok action, g1) ∧
    BernoulliBandit.step bandit action g1 = (Ok reward, g') ∧
    eg_update (eg_Q s) (eg_N s) action (Qc_of_Z reward)
    = Ok (eg_Q s', eg_N s') ∧
    rewards_history s' = rewards_history s ++ [reward] ∧
    actions_history s' = actions_history s ++ [action].
Proof.
  intros Hround. unfold eg_round, bind in Hround.
  destruct (eg_select_action k epsilon (eg_Q s) g) as [[action|e] g1];
    [|discriminate].
  destruct (BernoulliBandit.step bandit action g1) as [[reward|e] g2]
    eqn:Hstep; [|discriminate].
  unfold lift, ret in Hround.
  destruct (eg_update _ _ action _) as [[Qv Nv]|e] eqn:Hupd; [|discriminate].
  injection Hround as <- <-. exists action, reward, g1. done.
Qed.

Lemma eg_loop_split bandit k epsilon (i j : nat) s (g : G) :
  eg_loop bandit k epsilon (i + j) s g =
  match eg_loop bandit k epsilon i s g with
  | (Ok s1, g1) => eg_loop bandit k epsilon j s1 g1
  | (Raise e, g1) => (Raise e, g1)
  end.
Proof.
  revert s g. induction i as [|i IH]; intros s g; [reflexivity|].
  change (S i + j)%nat with (S (i + j)). rewrite !eg_loop_S.
  destruct (eg_round bandit k epsilon s g) as [[s1|e] g1]; [apply IH|done].
Qed.

Lemma eg_loop_appends bandit k epsilon rounds s (g : G) s' g' :
  eg_loop bandit k epsilon rounds s g = (Ok s', g') →
  ∃ l, length l = rounds ∧ actions_history s' = actions_history s ++ l.
Proof.
  revert s g. induction rounds as [|rounds IH]; intros s g Hloop.
  - rewrite eg_loop_O in Hloop. injection Hloop as <- _. exists [].
    rewrite app_nil_r. done.
  - rewrite eg_loop_S in Hloop.
    destruct (eg_round bandit k epsilon s g) as [[s1|e] g1] eqn:Hround;
      [|discriminate].
    destruct (eg_round_inv _ _ _ _ _ _ _ Hround)
      as (action & reward & g2 & _ & _ & _ & _ & Hah).
    destruct (IH _ _ Hloop) as (l & Hl & Heq).
    exists (action :: l). rewrite Heq, Hah, <- app_assoc. simpl.
    split; [lia|done].
Qed.

(** The locals and the random source at the head of round [i] of a loop that
    raised nothing, and the action that round recorded. *)
Lemma eg_loop_round bandit k epsilon rounds s0 (g0 : G) s g' (i : nat) :
  eg_loop bandit k epsilon rounds s0 g0 = (Ok s, g') → (i < rounds)%nat →
  ∃ s_i g_i s_i' g_i' action,
    eg_loop bandit k epsilon i s0 g0 = (Ok s_i, g_i) ∧
    eg_round bandit k epsilon s_i g_i = (Ok s_i', g_i') ∧
    actions_history s_i' = actions_history s_i ++ [action] ∧
    length (actions_history s_i) = (length (actions_history s0) + i)%nat ∧
    actions_history s !! (length (actions_history s0) + i)%nat = Some action.
Proof.
  intros Hloop Hi.
  replace rounds with (i + S (rounds - S i))%nat in Hloop by lia.
  rewrite eg_loop_split in Hloop.
  destruct (eg_loop bandit k epsilon i s0 g0) as [[s_i|e] g_i] eqn:Hpre;
    [|discriminate].
  rewrite eg_loop_S in Hloop.
  destruct (eg_round bandit k epsilon s_i g_i) as [[s_i'|e] g_i'] eqn:Hround;
    [|discriminate].
  destruct (eg_round_inv _ _ _ _ _ _ _ Hround)
    as (action & reward & g2 & _ & _ & _ & _ & Hah).
  destruct (eg_loop_appends _ _ _ _ _ _ _ _ Hpre) as (pre & Hpre_len & Hpre_eq).
  destruct (eg_loop_appends _ _ _ _ _ _ _ _ Hloop) as (post & _ & Hpost).
  exists s_i, g_i, s_i', g_i', action.
  split; [reflexivity|]. split; [exact Hround|]. split; [exact Hah|].
  split; [rewrite Hpre_eq, length_app; lia|].
  rewrite Hpost, Hah, Hpre_eq, <- !app_assoc.
  rewrite lookup_app_r by lia.
  replace (length (actions_history s0) + i - length (actions_history s0))%nat
    with (length pre + 0)%nat by lia.
  rewrite lookup_app_r by lia.
  replace (length pre + 0 - length pre)%nat with 0%nat by lia. reflexivity.
Qed.

Lemma eg_round_selects bandit (k : Z) (epsilon : Qc) (s s' : eg_locals)
  (g g' : G) :
  eg_round bandit k epsilon s g = (Ok s', g') →
  ∃ action reward,
    eg_selects k epsilon (eg_Q s) g action ∧
    actions_history s' = actions_history s ++ [action] ∧
    rewards_history s' = rewards_history s ++ [reward] ∧
    (BernoulliBandit.step bandit action
       (eg_select_action k epsilon (eg_Q s) g).2).1 = Ok reward ∧
    eg_update (eg_Q s) (eg_N s) action (Qc_of_Z reward)
    = Ok (eg_Q s', eg_N s').
Proof.
  intros Hround.
  destruct (eg_round_inv _ _ _ _ _ _ _ Hround)
    as (action & reward & g1 & Hsel & Hstep & Hupd & Hrh & Hah).
  exists action, reward.
  split; [eapply eg_select_action_selects; exact Hsel|].
  rewrite Hsel. simpl. rewrite Hstep. done.
Qed.

Lemma eg_run_selects bandit num_steps (epsilon : Qc) (g : G) s g' :
  epsilon_greedy_locals bandit num_steps epsilon g = (Ok s, g') →
  length (actions_history s) = Z.to_nat num_steps ∧
  ∀ i, (i < Z.to_nat num_steps)%nat →
    ∃ s_i g_i action,
      eg_loop bandit (BernoulliBandit.k bandit) epsilon i
        (eg_initial (BernoulliBandit.k bandit)) g = (Ok s_i, g_i) ∧
      actions_history s !! i = Some action ∧
      eg_selects (BernoulliBandit.k bandit) epsilon (eg_Q s_i) g_i action.
Proof.
  intros Hrun. unfold epsilon_greedy_locals in Hrun. split.
  { destruct (eg_loop_appends _ _ _ _ _ _ _ _ Hrun) as (l & Hl & Heq).
    rewrite Heq. simpl. exact Hl. }
  intros i Hi.
  destruct (eg_loop_round _ _ _ _ _ _ _ _ i Hrun Hi)
    as (s_i & g_i & s_i' & g_i' & action & Hpre & Hround & Hah & _ & Hi_th).
  exists s_i, g_i, action. split; [exact Hpre|]. split; [exact Hi_th|].
  destruct (eg_round_inv _ _ _ _ _ _ _ Hround)
    as (action' & reward & g1 & Hsel & _ & _ & _ & Hah').
  assert (action' = action) as ->.
  { rewrite Hah in Hah'. apply app_inj_tail in Hah'. symmetry. tauto. }
  eapply eg_select_action_selects. exact Hsel.
Qed.

Lemma eg_selects_greedy (k : Z) (Qv : list Qc) (g : G) (action : Z) :
  eg_selects k 0 Qv g action →
  np_argmax Qv = Ok action ∧ first_max Qv (Z.to_nat action).
Proof.
  intros (Hu & _ & Hgreedy).
  destruct Hgreedy as (Hm & _ & Hfirst); [|done].
  apply Qcle_not_lt. exact (proj1 Hu).
Qed.

Lemma eg_selects_random (k : Z) (Qv : list Qc) (g : G) (action : Z) :
  eg_selects k 1 Qv g action →
  action = (np_random_randint k (np_random_rand g).2).1 ∧ (0 <= action < k)%Z.
Proof. intros (Hu & Hrandom & _). apply Hrandom. exact (proj2 Hu). Qed.

End EveryRound.

(** C2.  Every round of [epsilon_greedy] selects its action from the draw
    [u] in [[0, 1)] it takes first and from the estimates [Q] as the rounds
    before left them: if [u < epsilon] the action is what
    [np.random.randint(k)] returns next, an index in [[0, k)]; otherwise it
    is [np.argmax(Q)], the first position holding the largest estimate.  The
    action selected is the arm pulled, the entry of [Q] and [N] updated and
    the action recorded, and this holds of round [i] of any run that
    returns, for every [i].  With [epsilon = 0] every round takes the argmax
    branch, with [epsilon = 1] every round the random branch.  On a bandit
    with at least one arm every run returns. *)
Theorem every_round_selects {G : Type} `{!Numpy G}
  (bandit : BernoulliBandit.t) :
  (∀ k epsilon s (g : G) s' g',
     eg_round bandit k epsilon s g = (Ok s', g') →
     ∃ action reward,
       eg_selects k epsilon (eg_Q s) g action ∧
       actions_history s' = actions_history s ++ [action] ∧
       rewards_history s' = rewards_history s ++ [reward] ∧
       (BernoulliBandit.step bandit action
          (eg_select_action k epsilon (eg_Q s) g).2).1 = Ok reward ∧
       eg_update (eg_Q s) (eg_N s) action (Qc_of_Z reward)
       = Ok (eg_Q s', eg_N s')) ∧
  (∀ num_steps epsilon (g : G) s g',
     epsilon_greedy_locals bandit num_steps epsilon g = (Ok s, g') →
     length (actions_history s) = Z.to_nat num_steps ∧
     ∀ i, (i < Z.to_nat num_steps)%nat →
       ∃ s_i g_i action,
         eg_loop bandit (BernoulliBandit.k bandit) epsilon i
           (eg_initial (BernoulliBandit.k bandit)) g = (Ok s_i, g_i) ∧
         actions_history s !! i = Some action ∧
         eg_selects (BernoulliBandit.k bandit) epsilon (eg_Q s_i) g_i action) ∧
  (∀ num_steps (g : G) s g',
     epsilon_greedy_locals bandit num_steps 0 g = (Ok s, g') →
     ∀ i, (i < Z.to_nat num_steps)%nat →
       ∃ s_i g_i action,
         eg_loop bandit (BernoulliBandit.k bandit) 0 i
           (eg_initial (BernoulliBandit.k bandit)) g = (Ok s_i, g_i) ∧
         actions_history s !! i = Some action ∧
         np_argmax (eg_Q s_i) = Ok action ∧
         first_max (eg_Q s_i) (Z.to_nat action)) ∧
  (∀ num_steps (g : G) s g',
     epsilon_greedy_locals bandit num_steps 1 g = (Ok s, g') →
     ∀ i, (i < Z.to_nat num_steps)%nat →
       ∃ s_i g_i action,
         eg_loop bandit (BernoulliBandit.k bandit) 1 i
           (eg_initial (BernoulliBandit.k bandit)) g = (Ok s_i, g_i) ∧
         actions_history s !! i = Some action ∧
         action = (np_random_randint (BernoulliBandit.k bandit)
                     (np_random_rand g_i).2).1 ∧
         (0 <= action < BernoulliBandit.k bandit)%Z) ∧
  (∀ p0 num_steps epsilon (g : G),
     bandit = BernoulliBandit.init p0 → p0 ≠ [] →
     ∃ s g', epsilon_greedy_locals bandit num_steps epsilon g = (Ok s, g')).
Proof.
  split; [intros; eapply eg_round_selects; eauto|].
  split; [intros; eapply eg_run_selects; eauto|].
  split; [|split];
    [| | intros p0 num_steps epsilon g -> Hne;
         apply epsilon_greedy_locals_total; exact Hne].
  - intros num_steps g s g' Hrun i Hi.
    destruct (eg_run_selects _ _ _ _ _ _ Hrun) as [_ Hall].
    destruct (Hall i Hi) as (s_i & g_i & action & Hpre & Hact & Hsel).
    exists s_i, g_i, action. split; [exact Hpre|]. split; [exact Hact|].
    eapply eg_selects_greedy. exact Hsel.
  - intros num_steps g s g' Hrun i Hi.
    destruct (eg_run_selects _ _ _ _ _ _ Hrun) as [_ Hall].
    destruct (Hall i Hi) as (s_i & g_i & action & Hpre & Hact & Hsel).
    exists s_i, g_i, action. split; [exact Hpre|]. split; [exact Hact|].
    eapply eg_selects_random. exact Hsel.
Qed.
(** ** Rounding to binary64 *)

Lemma this_plus (x y : Qc) : (this (x + y) == this x + this y)%Q.
Proof. apply Qred_correct. Qed.
Lemma this_mult (x y : Qc) : (this (x * y) == this x * this y)%Q.
Proof. apply Qred_correct. Qed.
Lemma this_opp (x : Qc) : (this (- x) == - this x)%Q.
Proof. apply Qred_correct. Qed.
Lemma this_minus (x y : Qc) : (this (x - y) == this x - this y)%Q.
Proof. unfold Qcminus. rewrite this_plus, this_opp. reflexivity. Qed.
Lemma this_inv (x : Qc) : (this (/ x) == / this x)%Q.
Proof. apply Qred_correct. Qed.
Lemma this_div (x y : Qc) : (this (x / y) == this x / this y)%Q.
Proof. unfold Qcdiv. rewrite this_mult, this_inv. reflexivity. Qed.
Lemma this_of_Z (z : Z) : (this (Qc_of_Z z) == inject_Z z)%Q.
Proof. reflexivity. Qed.
Lemma this_pow2 (e : Z) : (this (pow2 e) == 2 ^ e)%Q.
Proof. apply Qred_correct. Qed.
Lemma Qc_eq_this (x y : Qc) : x = y ↔ (this x == this y)%Q.
Proof. split; [intros ->; reflexivity | apply Qc_is_canon]. Qed.

Ltac literals_Q :=
  repeat match goal with
  | |- context [this (Q2Qc (?a # ?b))] =>
      let v := eval vm_compute in (this (Q2Qc (a # b))) in
      change (this (Q2Qc (a # b))) with v
  | H : context [this (Q2Qc (?a # ?b))] |- _ =>
      let v := eval vm_compute in (this (Q2Qc (a # b))) in
      change (this (Q2Qc (a # b))) with v in H
  end.

(** Statements on [Qc] as statements on [Q], where [lra] and [nra] work. *)
Ltac to_Q :=
  repeat match goal with
  | H : @eq Qc _ _ |- _ => apply Qc_eq_this in H
  | H : ¬ @eq Qc _ _ |- _ => rewrite Qc_eq_this in H
  | |- @eq Qc _ _ => apply Qc_eq_this
  end;
  unfold Qcle, Qclt in *;
  repeat (rewrite ?this_plus, ?this_minus, ?this_mult, ?this_opp, ?this_div,
            ?this_inv, ?this_of_Z, ?this_pow2 in * );
  change (this 0) with 0%Q in *; change (this 1) with 1%Q in *;
  cbn [this] in *; literals_Q.




Lemma pow2_le_inv a b : pow2 a ≤ pow2 b → (a ≤ b)%Z.
Proof. intros. to_Q. eapply Qpower_le_compat_l_inv; [done|reflexivity]. Qed.













(** ** The sample-average update in binary64 *)

















(** ** Runs of [epsilon_greedy] in binary64 *)


Section EpsilonGreedy64Runs.
Context {G : Type} `{!Numpy G}.







End EpsilonGreedy64Runs.



(** [round64] gives what the machine gives for sums, differences, products
    and quotients of the sample pairs. *)
Example round64_agrees_on_samples : Binary64.samples_agree = true.
Proof. vm_compute. reflexivity. Qed.

(** So do the update in [eg_update64] and the update on the machine: three
    rewards 1, 0, 0 leave [6004799503160662 * 2^-54], the double printed as
    0.33333333333333337, not the mean 1/3. *)
Example round64_agrees_with_machine :
  (∃ Nv, eg_updates64 1 [(0%Z, 1); (0%Z, 0); (0%Z, 0)]
         = Ok ([Qc_of_Z 6004799503160662 * pow2 (-54)], Nv)) ∧
  Binary64.value Binary64.after_1_0_0
  = Some (Qc_of_Z 6004799503160662 * pow2 (-54)) ∧
  (∃ q Nv, eg_updates64 1 [(0%Z, 0); (0%Z, 0); (0%Z, 0); (0%Z, 0); (0%Z, 1);
                           (0%Z, 0); (0%Z, 0)] = Ok ([q], Nv) ∧
           Binary64.value Binary64.after_0_0_0_0_1_0_0 = Some q) ∧
  (∃ q Nv, eg_updates64 1 [(0%Z, Qc_of_Z (10 ^ 20)); (0%Z, 1);
                           (0%Z, Qc_of_Z 3)] = Ok ([q], Nv) ∧
           Binary64.value Binary64.after_1e20_1_3 = Some q).
Proof.
  split; [eexists; vm_compute; reflexivity|].
  split; [vm_compute; reflexivity|].
  split; eexists _, _; (split; [vm_compute; reflexivity|]);
    vm_compute; reflexivity.
Qed.

(** From [2^53] on, [N[a] += 1] leaves the count as it is: statements about
    counts and means need a bound on the number of updates. *)
Example count_saturates : round64 (Qc_of_Z (2 ^ 53) + 1) = Qc_of_Z (2 ^ 53).
Proof. apply Qc_is_canon. vm_compute. reflexivity. Qed.





(** ** The contextual simulators, call by call *)

Section ContextualStep.
Context {G : Type} `{!Numpy G}.

Lemma get_context_unfold (env : SearchBandit.t) (g : G) :
  SearchBandit.get_context (env, g) =
  if decide (0 <= SearchBandit.context_dim env)%Z
  then (Ok (np_random_randn (Z.to_nat (SearchBandit.context_dim env)) g).1,
        (env, (np_random_randn (Z.to_nat (SearchBandit.context_dim env)) g).2))
  else (Raise ValueError, (env, g)).
Proof.
  unfold SearchBandit.get_context, bind, get_self, on_rng, randn, raise.
  destruct (decide (0 <= SearchBandit.context_dim env)%Z); [|reflexivity].
  destruct (np_random_randn _ g); reflexivity.
Qed.

Lemma contextual_step_unfold (env : SearchBandit.t) action context (g : G) :
  SearchBandit.step action context (env, g) =
  match getitem (SearchBandit.weights env) action with
  | Raise e => (Raise e, (env, g))
  | Ok w =>
      match np_dot w context with
      | Raise e => (Raise e, (env, g))
      | Ok z =>
          (Ok (if decide ((np_random_rand g).1 < sigmoid z) then 1%Z else 0%Z,
               bool_decide (SearchBandit.horizon env
                            <= SearchBandit.current_step env + 1)%Z),
           (SearchBandit.set_current_step
              (SearchBandit.current_step env + 1) env,
            (np_random_rand g).2))
      end
  end.
Proof.
  unfold SearchBandit.step, bind, get_self, lift, on_rng, rand, set_self, ret.
  destruct (getitem (SearchBandit.weights env) action) as [w|e]; [|reflexivity].
  destruct (np_dot w context) as [z|e]; [|reflexivity].
  destruct (np_random_rand g) as [u g1]. reflexivity.
Qed.

Lemma ts_select_action_unfold (alpha beta : list Qc) (g : G) :
  ts_select_action alpha beta g =
  if decide (length alpha = length beta)
  then (np_argmax (np_random_beta alpha beta g).1,
        (np_random_beta alpha beta g).2)
  else (Raise ValueError, g).
Proof.
  unfold ts_select_action, bind, random_beta, lift, raise.
  destruct (decide (length alpha = length beta)); [|reflexivity].
  destruct (np_random_beta alpha beta g); reflexivity.
Qed.

Lemma ts_select_action_Ok (alpha beta : list Qc) (g g' : G) a :
  ts_select_action alpha beta g = (Ok a, g') →
  (0 <= a < Z.of_nat (length alpha))%Z.
Proof.
  rewrite ts_select_action_unfold.
  destruct (decide (length alpha = length beta)) as [Hlen|]; [|discriminate].
  intros [= Hm _]. apply np_argmax_first_max in Hm as [Hm _].
  rewrite np_random_beta_shape in Hm by exact Hlen. exact Hm.
Qed.

Lemma ts_select_action_total (alpha beta : list Qc) (g : G) :
  length alpha = length beta → alpha ≠ [] →
  ∃ a, ts_select_action alpha beta g = (Ok a, (np_random_beta alpha beta g).2).
Proof.
  intros Hlen Hne. rewrite ts_select_action_unfold, decide_True by exact Hlen.
  destruct (np_argmax_nonempty (np_random_beta alpha beta g).1) as [m ->];
    [|eauto].
  intros Hnil. apply (f_equal length) in Hnil.
  rewrite np_random_beta_shape in Hnil by exact Hlen.
  destruct alpha; [done | discriminate].
Qed.

End ContextualStep.

Lemma ts_update_unfold (alpha beta : list Qc) (action reward : Z) :
  length alpha = length beta →
  ts_update alpha beta action reward =
  match py_index (length alpha) action with
  | Raise e => Raise e
  | Ok j =>
      match alpha !! j, beta !! j with
      | Some a, Some b =>
          if decide (reward = 1%Z)
          then Ok (<[j := a + 1]> alpha, beta)
          else Ok (alpha, <[j := b + 1]> beta)
      | _, _ => Raise IndexError
      end
  end.
Proof.
  intros Hlen. unfold ts_update, getitem, setitem. rewrite <- Hlen.
  destruct (py_index (length alpha) action) as [j|e] eqn:Hj;
    [|destruct (decide (reward = 1%Z)); reflexivity].
  destruct (py_index_Ok _ _ _ Hj) as [Hlt _].
  destruct (lookup_lt_is_Some_2 alpha j Hlt) as [a ->].
  destruct (lookup_lt_is_Some_2 beta j ltac:(lia)) as [b ->].
  destruct (decide (reward = 1%Z)); reflexivity.
Qed.

(** ** Runs of [run_thompson_search] *)

Lemma times_selected_snoc i actions a :
  times_selected i (actions ++ [a]) =
  (times_selected i actions + if decide (a = Z.of_nat i) then 1 else 0)%nat.
Proof.
  unfold times_selected. rewrite filter_app, length_app. f_equal.
  rewrite filter_cons, filter_nil. destruct (decide (a = Z.of_nat i)); reflexivity.
Qed.

Lemma ts_initial_consistent k : ts_consistent (Z.to_nat k) (ts_initial k).
Proof.
  split; simpl; try apply length_replicate; try done; try constructor.
  - intros i Hi. exists 1, 1. unfold np_ones.
    rewrite !lookup_replicate_2 by exact Hi.
    split; [reflexivity|]. split; [reflexivity|].
    unfold times_selected. simpl. rewrite count_0. ring.
  - unfold np_ones. rewrite np_sum_replicate, count_0. ring.
Qed.

Lemma ts_update_consistent k s action reward alpha beta :
  ts_consistent k s → (0 <= action < Z.of_nat k)%Z → binary reward →
  ts_update (ts_alpha s) (ts_beta s) action reward = Ok (alpha, beta) →
  ts_consistent k
    {| ts_alpha := alpha; ts_beta := beta;
       ts_rewards_history := ts_rewards_history s ++ [reward];
       ts_actions_history := ts_actions_history s ++ [action] |}.
Proof.
  intros [Ha Hb Hh Hact Hrew Hps Htot] Haction Hbin Hupd.
  rewrite ts_update_unfold in Hupd by congruence.
  rewrite Ha, py_index_inrange in Hupd by exact Haction.
  destruct (ts_alpha s !! Z.to_nat action) as [a|] eqn:Hla; [|discriminate].
  destruct (ts_beta s !! Z.to_nat action) as [b|] eqn:Hlb; [|discriminate].
  assert (Hlens : length alpha = k ∧ length beta = k).
  { destruct (decide (reward = 1%Z)); injection Hupd as <- <-;
      rewrite ?length_insert; done. }
  assert (Hsum : np_sum alpha + np_sum beta
                 = np_sum (ts_alpha s) + np_sum (ts_beta s) + 1).
  { destruct (decide (reward = 1%Z)); injection Hupd as <- <-.
    - rewrite (np_sum_insert _ _ _ _ Hla). ring.
    - rewrite (np_sum_insert _ _ _ _ Hlb). ring. }
  split; simpl.
  - apply Hlens.
  - apply Hlens.
  - rewrite !length_app. simpl. lia.
  - apply Forall_app. split; [exact Hact | by constructor].
  - apply Forall_app. split; [exact Hrew | by constructor].
  - intros i Hi. destruct (Hps i Hi) as (a0 & b0 & Ha0 & Hb0 & Hab).
    rewrite times_selected_snoc.
    destruct (decide (action = Z.of_nat i)) as [->|Hne].
    + rewrite Nat2Z.id in Hla, Hlb.
      assert (a0 = a) as -> by congruence.
      assert (b0 = b) as -> by congruence.
      rewrite Nat.add_1_r, count_S.
      destruct (decide (reward = 1%Z)); injection Hupd as <- <-.
      * exists (a + 1), b. rewrite Nat2Z.id, list_lookup_insert_eq by lia.
        split; [reflexivity|]. split; [exact Hlb|].
        replace (a + 1 + b) with (a + b + 1) by ring. rewrite Hab. ring.
      * exists a, (b + 1). rewrite Nat2Z.id, list_lookup_insert_eq by lia.
        split; [exact Hla|]. split; [reflexivity|].
        replace (a + (b + 1)) with (a + b + 1) by ring. rewrite Hab. ring.
    + rewrite Nat.add_0_r. exists a0, b0.
      assert (Z.to_nat action ≠ i) by lia.
      destruct (decide (reward = 1%Z)); injection Hupd as <- <-;
        rewrite ?list_lookup_insert_ne by done; done.
  - rewrite Hsum, Htot, length_app, Nat.add_1_r, count_S. ring.
Qed.

Section ThompsonRuns.
Context {G : Type} `{!Numpy G}.

(** One round, when it raises nothing. *)
Lemma ts_round_Ok s (env : SearchBandit.t) (g : G) s' done env' g' :
  ts_round s (env, g) = (Ok (s', done), (env', g')) →
  ∃ action reward alpha beta,
    (0 <= action < Z.of_nat (length (ts_alpha s)))%Z ∧ binary reward ∧
    ts_update (ts_alpha s) (ts_beta s) action reward = Ok (alpha, beta) ∧
    s' = {| ts_alpha := alpha; ts_beta := beta;
            ts_rewards_history := ts_rewards_history s ++ [reward];
            ts_actions_history := ts_actions_history s ++ [action] |} ∧
    env' = SearchBandit.set_current_step (SearchBandit.current_step env + 1) env ∧
    done = bool_decide (SearchBandit.horizon env
                        <= SearchBandit.current_step env + 1)%Z.
Proof.
  unfold ts_round, bind. rewrite get_context_unfold.
  destruct (decide (0 <= SearchBandit.context_dim env)%Z); [|discriminate].
  unfold on_rng.
  destruct (ts_select_action (ts_alpha s) (ts_beta s) _) as [[action|e] g1]
    eqn:Hsel; [|discriminate].
  apply ts_select_action_Ok in Hsel.
  rewrite contextual_step_unfold.
  destruct (getitem (SearchBandit.weights env) action) as [w|e]; [|discriminate].
  destruct (np_dot w _) as [z|e]; [|discriminate].
  unfold lift, ret.
  destruct (ts_update _ _ action _) as [[alpha beta]|e] eqn:Hupd; [|discriminate].
  intros [= <- <- <- <-].
  eexists action, _, alpha, beta.
  split; [exact Hsel|]. split; [apply bernoulli_reward_binary|].
  split; [exact Hupd|]. done.
Qed.

(** A round on a ready environment raises nothing. *)
Lemma ts_round_total s (env : SearchBandit.t) (g : G) :
  env_ready env →
  ts_consistent (length (SearchBandit.weights env)) s →
  ∃ s' done env' g', ts_round s (env, g) = (Ok (s', done), (env', g')).
Proof.
  intros [Hk Hrows Hdim Hshape] Hcons.
  pose proof (ts_len_alpha _ _ Hcons) as Ha.
  pose proof (ts_len_beta _ _ Hcons) as Hb.
  unfold ts_round, bind. rewrite get_context_unfold, decide_True by exact Hdim.
  unfold on_rng.
  destruct (ts_select_action_total (ts_alpha s) (ts_beta s)
              (np_random_randn (Z.to_nat (SearchBandit.context_dim env)) g).2)
    as [action Hsel].
  { congruence. }
  { intros Hnil. rewrite Hnil in Ha. destruct (SearchBandit.weights env); done. }
  rewrite Hsel. pose proof (ts_select_action_Ok _ _ _ _ _ Hsel) as Hact.
  rewrite Ha in Hact. rewrite contextual_step_unfold.
  destruct (getitem_index (SearchBandit.weights env) action (Z.to_nat action))
    as (w & Hw & ->); [apply py_index_inrange; exact Hact|].
  unfold np_dot. rewrite decide_True.
  2:{ rewrite np_random_randn_shape.
      rewrite Forall_lookup in Hshape. eapply Hshape. exact Hw. }
  unfold lift, ret. rewrite ts_update_unfold by congruence.
  rewrite Ha, py_index_inrange by exact Hact.
  destruct (lookup_lt_is_Some_2 (ts_alpha s) (Z.to_nat action) ltac:(lia))
    as [a ->].
  destruct (lookup_lt_is_Some_2 (ts_beta s) (Z.to_nat action) ltac:(lia))
    as [b ->].
  destruct (decide (_ = 1%Z)); eauto 10.
Qed.

Lemma ts_round_consistent k s (env : SearchBandit.t) (g : G) s' done env' g' :
  ts_round s (env, g) = (Ok (s', done), (env', g')) →
  ts_consistent k s → ts_consistent k s'.
Proof.
  intros Hround Hcons.
  destruct (ts_round_Ok _ _ _ _ _ _ _ Hround)
    as (action & reward & alpha & beta & Hact & Hbin & Hupd & -> & _ & _).
  rewrite (ts_len_alpha _ _ Hcons) in Hact.
  eapply ts_update_consistent; eauto.
Qed.

Lemma set_current_step_ready c env :
  env_ready env → env_ready (SearchBandit.set_current_step c env).
Proof. intros [Hk Hrows Hdim Hshape]. split; assumption. Qed.

Lemma ts_loop_S fuel s (st : SearchBandit.t * G) :
  ts_loop (S fuel) s st =
  match ts_round s st with
  | (Ok (s', true), st') => (Ok (Some s'), st')
  | (Ok (s', false), st') => ts_loop fuel s' st'
  | (Raise e, st') => (Raise e, st')
  end.
Proof.
  simpl. unfold bind. destruct (ts_round s st) as [[[s' [|]]|e] st']; reflexivity.
Qed.

(** With at least [remaining env] passes allowed, the loop on a ready
    environment reaches its [break] after exactly that many rounds. *)
Lemma ts_loop_total k fuel s (env : SearchBandit.t) (g : G) :
  env_ready env → k = length (SearchBandit.weights env) →
  ts_consistent k s → (remaining env <= fuel)%nat →
  ∃ s' st',
    ts_loop fuel s (env, g) = (Ok (Some s'), st') ∧
    ts_consistent k s' ∧
    length (ts_actions_history s')
    = (length (ts_actions_history s) + remaining env)%nat.
Proof.
  intros Hready Hk. revert s env g Hready Hk.
  induction fuel as [|fuel IH]; intros s env g Hready Hk Hcons Hfuel.
  - unfold remaining in Hfuel. lia.
  - rewrite ts_loop_S.
    destruct (ts_round_total s env g Hready) as (s1 & done & env1 & g1 & Hround);
      [rewrite <- Hk; exact Hcons|].
    rewrite Hround.
    pose proof (ts_round_consistent _ _ _ _ _ _ _ _ Hround Hcons) as Hcons1.
    destruct (ts_round_Ok _ _ _ _ _ _ _ Hround)
      as (action & reward & alpha & beta & _ & _ & _ & Hs1 & Henv1 & Hdone).
    assert (Hlen1 : length (ts_actions_history s1)
                    = S (length (ts_actions_history s)))
      by (rewrite Hs1; simpl; rewrite length_app; simpl; lia).
    destruct done.
    + symmetry in Hdone. apply bool_decide_eq_true in Hdone.
      exists s1, (env1, g1). split; [reflexivity|]. split; [exact Hcons1|].
      rewrite Hlen1. unfold remaining. lia.
    + symmetry in Hdone. apply bool_decide_eq_false in Hdone.
      assert (Hrem : remaining env = S (remaining env1)).
      { rewrite Henv1. unfold remaining. simpl. lia. }
      destruct (IH s1 env1 g1) as (s' & st' & Hloop & Hcons' & Hlen').
      * rewrite Henv1. apply set_current_step_ready. exact Hready.
      * rewrite Henv1. exact Hk.
      * exact Hcons1.
      * lia.
      * exists s', st'. split; [exact Hloop|]. split; [exact Hcons'|].
        rewrite Hlen', Hlen1, Hrem. lia.
Qed.

(** Whatever the environment, locals that the loop returns are consistent
    if those it started from were. *)
Lemma ts_loop_consistent k fuel s (st : SearchBandit.t * G) s' st' :
  ts_loop fuel s st = (Ok (Some s'), st') →
  ts_consistent k s →
  ts_consistent k s' ∧
  (length (ts_actions_history s) < length (ts_actions_history s'))%nat.
Proof.
  revert s st. induction fuel as [|fuel IH]; intros s st Hloop Hcons.
  - discriminate.
  - rewrite ts_loop_S in Hloop.
    destruct (ts_round s st) as [[[s1 done]|e] [env1 g1]] eqn:Hround;
      [|discriminate].
    destruct st as [env g].
    pose proof (ts_round_consistent _ _ _ _ _ _ _ _ Hround Hcons) as Hcons1.
    destruct (ts_round_Ok _ _ _ _ _ _ _ Hround)
      as (action & reward & alpha & beta & _ & _ & _ & Hs1 & _ & _).
    assert (Hlen1 : length (ts_actions_history s1)
                    = S (length (ts_actions_history s)))
      by (rewrite Hs1; simpl; rewrite length_app; simpl; lia).
    destruct done.
    + injection Hloop as <- _. split; [exact Hcons1 | lia].
    + destruct (IH _ _ Hloop Hcons1) as [Hcons' Hlt]. split; [exact Hcons' | lia].
Qed.

Lemma run_thompson_search_unfold fuel (env : SearchBandit.t) (g : G) :
  run_thompson_search fuel (env, g)
  = ts_loop fuel (ts_initial (SearchBandit.k env)) (env, g).
Proof. reflexivity. Qed.

Lemma run_thompson_search_Ok fuel (env : SearchBandit.t) (g : G) s st' :
  run_thompson_search fuel (env, g) = (Ok (Some s), st') →
  ts_consistent (Z.to_nat (SearchBandit.k env)) s ∧
  (1 <= length (ts_actions_history s))%nat.
Proof.
  rewrite run_thompson_search_unfold. intros Hloop.
  destruct (ts_loop_consistent _ _ _ _ _ _ Hloop
              (ts_initial_consistent (SearchBandit.k env))) as [Hcons Hlt].
  split; [exact Hcons | lia].
Qed.

(** [run_thompson_search] on a ready environment returns, after
    [remaining env] rounds, with consistent locals. *)
Lemma run_thompson_search_total fuel (env : SearchBandit.t) (g : G) :
  env_ready env → (remaining env <= fuel)%nat →
  ∃ s st',
    run_thompson_search fuel (env, g) = (Ok (Some s), st') ∧
    ts_consistent (length (SearchBandit.weights env)) s ∧
    length (ts_actions_history s) = remaining env.
Proof.
  intros Hready Hfuel. rewrite run_thompson_search_unfold.
  pose proof (ts_initial_consistent (SearchBandit.k env)) as H0.
  rewrite (ready_k _ Hready), Nat2Z.id in H0.
  rewrite (ready_k _ Hready).
  destruct (ts_loop_total _ fuel _ env g Hready eq_refl H0 Hfuel)
    as (s & st' & Hloop & Hcons & Hlen).
  exists s, st'. split; [exact Hloop|]. split; [exact Hcons|].
  rewrite Hlen. reflexivity.
Qed.

End ThompsonRuns.

(** ** Selections per arm add up to the number of rounds *)

Lemma times_selected_cons i a actions :
  times_selected i (a :: actions) =
  ((if decide (a = Z.of_nat i) then 1 else 0) + times_selected i actions)%nat.
Proof.
  unfold times_selected. rewrite filter_cons.
  destruct (decide (a = Z.of_nat i)); reflexivity.
Qed.

Lemma sum_list_with_plus {A} (f h : A → nat) (l : list A) :
  sum_list_with (fun x => f x + h x)%nat l
  = (sum_list_with f l + sum_list_with h l)%nat.
Proof. induction l as [|x l IH]; simpl; lia. Qed.

Lemma sum_list_with_pointwise {A} (f h : A → nat) (l : list A) :
  (∀ x, f x = h x) → sum_list_with f l = sum_list_with h l.
Proof. intros Hfh. induction l as [|x l IH]; simpl; [|rewrite Hfh, IH]; done. Qed.

Lemma indicator_sum (a : Z) (start len : nat) :
  sum_list_with (fun i => if decide (a = Z.of_nat i) then 1 else 0)%nat
                (seq start len)
  = if decide (Z.of_nat start <= a < Z.of_nat (start + len))%Z
    then 1%nat else 0%nat.
Proof.
  revert start. induction len as [|len IH]; intros start; simpl.
  - rewrite decide_False by lia. reflexivity.
  - rewrite IH.
    destruct (decide (a = Z.of_nat start));
      repeat (case_decide; try lia).
Qed.

Lemma times_selected_sum (k : nat) (actions : list Z) :
  Forall (fun a => (0 <= a < Z.of_nat k)%Z) actions →
  sum_list_with (fun i => times_selected i actions) (seq 0 k) = length actions.
Proof.
  induction 1 as [|a actions Ha _ IH]; simpl.
  - induction (seq 0 k) as [|i l IHl]; simpl; [reflexivity | exact IHl].
  - rewrite (sum_list_with_pointwise _ _ _
               (fun i => times_selected_cons i a actions)).
    rewrite sum_list_with_plus, indicator_sum, IH.
    rewrite decide_True by (simpl; lia). reflexivity.
Qed.

Lemma times_selected_absent i actions :
  Z.of_nat i ∉ actions → times_selected i actions = 0%nat.
Proof.
  induction actions as [|a actions IH]; [reflexivity|].
  intros Hnotin. apply not_elem_of_cons in Hnotin as [Hne Hrest].
  rewrite times_selected_cons, decide_False by congruence.
  rewrite IH by exact Hrest. reflexivity.
Qed.

Lemma rewards_received_length k i actions (rs : list Qc) :
  length actions = length rs →
  Forall (fun a => (0 <= a < Z.of_nat k)%Z) actions →
  length (rewards_received k i (zip actions rs)) = times_selected i actions.
Proof.
  intros Hlen Hrange. revert rs Hlen.
  induction Hrange as [|a actions Ha _ IH]; intros [|r rs] Hlen;
    simpl in Hlen; try done.
  rewrite times_selected_cons. simpl.
  unfold rewards_received in *. simpl.
  rewrite py_index_inrange by exact Ha.
  destruct (decide (Z.to_nat a = i)) as [Heq|Hne].
  - rewrite decide_True by lia. simpl. rewrite IH by lia. reflexivity.
  - rewrite decide_False by lia. simpl. rewrite IH by lia. reflexivity.
Qed.

(** In a run of [epsilon_greedy], [N[i]] is the number of rounds that chose
    arm [i]. *)
Lemma eg_count_is_times_selected k s i :
  eg_consistent (Z.to_nat k) s → eg_replays k s → (i < Z.to_nat k)%nat →
  eg_N s !! i = Some (count (times_selected i (actions_history s))).
Proof.
  intros Hcons Hrep Hi.
  destruct (eg_updates_averages k (eg_trace s) _ _ Hrep) as (_ & _ & Hav).
  destruct (Hav i Hi) as (q & _ & HN & _).
  rewrite HN. unfold eg_trace.
  rewrite rewards_received_length; [reflexivity| |].
  - rewrite length_fmap. apply (eg_len_hist _ _ Hcons).
  - apply (eg_actions_range _ _ Hcons).
Qed.

(** ** Estimates of Bernoulli rewards stay in the unit interval *)

Lemma average_step_in_unit (q n r : Qc) :
  0 ≤ q ≤ 1 → 0 ≤ n → r = 0 ∨ r = 1 →
  0 ≤ q + (r - q) / (n + 1) ≤ 1.
Proof.
  intros [Hq0 Hq1] Hn Hr.
  assert (Hd : 0 < n + 1) by (apply Qcplus_nonneg_pos; done).
  assert (Hdz : n + 1 ≠ 0)
    by (intros Hz; rewrite Hz in Hd; exact (Qclt_not_eq _ _ Hd eq_refl)).
  assert (Hr01 : 0 ≤ r ≤ 1) by (destruct Hr as [->| ->]; done).
  assert (Hmul : (q + (r - q) / (n + 1)) * (n + 1) = q * n + r)
    by (field; exact Hdz).
  split.
  - apply (Qcmult_le_mono_pos_r _ _ (n + 1) Hd).
    rewrite Hmul, Qcmult_0_l.
    apply Qcplus_nonneg_nonneg; [apply Qcmult_nonneg_nonneg; done | apply Hr01].
  - apply (Qcmult_le_mono_pos_r _ _ (n + 1) Hd).
    rewrite Hmul, Qcmult_1_l.
    apply Qcplus_le_compat; [|apply Hr01].
    rewrite <- (Qcmult_1_l n) at 2.
    apply Qcmult_le_mono_nonneg_r; done.
Qed.

Lemma unit_estimates_init k : unit_estimates (np_zeros k) (np_zeros k).
Proof.
  intros i q n Hq Hn.
  apply lookup_replicate in Hq as [-> _]. apply lookup_replicate in Hn as [-> _].
  done.
Qed.

Lemma eg_update_unit_estimates Qv Nv action (reward : Z) Qv' Nv' :
  length Qv = length Nv → unit_estimates Qv Nv → binary reward →
  eg_update Qv Nv action (Qc_of_Z reward) = Ok (Qv', Nv') →
  unit_estimates Qv' Nv'.
Proof.
  intros Hlen Hunit Hbin Hupd.
  rewrite eg_update_unfold in Hupd by exact Hlen.
  destruct (py_index _ action) as [j|e] eqn:Hj; [|discriminate].
  destruct (py_index_Ok _ _ _ Hj) as [Hlt _].
  destruct (Qv !! j) as [q|] eqn:Hq; [|discriminate].
  destruct (Nv !! j) as [n|] eqn:Hn; [|discriminate].
  injection Hupd as <- <-.
  destruct (Hunit j q n Hq Hn) as (Hq01 & Hn0 & _).
  intros i q' n' Hq' Hn'.
  destruct (decide (j = i)) as [->|Hne].
  - rewrite list_lookup_insert_eq in Hq' by lia.
    rewrite list_lookup_insert_eq in Hn' by lia.
    injection Hq' as <-. injection Hn' as <-.
    assert (Hd : 0 < n + 1) by (apply Qcplus_nonneg_pos; done).
    split.
    + apply average_step_in_unit; [done..|].
      destruct Hbin as [->| ->]; [left; apply Z2Qc_inj_0 | right; apply Z2Qc_inj_1].
    + split; [apply Qclt_le_weak; exact Hd|].
      intros Hz. rewrite Hz in Hd. destruct (Qclt_not_eq _ _ Hd eq_refl).
  - rewrite list_lookup_insert_ne in Hq' by exact Hne.
    rewrite list_lookup_insert_ne in Hn' by exact Hne.
    eapply Hunit; eauto.
Qed.

Section UnitInterval.
Context {G : Type} `{!Numpy G}.

Lemma eg_round_unit_estimates (p0 : list Qc) epsilon s s' (g g' : G) :
  eg_consistent (length p0) s →
  unit_estimates (eg_Q s) (eg_N s) →
  eg_round (BernoulliBandit.init p0) (Z.of_nat (length p0)) epsilon s g
  = (Ok s', g') →
  unit_estimates (eg_Q s') (eg_N s').
Proof.
  intros Hcons Hunit Hround.
  destruct (eg_round_Ok _ _ _ _ _ _ Hround (eg_len_Q _ _ Hcons))
    as (action & reward & _ & Hbin & Hupd & _ & _).
  eapply eg_update_unit_estimates; [| exact Hunit | exact Hbin | exact Hupd].
  rewrite (eg_len_Q _ _ Hcons), (eg_len_N _ _ Hcons). reflexivity.
Qed.

Lemma eg_loop_facts (p0 : list Qc) epsilon rounds (g : G) s g' :
  eg_loop (BernoulliBandit.init p0) (Z.of_nat (length p0)) epsilon rounds
    (eg_initial (Z.of_nat (length p0))) g = (Ok s, g') →
  eg_consistent (length p0) s ∧ eg_replays (Z.of_nat (length p0)) s ∧
  unit_estimates (eg_Q s) (eg_N s).
Proof.
  intros Hloop.
  pose proof (eg_initial_consistent (Z.of_nat (length p0))) as H0.
  rewrite Nat2Z.id in H0.
  eapply (eg_loop_invariant
            (fun s => eg_consistent (length p0) s ∧
                      eg_replays (Z.of_nat (length p0)) s ∧
                      unit_estimates (eg_Q s) (eg_N s)));
    [| |exact Hloop].
  - intros s0 g0 s1 g1 (Hc & Hr & Hu) Hround.
    split; [eapply eg_round_consistent; eauto|].
    split; [eapply eg_round_replays; eauto|].
    eapply eg_round_unit_estimates; eauto.
  - split; [exact H0|]. split; [reflexivity | apply unit_estimates_init].
Qed.

End UnitInterval.

(** C10.  In a run of [epsilon_greedy] on a Bernoulli bandit, after any
    number of rounds every estimate [Q[i]] lies in [[0, 1]] and is 0 for an
    arm that no round has chosen; and one more round keeps every estimate in
    [[0, 1]] and at 0 wherever the count [N[i]] is still 0. *)
Theorem estimates_stay_in_unit_interval {G : Type} `{!Numpy G}
  (p0 : list Qc) (epsilon : Qc) :
  let k := Z.of_nat (length p0) in
  let bandit := BernoulliBandit.init p0 in
  (∀ rounds (g : G) s g',
     eg_loop bandit k epsilon rounds (eg_initial k) g = (Ok s, g') →
     ∀ i q, eg_Q s !! i = Some q →
            0 ≤ q ≤ 1 ∧ (Z.of_nat i ∉ actions_history s → q = 0)) ∧
  (∀ s (g : G) s' g',
     eg_consistent (length p0) s →
     unit_estimates (eg_Q s) (eg_N s) →
     eg_round bandit k epsilon s g = (Ok s', g') →
     unit_estimates (eg_Q s') (eg_N s')).
Proof.
  intros k bandit. subst k bandit. split.
  - intros rounds g s g' Hloop i q Hq.
    destruct (eg_loop_facts _ _ _ _ _ _ Hloop) as (Hcons & Hrep & Hunit).
    assert (Hi : (i < length p0)%nat).
    { rewrite <- (eg_len_Q _ _ Hcons). eapply lookup_lt_Some; eauto. }
    assert (HN : eg_N s !! i
                 = Some (count (times_selected i (actions_history s)))).
    { apply (eg_count_is_times_selected (Z.of_nat (length p0)));
        rewrite ?Nat2Z.id; done. }
    destruct (Hunit i q _ Hq HN) as (Hq01 & _ & Hzero).
    split; [exact Hq01|]. intros Habsent. apply Hzero.
    rewrite times_selected_absent by exact Habsent. apply count_0.
  - intros s g s' g'. apply eg_round_unit_estimates.
Qed.

(** C4.  [epsilon_greedy]: when the loop is left, [num_steps] rounds have
    run (none if [num_steps] is negative), [N[i]] is the number of rounds
    that chose arm [i], and [sum(N)] is the number of rounds; with at least
    one arm the loop raises nothing.  [run_thompson_search], which keeps no
    array [N]: whenever it returns, one reward was recorded per round, the
    numbers of rounds that chose each arm add up to the number of rounds,
    and so do the increments [alpha[i] + beta[i] - 2]; on a ready
    environment it returns, after [remaining env] rounds. *)
Theorem selections_sum_to_rounds {G : Type} `{!Numpy G} :
  (∀ (p0 : list Qc) num_steps epsilon (g : G) s g',
     epsilon_greedy_locals (BernoulliBandit.init p0) num_steps epsilon g
     = (Ok s, g') →
     length (rewards_history s) = Z.to_nat num_steps ∧
     np_sum (eg_N s) = count (Z.to_nat num_steps) ∧
     (∀ i, (i < length p0)%nat →
           eg_N s !! i = Some (count (times_selected i (actions_history s)))) ∧
     sum_list_with (fun i => times_selected i (actions_history s))
                   (seq 0 (length p0))
     = Z.to_nat num_steps) ∧
  (∀ (p0 : list Qc) num_steps epsilon (g : G),
     p0 ≠ [] →
     ∃ s g', epsilon_greedy_locals (BernoulliBandit.init p0) num_steps epsilon g
             = (Ok s, g')) ∧
  (∀ fuel (env : SearchBandit.t) (g : G) s st',
     run_thompson_search fuel (env, g) = (Ok (Some s), st') →
     let rounds := length (ts_rewards_history s) in
     length (ts_actions_history s) = rounds ∧
     sum_list_with (fun i => times_selected i (ts_actions_history s))
                   (seq 0 (Z.to_nat (SearchBandit.k env)))
     = rounds ∧
     np_sum (ts_alpha s) + np_sum (ts_beta s)
     - 2 * count (Z.to_nat (SearchBandit.k env))
     = count rounds) ∧
  (∀ fuel (env : SearchBandit.t) (g : G),
     env_ready env → (remaining env <= fuel)%nat →
     ∃ s st',
       run_thompson_search fuel (env, g) = (Ok (Some s), st') ∧
       length (ts_rewards_history s) = remaining env).
Proof.
  split; [|split; [|split]].
  - intros p0 num_steps epsilon g s g' Hrun.
    destruct (epsilon_greedy_locals_Ok _ _ _ _ _ _ Hrun) as (Hcons & Hrep & Hlen).
    split; [exact Hlen|].
    assert (Htrace : length (eg_trace s) = Z.to_nat num_steps).
    { unfold eg_trace. rewrite length_zip_with, length_fmap.
      rewrite (eg_len_hist _ _ Hcons), Hlen. lia. }
    split.
    { destruct (eg_updates_count_sum _ _ _ _ Hrep) as [_ Hsum].
      rewrite Hsum, Htrace. reflexivity. }
    split.
    { intros i Hi.
      apply (eg_count_is_times_selected (Z.of_nat (length p0)));
        rewrite ?Nat2Z.id; done. }
    rewrite times_selected_sum by apply (eg_actions_range _ _ Hcons).
    rewrite (eg_len_hist _ _ Hcons). exact Hlen.
  - intros p0 num_steps epsilon g Hne.
    apply epsilon_greedy_locals_total. exact Hne.
  - intros fuel env g s st' Hrun rounds. subst rounds.
    destruct (run_thompson_search_Ok _ _ _ _ _ Hrun) as [Hcons _].
    split; [apply (ts_len_hist _ _ Hcons)|].
    split.
    + rewrite times_selected_sum by apply (ts_actions_range _ _ Hcons).
      apply (ts_len_hist _ _ Hcons).
    + rewrite (ts_total _ _ Hcons), (ts_len_hist _ _ Hcons). ring.
  - intros fuel env g Hready Hfuel.
    destruct (run_thompson_search_total fuel env g Hready Hfuel)
      as (s & st' & Hrun & Hcons & Hlen).
    exists s, st'. split; [exact Hrun|].
    rewrite <- (ts_len_hist _ _ Hcons). exact Hlen.
Qed.

(** C5.  An update adds 1 to [alpha[action]] when the reward is 1 and to
    [beta[action]] otherwise, and touches nothing else.  Whenever
    [run_thompson_search] returns, for every arm [i < k]:
    [alpha[i] + beta[i]] is 2 plus the number of rounds that chose [i].  On a
    ready environment it does return, given [fuel] for [remaining env]
    passes. *)
Theorem thompson_pseudo_counts {G : Type} `{!Numpy G}
  (fuel : nat) (env : SearchBandit.t) (g : G) :
  (∀ (alpha beta : list Qc) action reward j a b,
     length alpha = length beta →
     py_index (length alpha) action = Ok j →
     alpha !! j = Some a → beta !! j = Some b →
     ts_update alpha beta action reward
     = Ok (if decide (reward = 1%Z) then (<[j := a + 1]> alpha, beta)
           else (alpha, <[j := b + 1]> beta))) ∧
  (∀ s st',
     run_thompson_search fuel (env, g) = (Ok (Some s), st') →
     ∀ i, (i < Z.to_nat (SearchBandit.k env))%nat →
       ∃ a b, ts_alpha s !! i = Some a ∧ ts_beta s !! i = Some b ∧
              a + b = 2 + count (times_selected i (ts_actions_history s))) ∧
  (env_ready env → (remaining env <= fuel)%nat →
   ∃ s st', run_thompson_search fuel (env, g) = (Ok (Some s), st') ∧
            length (ts_actions_history s) = remaining env).
Proof.
  split; [|split].
  - intros alpha beta action reward j a b Hlen Hj Ha Hb.
    rewrite ts_update_unfold by exact Hlen. rewrite Hj, Ha, Hb.
    destruct (decide (reward = 1%Z)); reflexivity.
  - intros s st' Hrun.
    destruct (run_thompson_search_Ok _ _ _ _ _ Hrun) as [Hcons _].
    apply (ts_pseudo_counts _ _ Hcons).
  - intros Hready Hfuel.
    destruct (run_thompson_search_total fuel env g Hready Hfuel)
      as (s & st' & Hrun & Hcons & Hlen).
    eauto.
Qed.

Lemma demo_search_env_ready : env_ready demo_search_env.
Proof.
  split; simpl; [reflexivity | discriminate | lia |].
  repeat constructor.
Defined.

Lemma thompson_pseudo_counts_witness :
  ∃ s st',
    run_thompson_search 5 (demo_search_env, 0%nat) = (Ok (Some s), st') ∧
    length (ts_actions_history s) = remaining demo_search_env ∧
    ∀ i, (i < Z.to_nat (SearchBandit.k demo_search_env))%nat →
      ∃ a b, ts_alpha s !! i = Some a ∧ ts_beta s !! i = Some b ∧
             a + b = 2 + count (times_selected i (ts_actions_history s)).
Proof.
  destruct (thompson_pseudo_counts 5 demo_search_env 0%nat)
    as (_ & Hcounts & Hreturns).
  destruct Hreturns as (s & st' & Hrun & Hlen);
    [exact demo_search_env_ready | vm_compute; lia |].
  exists s, st'. split; [exact Hrun|]. split; [exact Hlen|].
  exact (Hcounts s st' Hrun).
Defined.

(** ** The step counter and the horizon *)

Section HorizonCounter.
Context {S X R : Type} (stp : X → M S R).
Context (counter horizon : S → Z) (done_of : R → bool).
Hypothesis stp_counts : ∀ x st r st',
  stp x st = (Ok r, st') →
  counter st' = (counter st + 1)%Z ∧ horizon st' = horizon st ∧
  done_of r = bool_decide (horizon st <= counter st + 1)%Z.

Lemma call_each_counts : counts_to_horizon stp counter horizon done_of.
Proof.
  intros xs. induction xs as [|x xs IH]; intros st rs st' Hrun; simpl in Hrun.
  - injection Hrun as <- <-. simpl. repeat split; try lia. intros i r Hr. done.
  - unfold bind in Hrun.
    destruct (stp x st) as [[r1|e] st1] eqn:Hstep; [|discriminate].
    destruct (call_each stp xs st1) as [[rs1|e] st2] eqn:Hrest; [|discriminate].
    injection Hrun as <- <-.
    destruct (stp_counts _ _ _ _ Hstep) as (Hc1 & Hh1 & Hd1).
    destruct (IH _ _ _ Hrest) as (Hc & Hh & Hl & Hd).
    simpl. repeat split; try lia; try congruence.
    intros [|i] r Hr; simpl in Hr.
    + injection Hr as <-. rewrite Hd1. apply bool_decide_ext. lia.
    + rewrite (Hd i r Hr), Hh1, Hc1.
      apply bool_decide_ext. lia.
Qed.

End HorizonCounter.

Section SimulatorCounters.
Context {G : Type} `{!Numpy G}.

Lemma env_step_counts action (st : BernoulliBanditEnv.t * G) r st' :
  BernoulliBanditEnv.step action st = (Ok r, st') →
  st'.1 = BernoulliBanditEnv.set_current_step
            (BernoulliBanditEnv.current_step st.1 + 1) st.1 ∧
  BernoulliBanditEnv.done r
  = bool_decide (BernoulliBanditEnv.num_steps st.1
                 <= BernoulliBanditEnv.current_step st.1 + 1)%Z ∧
  BernoulliBanditEnv.to_py r
  = PyTuple [PyArray [0]; PyFloat (BernoulliBanditEnv.reward r);
             PyBool (BernoulliBanditEnv.done r); PyBool false; PyDict []].
Proof.
  destruct st as [env g]. rewrite env_step_unfold.
  destruct (getitem (BernoulliBanditEnv.p env) action); [|discriminate].
  intros [= <- <-]. done.
Qed.

Lemma contextual_step_counts (x : Z * list Qc) (st : ContextualBandit.t * G)
  r st' :
  ContextualBandit.step x.1 x.2 st = (Ok r, st') →
  st'.1 = ContextualBandit.set_current_step
            (ContextualBandit.current_step st.1 + 1) st.1 ∧
  r.2 = bool_decide (ContextualBandit.horizon st.1
                     <= ContextualBandit.current_step st.1 + 1)%Z ∧
  (∃ reward, binary reward ∧
             ContextualBandit.to_py r = PyTuple [PyInt reward; PyBool r.2]).
Proof.
  destruct st as [env g]. rewrite contextual_step_unfold.
  destruct (getitem (ContextualBandit.weights env) x.1) as [w|e]; [|discriminate].
  destruct (np_dot w x.2) as [z|e]; [|discriminate].
  intros [= <- <-]. simpl. repeat split.
  eexists. split; [apply bernoulli_reward_binary | reflexivity].
Qed.

End SimulatorCounters.

Section ReturnedCalls.
Context {St X R : Type} (stp : X → M St R).
Context (counter horizon : St → Z) (done_of : R → bool) (Inv : St → Prop).
Hypothesis stp_returns : ∀ x st r st',
  Inv st → stp x st = (Ok r, st') →
  counter st' = (counter st + 1)%Z ∧ horizon st' = horizon st ∧ Inv st' ∧
  done_of r = bool_decide (horizon st <= counter st + 1)%Z.
Hypothesis stp_raises : ∀ x st e st',
  Inv st → stp x st = (Raise e, st') →
  counter st' = counter st ∧ horizon st' = horizon st ∧ Inv st'.

Lemma attempt_each_counts :
  counts_returned_calls stp counter horizon done_of Inv.
Proof.
  intros xs. induction xs as [|x xs IH]; intros st Hinv; simpl.
  - split; [lia|]. split; [done|]. split; [done|]. split; [done|].
    intros i r Hr. done.
  - destruct (stp x st) as [[r1|e] st1] eqn:Hstep.
    + destruct (stp_returns _ _ _ _ Hinv Hstep) as (Hc1 & Hh1 & Hinv1 & Hd1).
      destruct (IH st1 Hinv1) as (Hc & Hh & Hi & Hl & Hd).
      destruct (attempt_each stp xs st1) as [rs st2]. simpl in *.
      split; [lia|]. split; [congruence|]. split; [exact Hi|].
      split; [lia|].
      intros [|i] r Hr; simpl in Hr.
      * injection Hr as <-. rewrite take_0. simpl. rewrite Hd1.
        apply bool_decide_ext. lia.
      * rewrite (Hd i r Hr), Hh1, Hc1. apply bool_decide_ext. simpl. lia.
    + destruct (stp_raises _ _ _ _ Hinv Hstep) as (Hc1 & Hh1 & Hinv1).
      destruct (IH st1 Hinv1) as (Hc & Hh & Hi & Hl & Hd).
      destruct (attempt_each stp xs st1) as [rs st2]. simpl in *.
      split; [lia|]. split; [congruence|]. split; [exact Hi|].
      split; [lia|].
      intros [|i] r Hr; simpl in Hr; [discriminate|].
      rewrite (Hd i r Hr), Hh1, Hc1. apply bool_decide_ext. simpl. lia.
Qed.

End ReturnedCalls.

Section SimulatorCalls.
Context {G : Type} `{!Numpy G}.

Lemma env_step_raises action (st : BernoulliBanditEnv.t * G) e st' :
  BernoulliBanditEnv.step action st = (Raise e, st') → st'.1 = st.1.
Proof.
  destruct st as [env g]. rewrite env_step_unfold.
  destruct (getitem (BernoulliBanditEnv.p env) action); [discriminate|].
  intros [= _ <-]. reflexivity.
Qed.

Lemma contextual_step_raises action context (st : ContextualBandit.t * G)
  e st' :
  ContextualBandit.step action context st = (Raise e, st') → st' = st.
Proof.
  destruct st as [env g]. rewrite contextual_step_unfold.
  destruct (getitem (ContextualBandit.weights env) action) as [w|e0];
    [|intros [= _ <-]; reflexivity].
  destruct (np_dot w context) as [z|e0]; [discriminate|].
  intros [= _ <-]. reflexivity.
Qed.

(** A [step] of [RecommenderSystemGymEnv] that returns: the five components
    returned, and the object it leaves. *)
Lemma gym_recommender_step_returns action
  (st : RecommenderSystemGymEnv.t * G) r st' :
  RecommenderSystemGymEnv.step action st = (Ok r, st') →
  st'.1 = RecommenderSystemGymEnv.set_context (RecommenderSystemGymEnv.obs r)
            (RecommenderSystemGymEnv.set_current_step
               (RecommenderSystemGymEnv.current_step st.1 + 1) st.1) ∧
  (0 <= RecommenderSystemGymEnv.context_dim st.1)%Z ∧
  length (RecommenderSystemGymEnv.obs r)
  = Z.to_nat (RecommenderSystemGymEnv.context_dim st.1) ∧
  (RecommenderSystemGymEnv.reward r = 0 ∨
   RecommenderSystemGymEnv.reward r = 1) ∧
  RecommenderSystemGymEnv.done r
  = bool_decide (RecommenderSystemGymEnv.num_users st.1
                 <= RecommenderSystemGymEnv.current_step st.1 + 1)%Z ∧
  RecommenderSystemGymEnv.truncated r = false ∧
  RecommenderSystemGymEnv.info r = [].
Proof.
  destruct st as [env g].
  unfold RecommenderSystemGymEnv.step, bind, get_self, lift, on_rng, set_self,
    ret, raise, rand, randn.
  destruct (getitem (RecommenderSystemGymEnv.item_weights env) action)
    as [w|e]; [|discriminate].
  destruct (RecommenderSystemGymEnv.context env) as [x|]; [|discriminate].
  destruct (np_dot w x) as [z|e]; [|discriminate].
  destruct (np_random_rand g) as [u g1]. simpl.
  destruct (decide (0 <= RecommenderSystemGymEnv.context_dim env)%Z) as [Hd|];
    [|discriminate].
  pose proof (np_random_randn_shape
                (Z.to_nat (RecommenderSystemGymEnv.context_dim env)) g1) as Hsh.
  destruct (np_random_randn _ g1) as [x' g2]. simpl in *.
  intros [= <- <-]. simpl. split; [reflexivity|]. split; [exact Hd|].
  split; [exact Hsh|]. split; [|done].
  destruct (decide (u < sigmoid z)); [right | left]; reflexivity.
Qed.

(** A [step] of [RecommenderSystemGymEnv] that raises leaves the object as
    it was. *)
Lemma gym_recommender_step_raises action
  (st : RecommenderSystemGymEnv.t * G) e st' :
  gym_context_drawn st.1 →
  RecommenderSystemGymEnv.step action st = (Raise e, st') → st' = st.
Proof.
  destruct st as [env g]. intros Hinv.
  unfold RecommenderSystemGymEnv.step, bind, get_self, lift, on_rng, set_self,
    ret, raise, rand, randn.
  destruct (getitem (RecommenderSystemGymEnv.item_weights env) action)
    as [w|e0]; [|intros [= _ <-]; reflexivity].
  destruct (RecommenderSystemGymEnv.context env) as [x|] eqn:Hctx;
    [|intros [= _ <-]; reflexivity].
  destruct (np_dot w x) as [z|e0]; [|intros [= _ <-]; reflexivity].
  destruct (np_random_rand g) as [u g1]. simpl.
  destruct (decide (0 <= RecommenderSystemGymEnv.context_dim env)%Z) as [|Hd].
  - destruct (np_random_randn _ g1) as [x' g2]. discriminate.
  - destruct Hinv as [Hdim|Hnone]; simpl in *; [done | congruence].
Qed.

(** [reset] of [RecommenderSystemGymEnv], whether or not [randn] accepts
    [context_dim]. *)
Lemma gym_recommender_reset_outcome (env : RecommenderSystemGymEnv.t) (g : G) :
  RecommenderSystemGymEnv.current_step
    (RecommenderSystemGymEnv.reset (env, g)).2.1 = 0%Z ∧
  RecommenderSystemGymEnv.num_users
    (RecommenderSystemGymEnv.reset (env, g)).2.1
  = RecommenderSystemGymEnv.num_users env ∧
  (gym_context_drawn env →
   gym_context_drawn (RecommenderSystemGymEnv.reset (env, g)).2.1) ∧
  ∀ r, (RecommenderSystemGymEnv.reset (env, g)).1 = Ok r →
       r.2 = [] ∧
       (RecommenderSystemGymEnv.reset (env, g)).2.1
       = RecommenderSystemGymEnv.set_context r.1
           (RecommenderSystemGymEnv.set_current_step 0 env).
Proof.
  unfold RecommenderSystemGymEnv.reset, bind, set_self, get_self, on_rng,
    randn, raise, ret. simpl.
  destruct (decide (0 <= RecommenderSystemGymEnv.context_dim env)%Z) as [Hd|Hd].
  - destruct (np_random_randn _ g) as [x g1]. simpl.
    split; [reflexivity|]. split; [reflexivity|].
    split; [intros _; left; exact Hd|]. intros r [= <-]. done.
  - simpl. split; [reflexivity|]. split; [reflexivity|].
    split; [intros [Hdim|Hnone]; [done | right; exact Hnone]|]. discriminate.
Qed.

End SimulatorCalls.

(** C7, as stated, fails on [BernoulliBandit]: at [p = [0.1, 0.3, 0.8]] its
    [step] returns the bare reward 1, not a tuple
    [(observation, reward, done, info)], and the object has no counter; and
    what [BernoulliBanditEnv.step] returns has five components, not four. *)
Lemma bernoulli_bandit_reports_no_done :
  (∃ r, (BernoulliBandit.step
           (BernoulliBandit.init [Q2Qc (1 # 10); Q2Qc (3 # 10); Q2Qc (4 # 5)])
           0 0%nat).1 = Ok r ∧
        ∀ observation reward done info,
          BernoulliBandit.to_py r
          ≠ PyTuple [observation; reward; PyBool done; info]) ∧
  (∃ r, (BernoulliBanditEnv.step 0
           (BernoulliBanditEnv.init
              [Q2Qc (1 # 10); Q2Qc (3 # 10); Q2Qc (4 # 5)] 1000, 0%nat)).1
        = Ok r ∧
        ∀ observation reward done info,
          BernoulliBanditEnv.to_py r
          ≠ PyTuple [observation; reward; PyBool done; info]).
Proof.
  split.
  - exists 1%Z. split; [vm_compute; reflexivity | discriminate].
  - rewrite env_step_unfold. simpl. eexists. split; [reflexivity | discriminate].
Qed.

(** C7, amended.  [BernoulliBanditEnv], [RecommenderSystemBandit],
    [SearchBandit] and [RecommenderSystemGymEnv] keep a counter
    [current_step]: 0 after construction and after [reset], one more after
    every [step] that returns, unchanged by a [step] that raises.  A [step]
    that returns reports [done] exactly when the number of [step] calls that
    have returned since construction or the last [reset], this one
    included, is [>=] the horizon.  [BernoulliBanditEnv.step] and
    [RecommenderSystemGymEnv.step] return
    [(observation, reward, done, False, info)], the contextual [step]
    returns [(reward, done)].  A [step] that returns changes the counter
    and, on [RecommenderSystemGymEnv], the stored context, which becomes the
    observation returned; it changes nothing else, and a [step] that raises
    changes no attribute.  [BernoulliBandit.step] returns the reward alone. *)
Theorem done_when_horizon_reached {G : Type} `{!Numpy G} :
  counts_returned_calls (St := BernoulliBanditEnv.t * G)
    BernoulliBanditEnv.step
    (fun st => BernoulliBanditEnv.current_step st.1)
    (fun st => BernoulliBanditEnv.num_steps st.1)
    BernoulliBanditEnv.done (fun _ => True) ∧
  counts_returned_calls (St := ContextualBandit.t * G)
    (fun x => ContextualBandit.step x.1 x.2)
    (fun st => ContextualBandit.current_step st.1)
    (fun st => ContextualBandit.horizon st.1)
    snd (fun _ => True) ∧
  counts_returned_calls (St := RecommenderSystemGymEnv.t * G)
    RecommenderSystemGymEnv.step
    (fun st => RecommenderSystemGymEnv.current_step st.1)
    (fun st => RecommenderSystemGymEnv.num_users st.1)
    RecommenderSystemGymEnv.done (fun st => gym_context_drawn st.1) ∧
  (∀ p0 h env,
     BernoulliBanditEnv.construct p0 h = Ok env →
     BernoulliBanditEnv.current_step env = 0%Z ∧
     BernoulliBanditEnv.num_steps env = h) ∧
  (∀ w d h,
     ContextualBandit.current_step (ContextualBandit.init w d h) = 0%Z ∧
     ContextualBandit.horizon (ContextualBandit.init w d h) = h) ∧
  (∀ w d h env,
     RecommenderSystemGymEnv.construct w d h = Ok env →
     RecommenderSystemGymEnv.current_step env = 0%Z ∧
     RecommenderSystemGymEnv.num_users env = h ∧
     RecommenderSystemGymEnv.context env = None ∧ gym_context_drawn env) ∧
  (∀ env (g : G),
     BernoulliBanditEnv.reset (env, g)
     = (Ok ([0], []), (BernoulliBanditEnv.set_current_step 0 env, g))) ∧
  (∀ env (g : G),
     RecommenderSystemGymEnv.current_step
       (RecommenderSystemGymEnv.reset (env, g)).2.1 = 0%Z ∧
     RecommenderSystemGymEnv.num_users
       (RecommenderSystemGymEnv.reset (env, g)).2.1
     = RecommenderSystemGymEnv.num_users env ∧
     (gym_context_drawn env →
      gym_context_drawn (RecommenderSystemGymEnv.reset (env, g)).2.1) ∧
     ∀ r, (RecommenderSystemGymEnv.reset (env, g)).1 = Ok r →
          r.2 = [] ∧
          (RecommenderSystemGymEnv.reset (env, g)).2.1
          = RecommenderSystemGymEnv.set_context r.1
              (RecommenderSystemGymEnv.set_current_step 0 env)) ∧
  (∀ action (st : BernoulliBanditEnv.t * G) r st',
     BernoulliBanditEnv.step action st = (Ok r, st') →
     st'.1 = BernoulliBanditEnv.set_current_step
               (BernoulliBanditEnv.current_step st.1 + 1) st.1 ∧
     BernoulliBanditEnv.truncated r = false ∧
     BernoulliBanditEnv.to_py r
     = PyTuple [PyArray [0]; PyFloat (BernoulliBanditEnv.reward r);
                PyBool (BernoulliBanditEnv.done r); PyBool false; PyDict []]) ∧
  (∀ action context (st : ContextualBandit.t * G) r st',
     ContextualBandit.step action context st = (Ok r, st') →
     st'.1 = ContextualBandit.set_current_step
               (ContextualBandit.current_step st.1 + 1) st.1 ∧
     ContextualBandit.to_py r = PyTuple [PyInt r.1; PyBool r.2]) ∧
  (∀ action (st : RecommenderSystemGymEnv.t * G) r st',
     RecommenderSystemGymEnv.step action st = (Ok r, st') →
     st'.1 = RecommenderSystemGymEnv.set_context
               (RecommenderSystemGymEnv.obs r)
               (RecommenderSystemGymEnv.set_current_step
                  (RecommenderSystemGymEnv.current_step st.1 + 1) st.1) ∧
     RecommenderSystemGymEnv.truncated r = false ∧
     RecommenderSystemGymEnv.to_py r
     = PyTuple [PyArray (RecommenderSystemGymEnv.obs r);
                PyFloat (RecommenderSystemGymEnv.reward r);
                PyBool (RecommenderSystemGymEnv.done r); PyBool false;
                PyDict []]) ∧
  (∀ action (st : BernoulliBanditEnv.t * G) e st',
     BernoulliBanditEnv.step action st = (Raise e, st') → st'.1 = st.1) ∧
  (∀ action context (st : ContextualBandit.t * G) e st',
     ContextualBandit.step action context st = (Raise e, st') →
     st'.1 = st.1) ∧
  (∀ action (st : RecommenderSystemGymEnv.t * G) e st',
     gym_context_drawn st.1 →
     RecommenderSystemGymEnv.step action st = (Raise e, st') →
     st'.1 = st.1) ∧
  (∀ self action (g : G) r g',
     BernoulliBandit.step self action g = (Ok r, g') →
     BernoulliBandit.to_py r = PyAtom (PyInt r) ∧ binary r).
Proof.
  split.
  { apply attempt_each_counts.
    - intros x st r st' _ Hstep.
      destruct (env_step_counts _ _ _ _ Hstep) as (-> & Hd & _). done.
    - intros x st e st' _ Hstep.
      rewrite (env_step_raises _ _ _ _ Hstep). done. }
  split.
  { apply attempt_each_counts.
    - intros x st r st' _ Hstep.
      destruct (contextual_step_counts _ _ _ _ Hstep) as (-> & Hd & _). done.
    - intros x st e st' _ Hstep.
      rewrite (contextual_step_raises _ _ _ _ _ Hstep). done. }
  split.
  { apply attempt_each_counts.
    - intros x st r st' _ Hstep.
      destruct (gym_recommender_step_returns _ _ _ _ Hstep)
        as (-> & Hdim & _ & _ & Hd & _). simpl.
      split; [reflexivity|]. split; [reflexivity|].
      split; [left; exact Hdim | exact Hd].
    - intros x st e st' Hinv Hstep.
      rewrite (gym_recommender_step_raises _ _ _ _ Hinv Hstep). done. }
  split.
  { intros [|x p0] h env; [discriminate|]. intros [= <-]. done. }
  split; [done|].
  split.
  { intros [|x w] d h env; [discriminate|]. intros [= <-].
    split; [reflexivity|]. split; [reflexivity|]. split; [reflexivity|].
    right. reflexivity. }
  split; [reflexivity|].
  split; [apply gym_recommender_reset_outcome|].
  split.
  { intros action st r st' Hstep.
    destruct (env_step_counts _ _ _ _ Hstep) as (He & _ & Hpy).
    split; [exact He|]. split; [|exact Hpy].
    unfold BernoulliBanditEnv.to_py in Hpy. congruence. }
  split.
  { intros action context st r st' Hstep.
    destruct (contextual_step_counts (action, context) _ _ _ Hstep)
      as (He & _ & _). done. }
  split.
  { intros action st r st' Hstep.
    destruct (gym_recommender_step_returns _ _ _ _ Hstep)
      as (He & _ & _ & _ & _ & Ht & Hi).
    split; [exact He|]. split; [exact Ht|].
    unfold RecommenderSystemGymEnv.to_py. rewrite Ht, Hi. reflexivity. }
  split; [apply env_step_raises|].
  split.
  { intros action context st e st' Hstep.
    rewrite (contextual_step_raises _ _ _ _ _ Hstep). reflexivity. }
  split.
  { intros action st e st' Hinv Hstep.
    rewrite (gym_recommender_step_raises _ _ _ _ Hinv Hstep). reflexivity. }
  intros self action g r g'. rewrite bandit_step_unfold.
  destruct (getitem (BernoulliBandit.p self) action); [|discriminate].
  intros [= <- _]. split; [reflexivity | apply bernoulli_reward_binary].
Qed.

(** Five calls on a [BernoulliBanditEnv] with [num_steps = 3], the second
    with an index out of range: it raises and is not counted, and [done] is
    reported by the third call that returns and by the one after it. *)
Example env_done_flags :
  match attempt_each BernoulliBanditEnv.step [0; 7; 2; 1; 0]%Z
          (BernoulliBanditEnv.init
             [Q2Qc (1 # 10); Q2Qc (3 # 10); Q2Qc (4 # 5)] 3, 0%nat) with
  | ([Ok r1; Raise e; Ok r2; Ok r3; Ok r4], (env, g)) =>
      e = IndexError ∧
      BernoulliBanditEnv.done <$> [r1; r2; r3; r4]
      = [false; false; true; true] ∧
      BernoulliBanditEnv.current_step env = 4%Z ∧ g = 5%nat
  | _ => False
  end.
Proof. vm_compute. done. Qed.

(** ** A single arm *)

Lemma all_zero_actions (n : nat) (actions : list Z) :
  length actions = n → Forall (fun a => (0 <= a < Z.of_nat 1)%Z) actions →
  actions = replicate n 0%Z.
Proof.
  intros Hlen Hrange. symmetry. apply replicate_as_Forall.
  split; [exact Hlen|]. eapply Forall_impl; [exact Hrange|].
  intros a Ha. simpl in Ha. lia.
Qed.

(** C8.  With a single arm every selection is arm 0: in [epsilon_greedy]
    both [np.random.randint(1)] and [np.argmax] of a one-element [Q] give 0,
    so every round of a run chooses 0; in [run_thompson_search] the argmax
    over the one Beta sample is 0, so every round of a run chooses 0. *)
Theorem single_arm_always_selected {G : Type} `{!Numpy G} :
  (∀ (g : G), (randint 1 g).1 = Ok 0%Z) ∧
  (∀ Qv : list Qc, length Qv = 1%nat → np_argmax Qv = Ok 0%Z) ∧
  (∀ epsilon (Qv : list Qc) (g : G),
     length Qv = 1%nat → (eg_select_action 1 epsilon Qv g).1 = Ok 0%Z) ∧
  (∀ (alpha beta : list Qc) (g : G),
     length alpha = 1%nat → length beta = 1%nat →
     (ts_select_action alpha beta g).1 = Ok 0%Z) ∧
  (∀ (pa : Qc) num_steps epsilon (g : G),
     ∃ s g',
       epsilon_greedy_locals (BernoulliBandit.init [pa]) num_steps epsilon g
       = (Ok s, g') ∧
       actions_history s = replicate (Z.to_nat num_steps) 0%Z) ∧
  (∀ fuel (env : SearchBandit.t) (g : G),
     env_ready env → length (SearchBandit.weights env) = 1%nat →
     (remaining env <= fuel)%nat →
     ∃ s st',
       run_thompson_search fuel (env, g) = (Ok (Some s), st') ∧
       ts_actions_history s = replicate (remaining env) 0%Z).
Proof.
  assert (Hrandint : ∀ g : G, (randint 1 g).1 = Ok 0%Z).
  { intros g. destruct (randint_range 1 g ltac:(lia)) as (a & -> & Ha).
    simpl. f_equal. lia. }
  split; [exact Hrandint|].
  split; [exact np_argmax_singleton|].
  split.
  { intros epsilon Qv g Hlen. rewrite eg_select_action_unfold.
    destruct (decide ((np_random_rand g).1 < epsilon)).
    - apply Hrandint.
    - simpl. apply np_argmax_singleton. exact Hlen. }
  split.
  { intros alpha beta g Ha Hb. rewrite ts_select_action_unfold.
    rewrite decide_True by congruence. simpl.
    apply np_argmax_singleton.
    rewrite np_random_beta_shape by congruence. exact Ha. }
  split.
  - intros pa num_steps epsilon g.
    destruct (epsilon_greedy_locals_total [pa] num_steps epsilon g)
      as (s & g' & Hrun); [discriminate|].
    exists s, g'. split; [exact Hrun|].
    destruct (epsilon_greedy_locals_Ok _ _ _ _ _ _ Hrun) as (Hcons & _ & Hlen).
    apply all_zero_actions; [|apply (eg_actions_range _ _ Hcons)].
    rewrite (eg_len_hist _ _ Hcons). exact Hlen.
  - intros fuel env g Hready Hone Hfuel.
    destruct (run_thompson_search_total fuel env g Hready Hfuel)
      as (s & st' & Hrun & Hcons & Hlen).
    exists s, st'. split; [exact Hrun|].
    apply all_zero_actions; [exact Hlen|].
    rewrite <- Hone. apply (ts_actions_range _ _ Hcons).
Qed.

(** * Further properties of the drivers and simulators *)

(** ** The books of an epsilon-greedy driver *)

Lemma eg_update_unit_reward Qv Nv action (reward : Qc) Qv' Nv' :
  length Qv = length Nv → unit_estimates Qv Nv → unit_reward reward →
  eg_update Qv Nv action reward = Ok (Qv', Nv') →
  unit_estimates Qv' Nv'.
Proof.
  intros Hlen Hunit Hrew Hupd.
  rewrite eg_update_unfold in Hupd by exact Hlen.
  destruct (py_index _ action) as [j|e] eqn:Hj; [|discriminate].
  destruct (py_index_Ok _ _ _ Hj) as [Hlt _].
  destruct (Qv !! j) as [q|] eqn:Hq; [|discriminate].
  destruct (Nv !! j) as [n|] eqn:Hn; [|discriminate].
  injection Hupd as <- <-.
  destruct (Hunit j q n Hq Hn) as (Hq01 & Hn0 & _).
  intros i q' n' Hq' Hn'.
  destruct (decide (j = i)) as [->|Hne].
  - rewrite list_lookup_insert_eq in Hq' by lia.
    rewrite list_lookup_insert_eq in Hn' by lia.
    injection Hq' as <-. injection Hn' as <-.
    assert (Hd : 0 < n + 1) by (apply Qcplus_nonneg_pos; done).
    split; [apply average_step_in_unit; done|].
    split; [apply Qclt_le_weak; exact Hd|].
    intros Hz. rewrite Hz in Hd. destruct (Qclt_not_eq _ _ Hd eq_refl).
  - rewrite list_lookup_insert_ne in Hq' by exact Hne.
    rewrite list_lookup_insert_ne in Hn' by exact Hne.
    eapply Hunit; eauto.
Qed.

Lemma ledger_init k : ledger k (np_zeros (Z.of_nat k)) (np_zeros (Z.of_nat k)) [] [].
Proof.
  split; [reflexivity | constructor | constructor | reflexivity
         | apply unit_estimates_init].
Qed.

Lemma ledger_lengths k Qv Nv actions rewards :
  ledger k Qv Nv actions rewards → length Qv = k ∧ length Nv = k.
Proof.
  intros [_ _ _ Hrep _].
  destruct (eg_updates_averages _ _ _ _ Hrep) as (HQ & HN & _).
  rewrite Nat2Z.id in HQ, HN. done.
Qed.

(** One more round keeps the books. *)
Lemma ledger_step k Qv Nv actions rewards action reward Qv' Nv' :
  ledger k Qv Nv actions rewards →
  (0 <= action < Z.of_nat k)%Z → unit_reward reward →
  eg_update Qv Nv action reward = Ok (Qv', Nv') →
  ledger k Qv' Nv' (actions ++ [action]) (rewards ++ [reward]).
Proof.
  intros Hled Hact Hrew Hupd.
  destruct (ledger_lengths _ _ _ _ _ Hled) as [HQ HN].
  destruct Hled as [Hlen Hrange Hrews Hrep Hunit].
  split.
  - rewrite !length_app. simpl. lia.
  - apply Forall_app. split; [exact Hrange | by constructor].
  - apply Forall_app. split; [exact Hrews | by constructor].
  - rewrite zip_with_app by exact Hlen. simpl.
    rewrite eg_updates_snoc, Hrep. exact Hupd.
  - eapply eg_update_unit_reward; [| exact Hunit | exact Hrew | exact Hupd].
    congruence.
Qed.

(** With the books in order, the update accepts every action in range. *)
Lemma ledger_update_total k Qv Nv actions rewards action reward :
  ledger k Qv Nv actions rewards → (0 <= action < Z.of_nat k)%Z →
  ∃ Qv' Nv', eg_update Qv Nv action reward = Ok (Qv', Nv').
Proof.
  intros Hled Hact. destruct (ledger_lengths _ _ _ _ _ Hled) as [HQ HN].
  rewrite eg_update_unfold by congruence.
  rewrite HN, py_index_inrange by exact Hact.
  destruct (lookup_lt_is_Some_2 Qv (Z.to_nat action) ltac:(lia)) as [q ->].
  destruct (lookup_lt_is_Some_2 Nv (Z.to_nat action) ltac:(lia)) as [n ->].
  eauto.
Qed.

Lemma ledger_counts k Qv Nv actions rewards :
  ledger k Qv Nv actions rewards → sound_counts k Qv Nv actions rewards.
Proof.
  intros Hled. destruct (ledger_lengths _ _ _ _ _ Hled) as [HQ HN].
  destruct Hled as [Hlen Hrange Hrews Hrep Hunit].
  assert (Hzip : length (zip actions rewards) = length rewards)
    by (rewrite length_zip_with; lia).
  split; [exact Hlen|]. split; [exact HQ|]. split; [exact HN|].
  split.
  { destruct (eg_updates_count_sum _ _ _ _ Hrep) as [_ ->]. by rewrite Hzip. }
  intros i Hi.
  destruct (eg_updates_averages _ _ _ _ Hrep) as (_ & _ & Hav).
  rewrite Nat2Z.id in Hav. destruct (Hav i Hi) as (q & Hq & Hn & _).
  rewrite rewards_received_length in Hn by done.
  exists q. split; [exact Hq|]. split; [exact Hn|].
  destruct (Hunit i q _ Hq Hn) as (Hq01 & _ & Hzero).
  split; [exact Hq01|].
  intros Habsent. apply Hzero.
  rewrite times_selected_absent by exact Habsent. apply count_0.
Qed.

(** ** Loops that run until the simulator reports [done] *)

Section DoWhile.
Context {G St E : Type}.
Variable round : St → M (E * G) (St * bool).
Variable loop : nat → St → M (E * G) (option St).
Hypothesis loop_O : ∀ s st, loop 0 s st = (Ok None, st).
Hypothesis loop_S : ∀ fuel s st,
  loop (S fuel) s st =
  match round s st with
  | (Ok (s', true), st') => (Ok (Some s'), st')
  | (Ok (s', false), st') => loop fuel s' st'
  | (Raise e, st') => (Raise e, st')
  end.

(** What every round keeps holds when the loop is left. *)
Lemma do_while_invariant (P : St → E → Prop) :
  (∀ s env g s' d env' g',
     P s env → round s (env, g) = (Ok (s', d), (env', g')) → P s' env') →
  ∀ fuel s env g s' env' g',
    P s env → loop fuel s (env, g) = (Ok (Some s'), (env', g')) → P s' env'.
Proof.
  intros Hstep fuel.
  induction fuel as [|fuel IH]; intros s env g s' env' g' HP Hloop.
  - rewrite loop_O in Hloop. discriminate.
  - rewrite loop_S in Hloop.
    destruct (round s (env, g)) as [[[s1 d]|e] [env1 g1]] eqn:Hround;
      [|discriminate].
    pose proof (Hstep _ _ _ _ _ _ _ HP Hround) as HP1.
    destruct d.
    + injection Hloop as <- <- <-. exact HP1.
    + eapply IH; eauto.
Qed.

(** The loop never returns without a round. *)
Lemma do_while_raises_first fuel s st e st' :
  round s st = (Raise e, st') → loop (S fuel) s st = (Raise e, st').
Proof. intros Hround. rewrite loop_S, Hround. reflexivity. Qed.

Variables (counter horizon : E → Z) (Inv : St → E → Prop) (len : St → nat).
Hypothesis round_ok : ∀ s env g,
  Inv s env → ∃ s' d env' g', round s (env, g) = (Ok (s', d), (env', g')).
Hypothesis round_step : ∀ s env g s' d env' g',
  Inv s env → round s (env, g) = (Ok (s', d), (env', g')) →
  Inv s' env' ∧ counter env' = (counter env + 1)%Z ∧
  horizon env' = horizon env ∧
  d = bool_decide (horizon env <= counter env + 1)%Z ∧
  len s' = S (len s).

Lemma do_while_total fuel s env g :
  Inv s env → (passes counter horizon env <= fuel)%nat →
  ∃ s' env' g',
    loop fuel s (env, g) = (Ok (Some s'), (env', g')) ∧
    Inv s' env' ∧
    len s' = (len s + passes counter horizon env)%nat ∧
    counter env' = (counter env + Z.of_nat (passes counter horizon env))%Z ∧
    horizon env' = horizon env.
Proof.
  revert s env g.
  induction fuel as [|fuel IH]; intros s env g HInv Hfuel.
  - unfold passes in Hfuel. lia.
  - rewrite loop_S.
    destruct (round_ok s env g HInv) as (s1 & d & env1 & g1 & Hround).
    rewrite Hround.
    destruct (round_step _ _ _ _ _ _ _ HInv Hround)
      as (HInv1 & Hc1 & Hh1 & Hd & Hlen1).
    destruct d.
    + symmetry in Hd. apply bool_decide_eq_true in Hd.
      exists s1, env1, g1. unfold passes.
      repeat split; try done; lia.
    + symmetry in Hd. apply bool_decide_eq_false in Hd.
      assert (Hp : passes counter horizon env = S (passes counter horizon env1))
        by (unfold passes; rewrite Hc1, Hh1; lia).
      destruct (IH s1 env1 g1 HInv1 ltac:(lia))
        as (s' & env' & g' & Hloop & HInv' & Hlen' & Hc' & Hh').
      exists s', env', g'. repeat split; try done; lia.
Qed.

(** With less fuel than that, the loop runs out of fuel. *)
Lemma do_while_starved fuel s env g :
  Inv s env → (fuel < passes counter horizon env)%nat →
  ∃ st', loop fuel s (env, g) = (Ok None, st').
Proof.
  revert s env g.
  induction fuel as [|fuel IH]; intros s env g HInv Hfuel.
  - rewrite loop_O. eauto.
  - rewrite loop_S.
    destruct (round_ok s env g HInv) as (s1 & d & env1 & g1 & Hround).
    rewrite Hround.
    destruct (round_step _ _ _ _ _ _ _ HInv Hround)
      as (HInv1 & Hc1 & Hh1 & Hd & _).
    destruct d.
    + symmetry in Hd. apply bool_decide_eq_true in Hd.
      unfold passes in Hfuel. lia.
    + symmetry in Hd. apply bool_decide_eq_false in Hd.
      apply IH; [exact HInv1|]. unfold passes in *. rewrite Hc1, Hh1. lia.
Qed.

End DoWhile.

(** ** Runs of [run_epsilon_greedy_recommender] *)

Lemma eg_initial_ledger k : eg_ledger k (eg_initial (Z.of_nat k)).
Proof. apply ledger_init. Qed.

Section RecommenderRuns.
Context {G : Type} `{!Numpy G}.

(** One round, when it raises nothing. *)
Lemma rec_round_Ok k epsilon s (env : RecommenderSystemBandit.t) (g : G)
  s' done env' g' :
  rec_round k epsilon s (env, g) = (Ok (s', done), (env', g')) →
  length (eg_Q s) = Z.to_nat k →
  ∃ action reward Qv Nv,
    (0 <= action < k)%Z ∧ binary reward ∧
    eg_update (eg_Q s) (eg_N s) action (Qc_of_Z reward) = Ok (Qv, Nv) ∧
    s' = {| eg_Q := Qv; eg_N := Nv;
            rewards_history := rewards_history s ++ [reward];
            actions_history := actions_history s ++ [action] |} ∧
    env' = RecommenderSystemBandit.set_current_step
             (RecommenderSystemBandit.current_step env + 1) env ∧
    done = bool_decide (RecommenderSystemBandit.horizon env
                        <= RecommenderSystemBandit.current_step env + 1)%Z.
Proof.
  unfold rec_round, bind. rewrite get_context_unfold.
  destruct (decide (0 <= SearchBandit.context_dim env)%Z); [|discriminate].
  unfold on_rng.
  destruct (eg_select_action k epsilon (eg_Q s) _) as [[action|e] g1]
    eqn:Hsel; [|discriminate].
  intros Hround HlenQ.
  apply eg_select_action_Ok in Hsel; [|exact HlenQ].
  rewrite contextual_step_unfold in Hround.
  destruct (getitem (SearchBandit.weights env) action) as [w|e];
    [|discriminate].
  destruct (np_dot w _) as [z|e]; [|discriminate].
  unfold lift, ret in Hround.
  destruct (eg_update _ _ action _) as [[Qv Nv]|e] eqn:Hupd; [|discriminate].
  injection Hround as <- <- <- <-.
  eexists action, _, Qv, Nv.
  split; [exact Hsel|]. split; [apply bernoulli_reward_binary|].
  split; [exact Hupd|]. done.
Qed.

Lemma rec_round_ledger k epsilon s (env : RecommenderSystemBandit.t) (g : G)
  s' done env' g' :
  rec_round (Z.of_nat k) epsilon s (env, g) = (Ok (s', done), (env', g')) →
  eg_ledger k s → eg_ledger k s'.
Proof.
  intros Hround Hled.
  destruct (ledger_lengths _ _ _ _ _ Hled) as [HQ _].
  destruct (rec_round_Ok _ _ _ _ _ _ _ _ _ Hround)
    as (action & reward & Qv & Nv & Hact & Hbin & Hupd & -> & _ & _).
  { rewrite Nat2Z.id. exact HQ. }
  unfold eg_ledger. simpl. rewrite fmap_app. simpl.
  eapply ledger_step; eauto. apply unit_reward_binary. exact Hbin.
Qed.

(** A round on a ready environment raises nothing. *)
Lemma rec_round_total epsilon s (env : RecommenderSystemBandit.t) (g : G) :
  env_ready env →
  eg_ledger (length (RecommenderSystemBandit.weights env)) s →
  ∃ s' done env' g',
    rec_round (RecommenderSystemBandit.k env) epsilon s (env, g)
    = (Ok (s', done), (env', g')).
Proof.
  intros [Hk Hrows Hdim Hshape] Hled.
  destruct (ledger_lengths _ _ _ _ _ Hled) as [HQ HN].
  unfold rec_round, bind. rewrite get_context_unfold, decide_True by exact Hdim.
  unfold on_rng.
  assert (Hkpos : (0 < RecommenderSystemBandit.k env)%Z).
  { rewrite Hk. destruct (SearchBandit.weights env); [done | simpl; lia]. }
  destruct (eg_select_action_range (RecommenderSystemBandit.k env) epsilon
              (eg_Q s)
              (np_random_randn (Z.to_nat (SearchBandit.context_dim env)) g).2
              Hkpos)
    as (action & g1 & Hsel & Hact).
  { rewrite Hk, Nat2Z.id. exact HQ. }
  rewrite Hsel, contextual_step_unfold.
  rewrite Hk in Hact.
  destruct (getitem_index (SearchBandit.weights env) action (Z.to_nat action))
    as (w & Hw & ->); [apply py_index_inrange; exact Hact|].
  unfold np_dot. rewrite decide_True.
  2:{ rewrite np_random_randn_shape.
      rewrite Forall_lookup in Hshape. eapply Hshape. exact Hw. }
  unfold lift, ret.
  match goal with
  | |- context [eg_update _ _ action ?r] =>
      destruct (ledger_update_total _ _ _ _ _ action r Hled Hact)
        as (Qv & Nv & ->)
  end.
  eauto 10.
Qed.

Lemma rec_loop_S fuel k epsilon s (st : RecommenderSystemBandit.t * G) :
  rec_loop (S fuel) k epsilon s st =
  match rec_round k epsilon s st with
  | (Ok (s', true), st') => (Ok (Some s'), st')
  | (Ok (s', false), st') => rec_loop fuel k epsilon s' st'
  | (Raise e, st') => (Raise e, st')
  end.
Proof.
  simpl. unfold bind.
  destruct (rec_round k epsilon s st) as [[[s' [|]]|e] st']; reflexivity.
Qed.

End RecommenderRuns.

Lemma set_current_step_twice c1 c2 (env : ContextualBandit.t) :
  ContextualBandit.set_current_step c2 (ContextualBandit.set_current_step c1 env)
  = ContextualBandit.set_current_step c2 env.
Proof. reflexivity. Qed.

Lemma remaining_passes (env : SearchBandit.t) :
  remaining env
  = passes SearchBandit.current_step SearchBandit.horizon env.
Proof. reflexivity. Qed.

Section RecommenderLoop.
Context {G : Type} `{!Numpy G}.

(** The loop of [run_epsilon_greedy_recommender] on a ready environment:
    it is left after [remaining env] rounds, with the books in order and
    with nothing but the counter of the environment changed. *)
Lemma rec_loop_total fuel epsilon s (env0 : RecommenderSystemBandit.t) c (g : G) :
  env_ready env0 →
  eg_ledger (length (RecommenderSystemBandit.weights env0)) s →
  let env := RecommenderSystemBandit.set_current_step c env0 in
  (remaining env <= fuel)%nat →
  ∃ s' g',
    rec_loop fuel (RecommenderSystemBandit.k env0) epsilon s (env, g)
    = (Ok (Some s'),
       (RecommenderSystemBandit.set_current_step
          (c + Z.of_nat (remaining env)) env0, g')) ∧
    eg_ledger (length (RecommenderSystemBandit.weights env0)) s' ∧
    length (rewards_history s')
    = (length (rewards_history s) + remaining env)%nat.
Proof.
  intros Hready Hled env Hfuel.
  pose (Inv := fun (s : eg_locals) (e : RecommenderSystemBandit.t) =>
          e = RecommenderSystemBandit.set_current_step
                (RecommenderSystemBandit.current_step e) env0 ∧
          eg_ledger (length (RecommenderSystemBandit.weights env0)) s).
  destruct (do_while_total
              (rec_round (RecommenderSystemBandit.k env0) epsilon)
              (fun fuel s => rec_loop fuel (RecommenderSystemBandit.k env0)
                               epsilon s)
              (fun fuel s st => rec_loop_S fuel _ epsilon s st)
              RecommenderSystemBandit.current_step
              RecommenderSystemBandit.horizon Inv
              (fun s => length (rewards_history s)))
    with (fuel := fuel) (s := s) (env := env) (g := g)
    as (s' & env' & g' & Hloop & [Henv' Hled'] & Hlen & Hc & _).
  - intros s1 e1 g1 [He1 Hl1].
    assert (Hr1 : env_ready e1)
      by (rewrite He1; apply set_current_step_ready; exact Hready).
    assert (Hk1 : RecommenderSystemBandit.k e1 = RecommenderSystemBandit.k env0)
      by (rewrite He1; reflexivity).
    rewrite <- Hk1. apply rec_round_total; [exact Hr1|].
    rewrite He1. exact Hl1.
  - intros s1 e1 g1 s2 d e2 g2 [He1 Hl1] Hround.
    assert (Hround' := Hround).
    rewrite (ready_k _ Hready) in Hround'.
    pose proof (rec_round_ledger _ _ _ _ _ _ _ _ _ Hround' Hl1) as Hl2.
    destruct (ledger_lengths _ _ _ _ _ Hl1) as [HQ1 _].
    destruct (rec_round_Ok _ _ _ _ _ _ _ _ _ Hround)
      as (action & reward & Qv & Nv & _ & _ & _ & -> & -> & ->).
    { rewrite (ready_k _ Hready), Nat2Z.id. exact HQ1. }
    simpl. split; [split; [|exact Hl2]|].
    + rewrite He1 at 2. reflexivity.
    + repeat split. rewrite length_app. simpl. lia.
  - split; [reflexivity | exact Hled].
  - exact Hfuel.
  - exists s', g'. rewrite Hloop, Henv', Hc. simpl.
    split; [reflexivity|]. split; [exact Hled' | exact Hlen].
Qed.

End RecommenderLoop.

(** [run_epsilon_greedy_recommender] on a ready environment: where it
    leaves the environment and how many rounds it makes. *)
Lemma recommender_run_rounds {G : Type} `{!Numpy G}
  (fuel : nat) (epsilon : Qc) (env : RecommenderSystemBandit.t) (g : G) :
  env_ready env → (remaining env <= fuel)%nat →
  ∃ s g',
    run_epsilon_greedy_recommender_locals fuel epsilon (env, g)
    = (Ok (Some s),
       (RecommenderSystemBandit.set_current_step
          (RecommenderSystemBandit.current_step env
           + Z.of_nat (remaining env)) env, g')) ∧
    length (rewards_history s) = remaining env.
Proof.
  intros Hready Hfuel.
  destruct (rec_loop_total fuel epsilon
              (eg_initial (RecommenderSystemBandit.k env)) env
              (RecommenderSystemBandit.current_step env) g Hready)
    as (s & g' & Hloop & Hled & Hlen).
  - rewrite (ready_k _ Hready). apply eg_initial_ledger.
  - destruct env. exact Hfuel.
  - exists s, g'. split; [|exact Hlen]. destruct env. exact Hloop.
Qed.

(** X1.  [run_epsilon_greedy_recommender] on a ready environment raises
    nothing and leaves its loop after [max(1, num_users - current_step)]
    rounds; only the step counter of the environment has changed, by that
    number; and at exit [sum(N)] is the number of rounds, every [N[i]] the
    number of rounds that chose arm [i], every [Q[i]] in [[0, 1]], and 0 for
    an arm never chosen. *)
Theorem recommender_run_sound {G : Type} `{!Numpy G}
  (fuel : nat) (epsilon : Qc) (env : RecommenderSystemBandit.t) (g : G) :
  env_ready env → (remaining env <= fuel)%nat →
  ∃ s g',
    run_epsilon_greedy_recommender_locals fuel epsilon (env, g)
    = (Ok (Some s),
       (RecommenderSystemBandit.set_current_step
          (RecommenderSystemBandit.current_step env
           + Z.of_nat (remaining env)) env, g')) ∧
    length (rewards_history s) = remaining env ∧
    sound_counts (length (RecommenderSystemBandit.weights env))
      (eg_Q s) (eg_N s) (actions_history s) (Qc_of_Z <$> rewards_history s).
Proof.
  intros Hready Hfuel.
  destruct (rec_loop_total fuel epsilon
              (eg_initial (RecommenderSystemBandit.k env)) env
              (RecommenderSystemBandit.current_step env) g Hready)
    as (s & g' & Hloop & Hled & Hlen).
  - rewrite (ready_k _ Hready). apply eg_initial_ledger.
  - destruct env. exact Hfuel.
  - exists s, g'. split; [|split; [exact Hlen | apply ledger_counts; exact Hled]].
    destruct env. exact Hloop.
Qed.

Lemma demo_recommender_env_ready : env_ready demo_recommender_env.
Proof.
  split; simpl; [reflexivity | discriminate | lia |].
  repeat constructor.
Defined.

Lemma recommender_run_sound_witness :
  ∃ s g',
    run_epsilon_greedy_recommender_locals 5 (Q2Qc (1 # 10))
      (demo_recommender_env, 0%nat)
    = (Ok (Some s),
       (RecommenderSystemBandit.set_current_step
          (RecommenderSystemBandit.current_step demo_recommender_env
           + Z.of_nat (remaining demo_recommender_env))
          demo_recommender_env, g')) ∧
    length (rewards_history s) = remaining demo_recommender_env ∧
    sound_counts
      (length (RecommenderSystemBandit.weights demo_recommender_env))
      (eg_Q s) (eg_N s) (actions_history s) (Qc_of_Z <$> rewards_history s).
Proof.
  apply (recommender_run_sound 5 (Q2Qc (1 # 10)) demo_recommender_env 0%nat).
  - exact demo_recommender_env_ready.
  - vm_compute. lia.
Defined.

(** ** The pure-Python drivers do not reset the environment *)

Lemma remaining_after_run (env : SearchBandit.t) c :
  remaining (SearchBandit.set_current_step
               (c + Z.of_nat (remaining (SearchBandit.set_current_step c env)))
               env) = 1%nat.
Proof. unfold remaining. simpl. lia. Qed.

Section ThompsonLoop.
Context {G : Type} `{!Numpy G}.

(** The loop of [run_thompson_search] on a ready environment changes
    nothing but the counter of the environment. *)
Lemma ts_loop_env fuel s (env0 : SearchBandit.t) c (g : G) :
  env_ready env0 →
  ts_consistent (length (SearchBandit.weights env0)) s →
  let env := SearchBandit.set_current_step c env0 in
  (remaining env <= fuel)%nat →
  ∃ s' g',
    ts_loop fuel s (env, g)
    = (Ok (Some s'),
       (SearchBandit.set_current_step (c + Z.of_nat (remaining env)) env0,
        g')) ∧
    ts_consistent (length (SearchBandit.weights env0)) s' ∧
    length (ts_rewards_history s')
    = (length (ts_rewards_history s) + remaining env)%nat.
Proof.
  intros Hready Hcons env Hfuel.
  pose (Inv := fun (s : ts_locals) (e : SearchBandit.t) =>
          e = SearchBandit.set_current_step (SearchBandit.current_step e) env0 ∧
          ts_consistent (length (SearchBandit.weights env0)) s).
  destruct (do_while_total ts_round ts_loop ts_loop_S
              SearchBandit.current_step SearchBandit.horizon Inv
              (fun s => length (ts_rewards_history s)))
    with (fuel := fuel) (s := s) (env := env) (g := g)
    as (s' & env' & g' & Hloop & [Henv' Hcons'] & Hlen & Hc & _).
  - intros s1 e1 g1 [He1 Hc1]. apply ts_round_total.
    + rewrite He1. apply set_current_step_ready. exact Hready.
    + rewrite He1. exact Hc1.
  - intros s1 e1 g1 s2 d e2 g2 [He1 Hc1] Hround.
    pose proof (ts_round_consistent _ _ _ _ _ _ _ _ Hround Hc1) as Hc2.
    destruct (ts_round_Ok _ _ _ _ _ _ _ Hround)
      as (action & reward & alpha & beta & _ & _ & _ & -> & -> & ->).
    simpl. split; [split; [|exact Hc2]|].
    + rewrite He1 at 2. reflexivity.
    + repeat split. rewrite length_app. simpl. lia.
  - split; [reflexivity | exact Hcons].
  - exact Hfuel.
  - exists s', g'. rewrite Hloop, Henv', Hc. simpl.
    split; [reflexivity|]. split; [exact Hcons' | exact Hlen].
Qed.

End ThompsonLoop.

(** X2.  Neither pure-Python driver resets its environment.  After a run on
    a ready environment the counter has reached or passed the horizon, so a
    second run on the same object, of [run_epsilon_greedy_recommender] or of
    [run_thompson_search], makes exactly one round. *)
Theorem second_run_makes_one_round {G : Type} `{!Numpy G}
  (fuel : nat) (epsilon : Qc) (env : SearchBandit.t) (g : G) :
  env_ready env → (remaining env <= fuel)%nat →
  (∃ s1 st1,
     run_epsilon_greedy_recommender_locals fuel epsilon (env, g)
     = (Ok (Some s1), st1) ∧
     length (rewards_history s1) = remaining env ∧
     (SearchBandit.horizon st1.1 <= SearchBandit.current_step st1.1)%Z ∧
     ∀ fuel2 epsilon2, (1 <= fuel2)%nat →
       ∃ s2 st2,
         run_epsilon_greedy_recommender_locals fuel2 epsilon2 st1
         = (Ok (Some s2), st2) ∧
         length (rewards_history s2) = 1%nat) ∧
  (∃ s1 st1,
     run_thompson_search fuel (env, g) = (Ok (Some s1), st1) ∧
     length (ts_rewards_history s1) = remaining env ∧
     ∀ fuel2, (1 <= fuel2)%nat →
       ∃ s2 st2,
         run_thompson_search fuel2 st1 = (Ok (Some s2), st2) ∧
         length (ts_rewards_history s2) = 1%nat).
Proof.
  intros Hready Hfuel.
  set (c := SearchBandit.current_step env).
  assert (Henv : env = SearchBandit.set_current_step c env) by (destruct env; done).
  assert (Hrem : remaining (SearchBandit.set_current_step c env) = remaining env)
    by (rewrite <- Henv; reflexivity).
  set (env1 := SearchBandit.set_current_step (c + Z.of_nat (remaining env)) env).
  assert (Hready1 : env_ready env1) by (apply set_current_step_ready; exact Hready).
  assert (Hrem1 : remaining env1 = 1%nat).
  { unfold env1. rewrite <- Hrem. apply remaining_after_run. }
  split.
  - destruct (recommender_run_rounds fuel epsilon env g Hready Hfuel)
      as (s1 & g1 & Hrun & Hlen).
    exists s1, (env1, g1). split; [exact Hrun|]. split; [exact Hlen|].
    split.
    { simpl. unfold remaining. fold c. lia. }
    intros fuel2 epsilon2 Hfuel2.
    destruct (recommender_run_rounds fuel2 epsilon2 env1 g1 Hready1)
      as (s2 & g2 & Hrun2 & Hlen2); [lia|].
    eexists s2, _. split; [exact Hrun2|]. rewrite Hlen2. exact Hrem1.
  - destruct (ts_loop_env fuel (ts_initial (SearchBandit.k env)) env c g Hready)
      as (s1 & g1 & Hloop & _ & Hlen).
    { rewrite (ready_k _ Hready).
      pose proof (ts_initial_consistent
                    (Z.of_nat (length (SearchBandit.weights env)))) as H0.
      rewrite Nat2Z.id in H0. exact H0. }
    { rewrite Hrem. exact Hfuel. }
    rewrite Hrem in Hloop, Hlen. rewrite <- Henv in Hloop.
    exists s1, (env1, g1). split; [exact Hloop|]. split; [exact Hlen|].
    intros fuel2 Hfuel2.
    destruct (run_thompson_search_total fuel2 env1 g1 Hready1)
      as (s2 & st2 & Hrun2 & Hcons2 & Hlen2); [lia|].
    exists s2, st2. split; [exact Hrun2|].
    rewrite <- (ts_len_hist _ _ Hcons2), Hlen2. exact Hrem1.
Qed.

Lemma second_run_makes_one_round_witness :
  (∃ s1 st1,
     run_epsilon_greedy_recommender_locals 5 (Q2Qc (1 # 10))
       (demo_recommender_env, 0%nat) = (Ok (Some s1), st1) ∧
     length (rewards_history s1) = remaining demo_recommender_env ∧
     (SearchBandit.horizon st1.1 <= SearchBandit.current_step st1.1)%Z ∧
     ∀ fuel2 epsilon2, (1 <= fuel2)%nat →
       ∃ s2 st2,
         run_epsilon_greedy_recommender_locals fuel2 epsilon2 st1
         = (Ok (Some s2), st2) ∧
         length (rewards_history s2) = 1%nat) ∧
  (∃ s1 st1,
     run_thompson_search 5 (demo_recommender_env, 0%nat)
     = (Ok (Some s1), st1) ∧
     length (ts_rewards_history s1) = remaining demo_recommender_env ∧
     ∀ fuel2, (1 <= fuel2)%nat →
       ∃ s2 st2,
         run_thompson_search fuel2 st1 = (Ok (Some s2), st2) ∧
         length (ts_rewards_history s2) = 1%nat).
Proof.
  apply (second_run_makes_one_round 5 (Q2Qc (1 # 10))
           demo_recommender_env 0%nat).
  - exact demo_recommender_env_ready.
  - vm_compute. lia.
Defined.

(** ** What [alpha] and [beta] count *)

Lemma total_reward_snoc rewards r :
  total_reward (rewards ++ [r]) = (total_reward rewards + r)%Z.
Proof.
  unfold total_reward. induction rewards as [|x rewards IH]; simpl; lia.
Qed.

Lemma wins_snoc i actions rewards a r :
  length actions = length rewards →
  wins i (actions ++ [a]) (rewards ++ [r])
  = (wins i actions rewards
     + if decide (a = Z.of_nat i ∧ r = 1%Z) then 1 else 0)%nat.
Proof.
  intros Hlen. unfold wins.
  rewrite zip_with_app by exact Hlen. simpl.
  rewrite filter_app, length_app. f_equal.
  rewrite filter_cons, filter_nil. simpl.
  destruct (decide (a = Z.of_nat i ∧ r = 1%Z)); reflexivity.
Qed.

Lemma losses_snoc i actions rewards a r :
  length actions = length rewards →
  losses i (actions ++ [a]) (rewards ++ [r])
  = (losses i actions rewards
     + if decide (a = Z.of_nat i ∧ r ≠ 1%Z) then 1 else 0)%nat.
Proof.
  intros Hlen. unfold losses.
  rewrite zip_with_app by exact Hlen. simpl.
  rewrite filter_app, length_app. f_equal.
  rewrite filter_cons, filter_nil. simpl.
  destruct (decide (a = Z.of_nat i ∧ r ≠ 1%Z)); reflexivity.
Qed.

Lemma ts_initial_tally k : ts_tally (Z.to_nat k) (ts_initial k).
Proof.
  split; simpl.
  - intros i Hi. unfold np_ones. rewrite !lookup_replicate_2 by exact Hi.
    unfold wins, losses. simpl. rewrite count_0.
    split; f_equal; ring.
  - unfold np_ones. rewrite np_sum_replicate, Z2Qc_inj_0. ring.
  - unfold np_ones. rewrite np_sum_replicate, Z2Qc_inj_0, count_0. ring.
Qed.

Lemma ts_update_tally k s action reward alpha beta :
  ts_consistent k s → ts_tally k s →
  (0 <= action < Z.of_nat k)%Z → binary reward →
  ts_update (ts_alpha s) (ts_beta s) action reward = Ok (alpha, beta) →
  ts_tally k
    {| ts_alpha := alpha; ts_beta := beta;
       ts_rewards_history := ts_rewards_history s ++ [reward];
       ts_actions_history := ts_actions_history s ++ [action] |}.
Proof.
  intros Hcons [Harms Ha Hb] Hact Hbin Hupd.
  pose proof (ts_len_alpha _ _ Hcons) as Hla.
  pose proof (ts_len_beta _ _ Hcons) as Hlb.
  pose proof (ts_len_hist _ _ Hcons) as Hlh.
  rewrite ts_update_unfold in Hupd by congruence.
  rewrite Hla, py_index_inrange in Hupd by exact Hact.
  destruct (ts_alpha s !! Z.to_nat action) as [a|] eqn:Hqa; [|discriminate].
  destruct (ts_beta s !! Z.to_nat action) as [b|] eqn:Hqb; [|discriminate].
  split; simpl.
  - intros i Hi. destruct (Harms i Hi) as [Hai Hbi].
    rewrite wins_snoc, losses_snoc by exact Hlh.
    destruct (decide (reward = 1%Z)) as [Hr|Hr]; injection Hupd as <- <-.
    + rewrite (decide_False (P := action = Z.of_nat i ∧ reward ≠ 1%Z))
        by (intros [_ ?]; done).
      rewrite Nat.add_0_r. split; [|exact Hbi].
      destruct (decide (action = Z.of_nat i)) as [->|Hne].
      * rewrite decide_True by done.
        rewrite Nat2Z.id in Hqa |- *.
        rewrite list_lookup_insert_eq by lia.
        rewrite Nat.add_1_r, count_S. f_equal.
        assert (a = 1 + count (wins i (ts_actions_history s)
                                 (ts_rewards_history s))) as -> by congruence.
        ring.
      * rewrite decide_False by (intros [? _]; done).
        rewrite Nat.add_0_r, list_lookup_insert_ne by lia. exact Hai.
    + rewrite (decide_False (P := action = Z.of_nat i ∧ reward = 1%Z))
        by (intros [_ ?]; done).
      rewrite Nat.add_0_r. split; [exact Hai|].
      destruct (decide (action = Z.of_nat i)) as [->|Hne].
      * rewrite decide_True by done.
        rewrite Nat2Z.id in Hqb |- *.
        rewrite list_lookup_insert_eq by lia.
        rewrite Nat.add_1_r, count_S. f_equal.
        assert (b = 1 + count (losses i (ts_actions_history s)
                                 (ts_rewards_history s))) as -> by congruence.
        ring.
      * rewrite decide_False by (intros [? _]; done).
        rewrite Nat.add_0_r, list_lookup_insert_ne by lia. exact Hbi.
  - rewrite total_reward_snoc, Z2Qc_inj_add.
    destruct (decide (reward = 1%Z)) as [->|Hr]; injection Hupd as <- <-.
    + rewrite (np_sum_insert _ _ _ _ Hqa), Ha, Z2Qc_inj_1. ring.
    + destruct Hbin as [->|?]; [|done]. rewrite Ha, Z2Qc_inj_0. ring.
  - rewrite total_reward_snoc, Z2Qc_inj_add, length_app, Nat.add_1_r, count_S.
    destruct (decide (reward = 1%Z)) as [->|Hr]; injection Hupd as <- <-.
    + rewrite Hb, Z2Qc_inj_1. ring.
    + destruct Hbin as [->|?]; [|done].
      rewrite (np_sum_insert _ _ _ _ Hqb), Hb, Z2Qc_inj_0. ring.
Qed.

(** X3.  Whenever [run_thompson_search] returns: for every arm,
    [alpha[i] - 1] is the number of rounds that chose the arm and were
    rewarded and [beta[i] - 1] the number that chose it and were not; and
    [sum(alpha) - k] is the total reward, [sum(beta) - k] the number of
    unrewarded rounds. *)
Theorem thompson_posterior_tallies {G : Type} `{!Numpy G}
  (fuel : nat) (env : SearchBandit.t) (g : G) s st' :
  run_thompson_search fuel (env, g) = (Ok (Some s), st') →
  let k := Z.to_nat (SearchBandit.k env) in
  (∀ i, (i < k)%nat →
     ts_alpha s !! i
     = Some (1 + count (wins i (ts_actions_history s) (ts_rewards_history s))) ∧
     ts_beta s !! i
     = Some (1 + count (losses i (ts_actions_history s)
                          (ts_rewards_history s)))) ∧
  np_sum (ts_alpha s) - count k
  = Qc_of_Z (total_reward (ts_rewards_history s)) ∧
  np_sum (ts_beta s) - count k
  = count (length (ts_rewards_history s))
    - Qc_of_Z (total_reward (ts_rewards_history s)).
Proof.
  intros Hrun k. rewrite run_thompson_search_unfold in Hrun.
  destruct st' as [env' g'].
  assert (Hboth : ts_consistent k s ∧ ts_tally k s).
  { eapply (do_while_invariant ts_round ts_loop (fun _ _ => eq_refl) ts_loop_S
              (fun s _ => ts_consistent k s ∧ ts_tally k s));
      [| |exact Hrun].
    - intros s1 e1 g1 s2 d e2 g2 [Hc1 Ht1] Hround.
      split; [eapply ts_round_consistent; eauto|].
      destruct (ts_round_Ok _ _ _ _ _ _ _ Hround)
        as (action & reward & alpha & beta & Hact & Hbin & Hupd & -> & _ & _).
      rewrite (ts_len_alpha _ _ Hc1) in Hact.
      eapply ts_update_tally; eauto.
    - split; [apply ts_initial_consistent | apply ts_initial_tally]. }
  destruct Hboth as [_ [Harms Ha Hb]].
  split; [exact Harms|]. split.
  - rewrite Ha. ring.
  - rewrite Hb. ring.
Qed.

Lemma thompson_posterior_tallies_witness :
  ∃ s st',
    run_thompson_search 5 (demo_search_env, 0%nat) = (Ok (Some s), st') ∧
    (∀ i, (i < Z.to_nat (SearchBandit.k demo_search_env))%nat →
       ts_alpha s !! i
       = Some (1 + count (wins i (ts_actions_history s)
                            (ts_rewards_history s))) ∧
       ts_beta s !! i
       = Some (1 + count (losses i (ts_actions_history s)
                            (ts_rewards_history s)))) ∧
    np_sum (ts_alpha s) - count (Z.to_nat (SearchBandit.k demo_search_env))
    = Qc_of_Z (total_reward (ts_rewards_history s)) ∧
    np_sum (ts_beta s) - count (Z.to_nat (SearchBandit.k demo_search_env))
    = count (length (ts_rewards_history s))
      - Qc_of_Z (total_reward (ts_rewards_history s)).
Proof.
  eexists _, _. split; [lazy; reflexivity|].
  eapply (thompson_posterior_tallies 5 demo_search_env 0%nat).
  lazy. reflexivity.
Defined.

(** ** The Gym loop on the Bernoulli environment *)

Section GymAgrees.
Context {G : Type} `{!Numpy G}.

(** A round of the plain loop is matched, draw for draw, by a round of the
    Gym loop on an environment with the same probabilities. *)
Lemma egg_round_simulates (p0 : list Qc) k epsilon s (g : G) s1 g1
  (env : BernoulliBanditEnv.t) step_count :
  eg_round (BernoulliBandit.init p0) k epsilon s g = (Ok s1, g1) →
  BernoulliBanditEnv.p env = p0 →
  egg_round k epsilon (to_gym s, step_count) (env, g)
  = (Ok (to_gym s1, (step_count + 1)%Z,
         bool_decide (BernoulliBanditEnv.num_steps env
                      <= BernoulliBanditEnv.current_step env + 1)%Z,
         false),
     (BernoulliBanditEnv.set_current_step
        (BernoulliBanditEnv.current_step env + 1) env, g1)).
Proof.
  intros Hround Hp. unfold eg_round, bind in Hround.
  destruct (eg_select_action k epsilon (eg_Q s) g) as [[action|e] g0] eqn:Hsel;
    [|discriminate].
  rewrite bandit_step_unfold in Hround. simpl in Hround.
  destruct (getitem p0 action) as [pa|e] eqn:Hget; [|discriminate].
  unfold lift, ret in Hround.
  destruct (eg_update _ _ action _) as [[Qv Nv]|e] eqn:Hupd; [|discriminate].
  injection Hround as <- <-.
  unfold egg_round, bind, on_rng. simpl. rewrite Hsel, env_step_unfold, Hp, Hget.
  unfold lift, ret. simpl. rewrite Hupd.
  unfold to_gym. simpl. rewrite fmap_app. reflexivity.
Qed.

Lemma egg_loop_S fuel k epsilon s (st : BernoulliBanditEnv.t * G) :
  egg_loop (S fuel) k epsilon false s st =
  match egg_round k epsilon s st with
  | (Ok (s', done, truncated), st') =>
      if done || truncated then (Ok (Some s'), st')
      else egg_loop fuel k epsilon false s' st'
  | (Raise e, st') => (Raise e, st')
  end.
Proof.
  simpl. unfold bind.
  destruct (egg_round k epsilon s st) as [[[[s' d] t]|e] st']; [|reflexivity].
  destruct d, t; reflexivity.
Qed.

(** The Gym loop makes the rounds of the plain loop, as many as are left
    until the horizon and one at least. *)
Lemma egg_loop_simulates (p0 : list Qc) k epsilon fuel :
  ∀ s (g : G) s' g' (env : BernoulliBanditEnv.t) step_count,
    BernoulliBanditEnv.p env = p0 →
    let n := passes BernoulliBanditEnv.current_step
                    BernoulliBanditEnv.num_steps env in
    (n <= fuel)%nat →
    eg_loop (BernoulliBandit.init p0) k epsilon n s g = (Ok s', g') →
    egg_loop fuel k epsilon false (to_gym s, step_count) (env, g)
    = (Ok (Some (to_gym s', (step_count + Z.of_nat n)%Z)),
       (BernoulliBanditEnv.set_current_step
          (BernoulliBanditEnv.current_step env + Z.of_nat n) env, g')).
Proof.
  induction fuel as [|fuel IH]; intros s g s' g' env step_count Hp n Hfuel Hloop.
  - unfold n, passes in Hfuel. lia.
  - assert (Hn : ∃ m, n = S m) by (exists (pred n); unfold n, passes; lia).
    destruct Hn as [m Hm]. rewrite Hm in Hloop. rewrite eg_loop_S in Hloop.
    destruct (eg_round _ k epsilon s g) as [[s1|e] g1] eqn:Hround;
      [|discriminate].
    rewrite egg_loop_S, (egg_round_simulates _ _ _ _ _ _ _ _ step_count Hround Hp).
    rewrite orb_false_r.
    destruct (bool_decide _) eqn:Hdone.
    + apply bool_decide_eq_true in Hdone.
      assert (n = 1%nat) as Hn1 by (unfold n, passes; lia).
      assert (m = 0%nat) as -> by lia.
      rewrite eg_loop_O in Hloop. injection Hloop as <- <-.
      rewrite Hn1. reflexivity.
    + apply bool_decide_eq_false in Hdone.
      set (env1 := BernoulliBanditEnv.set_current_step
                     (BernoulliBanditEnv.current_step env + 1) env).
      assert (Hm1 : m = passes BernoulliBanditEnv.current_step
                           BernoulliBanditEnv.num_steps env1).
      { unfold n, passes in Hm. unfold passes, env1. simpl. lia. }
      assert (Hfuel1 : (passes BernoulliBanditEnv.current_step
                               BernoulliBanditEnv.num_steps env1 <= fuel)%nat)
        by (rewrite <- Hm1; clear -Hfuel Hm; lia).
      rewrite Hm1 in Hloop.
      rewrite (IH s1 g1 s' g' env1 (step_count + 1)%Z Hp Hfuel1 Hloop).
      rewrite <- Hm1. unfold env1, BernoulliBanditEnv.set_current_step. simpl.
      replace (Z.of_nat n) with (1 + Z.of_nat m)%Z by (clear -Hm; lia).
      rewrite !Z.add_assoc. reflexivity.
Qed.

End GymAgrees.

(** X4.  On a bandit with at least one arm and whatever the counter of the
    environment before, [epsilon_greedy_gym] makes [max(1, num_steps)]
    rounds (one even when [num_steps <= 0], where [epsilon_greedy] makes
    none) and, started from the same random source, returns what
    [epsilon_greedy] returns for that many steps: the same [Q], the same
    rewards as floats, and the same random source after it; the counter of
    the environment is left at the number of rounds. *)
Theorem gym_loop_agrees_with_plain {G : Type} `{!Numpy G}
  (p0 : list Qc) (num_steps stale : Z) (epsilon : Qc) (fuel : nat) (g : G) :
  p0 ≠ [] → (Z.to_nat (Z.max 1 num_steps) <= fuel)%nat →
  ∃ rewards Qv g',
    epsilon_greedy (BernoulliBandit.init p0) (Z.max 1 num_steps) epsilon g
    = (Ok (rewards, Qv), g') ∧
    length rewards = Z.to_nat (Z.max 1 num_steps) ∧
    epsilon_greedy_gym fuel epsilon
      (BernoulliBanditEnv.set_current_step stale
         (BernoulliBanditEnv.init p0 num_steps), g)
    = (Ok (Some (Qc_of_Z <$> rewards, Qv)),
       (BernoulliBanditEnv.set_current_step (Z.max 1 num_steps)
          (BernoulliBanditEnv.init p0 num_steps), g')).
Proof.
  intros Hne Hfuel.
  destruct (epsilon_greedy_locals_total p0 (Z.max 1 num_steps) epsilon g Hne)
    as (s & g' & Hrun).
  destruct (epsilon_greedy_locals_Ok _ _ _ _ _ _ Hrun) as (_ & _ & Hlen).
  exists (rewards_history s), (eg_Q s), g'.
  split; [rewrite epsilon_greedy_returns, Hrun; reflexivity|].
  split; [exact Hlen|].
  rewrite epsilon_greedy_locals_unfold in Hrun.
  unfold epsilon_greedy_gym, epsilon_greedy_gym_locals, bind, get_self,
    BernoulliBanditEnv.reset, set_self, ret. simpl.
  set (env0 := BernoulliBanditEnv.set_current_step 0
                 (BernoulliBanditEnv.set_current_step stale
                    (BernoulliBanditEnv.init p0 num_steps))).
  assert (Hn : passes BernoulliBanditEnv.current_step
                      BernoulliBanditEnv.num_steps env0
               = Z.to_nat (Z.max 1 num_steps)).
  { unfold passes, env0. simpl. f_equal. lia. }
  pose proof (egg_loop_simulates p0 (Z.of_nat (length p0)) epsilon fuel
                (eg_initial (Z.of_nat (length p0))) g s g' env0 0%Z eq_refl)
    as Hsim.
  simpl in Hsim. rewrite Hn in Hsim.
  change (gym_initial (Z.of_nat (length p0)))
    with (to_gym (eg_initial (Z.of_nat (length p0)))).
  rewrite (Hsim Hfuel Hrun). simpl.
  unfold env0, BernoulliBanditEnv.set_current_step. simpl.
  repeat f_equal. lia.
Qed.

Lemma gym_loop_agrees_with_plain_witness :
  ∃ rewards Qv g',
    epsilon_greedy
      (BernoulliBandit.init [Q2Qc (1 # 10); Q2Qc (3 # 10); Q2Qc (4 # 5)])
      (Z.max 1 0) (Q2Qc (1 # 10)) 0%nat
    = (Ok (rewards, Qv), g') ∧
    length rewards = Z.to_nat (Z.max 1 0) ∧
    epsilon_greedy_gym 1 (Q2Qc (1 # 10))
      (BernoulliBanditEnv.set_current_step 7
         (BernoulliBanditEnv.init
            [Q2Qc (1 # 10); Q2Qc (3 # 10); Q2Qc (4 # 5)] 0), 0%nat)
    = (Ok (Some (Qc_of_Z <$> rewards, Qv)),
       (BernoulliBanditEnv.set_current_step (Z.max 1 0)
          (BernoulliBanditEnv.init
             [Q2Qc (1 # 10); Q2Qc (3 # 10); Q2Qc (4 # 5)] 0), g')).
Proof.
  apply (gym_loop_agrees_with_plain
           [Q2Qc (1 # 10); Q2Qc (3 # 10); Q2Qc (4 # 5)] 0 7 (Q2Qc (1 # 10))
           1 0%nat).
  - discriminate.
  - vm_compute. lia.
Defined.

(** ** Runs of [run_epsilon_greedy_recommender_gym] *)

Section RecommenderGymRuns.
Context {G : Type} `{!Numpy G}.

(** [step] on an environment that holds a context. *)
Lemma gym_recommender_step_unfold (env : RecommenderSystemGymEnv.t) x action
  (g : G) :
  RecommenderSystemGymEnv.context env = Some x →
  (0 <= RecommenderSystemGymEnv.context_dim env)%Z →
  RecommenderSystemGymEnv.step action (env, g) =
  match getitem (RecommenderSystemGymEnv.item_weights env) action with
  | Raise e => (Raise e, (env, g))
  | Ok w =>
      match np_dot w x with
      | Raise e => (Raise e, (env, g))
      | Ok z =>
          let u := (np_random_rand g).1 in
          let g1 := (np_random_rand g).2 in
          let d := Z.to_nat (RecommenderSystemGymEnv.context_dim env) in
          let x' := (np_random_randn d g1).1 in
          (Ok {| RecommenderSystemGymEnv.obs := x';
                 RecommenderSystemGymEnv.reward :=
                   if decide (u < sigmoid z) then 1 else 0;
                 RecommenderSystemGymEnv.done :=
                   bool_decide (RecommenderSystemGymEnv.num_users env
                                <= RecommenderSystemGymEnv.current_step env + 1)%Z;
                 RecommenderSystemGymEnv.truncated := false;
                 RecommenderSystemGymEnv.info := [] |},
           (RecommenderSystemGymEnv.set_context x'
              (RecommenderSystemGymEnv.set_current_step
                 (RecommenderSystemGymEnv.current_step env + 1) env),
            (np_random_randn d g1).2))
      end
  end.
Proof.
  intros Hctx Hdim.
  unfold RecommenderSystemGymEnv.step, bind, get_self, lift, on_rng, set_self,
    ret, raise, rand, randn.
  destruct (getitem (RecommenderSystemGymEnv.item_weights env) action)
    as [w|e]; [|reflexivity].
  rewrite Hctx.
  destruct (np_dot w x) as [z|e]; [|reflexivity].
  destruct (np_random_rand g) as [u g1]. simpl.
  rewrite decide_True by exact Hdim.
  destruct (np_random_randn _ g1) as [x' g2]. reflexivity.
Qed.

Lemma gym_recommender_reset_unfold (env : RecommenderSystemGymEnv.t) (g : G) :
  (0 <= RecommenderSystemGymEnv.context_dim env)%Z →
  RecommenderSystemGymEnv.reset (env, g) =
  let d := Z.to_nat (RecommenderSystemGymEnv.context_dim env) in
  (Ok ((np_random_randn d g).1, []),
   (RecommenderSystemGymEnv.set_context (np_random_randn d g).1
      (RecommenderSystemGymEnv.set_current_step 0 env),
    (np_random_randn d g).2)).
Proof.
  intros Hdim.
  unfold RecommenderSystemGymEnv.reset, bind, set_self, get_self, on_rng,
    randn, raise, ret. simpl.
  destruct (decide (0 <= RecommenderSystemGymEnv.context_dim env)%Z); [|done].
  destruct (np_random_randn _ g) as [x g1]. reflexivity.
Qed.

Lemma rgym_round_Ok k epsilon s obs (env0 env : RecommenderSystemGymEnv.t)
  (g : G) s' obs' done truncated env' g' :
  gym_env_ready env0 → gym_env_running env0 env →
  gym_ledger k s → Z.of_nat k = RecommenderSystemGymEnv.k env0 →
  rgym_round (Z.of_nat k) epsilon (s, obs) (env, g)
  = (Ok (s', obs', done, truncated), (env', g')) →
  gym_ledger k s' ∧ gym_env_running env0 env' ∧
  RecommenderSystemGymEnv.current_step env'
  = (RecommenderSystemGymEnv.current_step env + 1)%Z ∧
  done = bool_decide (RecommenderSystemGymEnv.num_users env
                      <= RecommenderSystemGymEnv.current_step env + 1)%Z ∧
  truncated = false ∧
  RecommenderSystemGymEnv.context env' = Some obs' ∧
  length (gym_rewards_history s') = S (length (gym_rewards_history s)).
Proof.
  intros Hready (Hw & Hk & Hd & Hn & x & Hctx & Hx) Hled Hkk Hround.
  destruct (ledger_lengths _ _ _ _ _ Hled) as [HQ _].
  unfold rgym_round, bind, on_rng in Hround. simpl in Hround.
  destruct (eg_select_action _ epsilon (gym_Q s) g) as [[action|e] g1]
    eqn:Hsel; [|discriminate].
  apply eg_select_action_Ok in Hsel; [|rewrite Nat2Z.id; exact HQ].
  rewrite (gym_recommender_step_unfold env x) in Hround;
    [|exact Hctx | rewrite Hd; apply (gym_ready_dim _ Hready)].
  destruct (getitem _ action) as [w|e]; [|discriminate].
  destruct (np_dot w x) as [z|e]; [|discriminate].
  simpl in Hround. unfold lift, ret in Hround.
  destruct (eg_update _ _ action _) as [[Qv Nv]|e] eqn:Hupd; [|discriminate].
  injection Hround as <- <- <- <- <- <-. simpl.
  split.
  { unfold gym_ledger. simpl. eapply ledger_step; eauto.
    destruct (decide (_ < _)); [right | left]; reflexivity. }
  split.
  { repeat split; try done. eexists. split; [reflexivity|].
    rewrite np_random_randn_shape, Hd. reflexivity. }
  rewrite length_app. simpl. repeat split. lia.
Qed.

Lemma rgym_round_total k epsilon s obs (env0 env : RecommenderSystemGymEnv.t)
  (g : G) :
  gym_env_ready env0 → gym_env_running env0 env →
  gym_ledger k s → Z.of_nat k = RecommenderSystemGymEnv.k env0 →
  ∃ s' obs' done truncated env' g',
    rgym_round (Z.of_nat k) epsilon (s, obs) (env, g)
    = (Ok (s', obs', done, truncated), (env', g')).
Proof.
  intros [Hrk Hrows Hdim Hshape] (Hw & Hk & Hd & Hn & x & Hctx & Hx) Hled Hkk.
  destruct (ledger_lengths _ _ _ _ _ Hled) as [HQ _].
  assert (Hklen : k = length (RecommenderSystemGymEnv.item_weights env0))
    by lia.
  unfold rgym_round, bind, on_rng. simpl.
  destruct (eg_select_action_range (Z.of_nat k) epsilon (gym_Q s) g)
    as (action & g1 & -> & Hact).
  { destruct (RecommenderSystemGymEnv.item_weights env0); [done | simpl in *; lia]. }
  { rewrite Nat2Z.id. exact HQ. }
  rewrite (gym_recommender_step_unfold env x); [|exact Hctx | rewrite Hd; exact Hdim].
  rewrite Hw.
  destruct (getitem_index (RecommenderSystemGymEnv.item_weights env0) action
              (Z.to_nat action))
    as (w & Hwl & ->); [apply py_index_inrange; lia|].
  unfold np_dot. rewrite decide_True.
  2:{ rewrite Hx. rewrite Forall_lookup in Hshape. eapply Hshape. exact Hwl. }
  simpl. unfold lift, ret.
  match goal with
  | |- context [eg_update _ _ action ?r] =>
      destruct (ledger_update_total _ _ _ _ _ action r Hled Hact)
        as (Qv & Nv & ->)
  end.
  eauto 10.
Qed.

Lemma rgym_loop_S fuel k epsilon s (st : RecommenderSystemGymEnv.t * G) :
  rgym_loop (S fuel) k epsilon false s st =
  match rgym_round k epsilon s st with
  | (Ok (s', done, truncated), st') =>
      if done || truncated then (Ok (Some s'), st')
      else rgym_loop fuel k epsilon false s' st'
  | (Raise e, st') => (Raise e, st')
  end.
Proof.
  simpl. unfold bind.
  destruct (rgym_round k epsilon s st) as [[[[s' d] t]|e] st']; [|reflexivity].
  destruct d, t; reflexivity.
Qed.

(** The loop, from an environment that holds a context: it is left after
    as many rounds as are left until the horizon, one at least. *)
Lemma rgym_loop_total k epsilon (env0 : RecommenderSystemGymEnv.t) fuel :
  gym_env_ready env0 → Z.of_nat k = RecommenderSystemGymEnv.k env0 →
  ∀ s obs env (g : G),
    gym_env_running env0 env → gym_ledger k s →
    let n := passes RecommenderSystemGymEnv.current_step
                    RecommenderSystemGymEnv.num_users env in
    (n <= fuel)%nat →
    ∃ s' obs' env' g',
      rgym_loop fuel (Z.of_nat k) epsilon false (s, obs) (env, g)
      = (Ok (Some (s', obs')), (env', g')) ∧
      gym_ledger k s' ∧ gym_env_running env0 env' ∧
      RecommenderSystemGymEnv.current_step env'
      = (RecommenderSystemGymEnv.current_step env + Z.of_nat n)%Z ∧
      RecommenderSystemGymEnv.context env' = Some obs' ∧
      length (gym_rewards_history s')
      = (length (gym_rewards_history s) + n)%nat.
Proof.
  intros Hready Hkk.
  induction fuel as [|fuel IH]; intros s obs env g Hrun Hled n Hfuel.
  - unfold n, passes in Hfuel. lia.
  - rewrite rgym_loop_S.
    destruct (rgym_round_total k epsilon s obs env0 env g Hready Hrun Hled Hkk)
      as (s1 & obs1 & d & t & env1 & g1 & Hround).
    rewrite Hround.
    destruct (rgym_round_Ok _ _ _ _ _ _ _ _ _ _ _ _ _ Hready Hrun Hled Hkk Hround)
      as (Hled1 & Hrun1 & Hc1 & -> & -> & Hctx1 & Hlen1).
    rewrite orb_false_r.
    destruct (bool_decide _) eqn:Hdone.
    + apply bool_decide_eq_true in Hdone.
      assert (n = 1%nat) as Hn1 by (unfold n, passes; lia).
      exists s1, obs1, env1, g1. rewrite Hn1.
      split; [reflexivity|]. split; [exact Hled1|]. split; [exact Hrun1|].
      split; [exact Hc1|]. split; [exact Hctx1|]. rewrite Hlen1. lia.
    + apply bool_decide_eq_false in Hdone.
      destruct Hrun as (_ & _ & _ & Hnu & _).
      assert (Hnu1 : RecommenderSystemGymEnv.num_users env1
                     = RecommenderSystemGymEnv.num_users env)
        by (destruct Hrun1 as (_ & _ & _ & -> & _); congruence).
      assert (Hn : n = S (passes RecommenderSystemGymEnv.current_step
                                 RecommenderSystemGymEnv.num_users env1)).
      { unfold n, passes. rewrite Hc1, Hnu1. lia. }
      destruct (IH s1 obs1 env1 g1 Hrun1 Hled1)
        as (s' & obs' & env' & g' & Hloop & Hled' & Hrun' & Hc' & Hctx'
            & Hlen');
        [clear -Hfuel Hn; lia|].
      exists s', obs', env', g'. rewrite Hloop.
      split; [reflexivity|]. split; [exact Hled'|]. split; [exact Hrun'|].
      split; [rewrite Hc', Hc1; clear -Hn; lia|].
      split; [exact Hctx'|].
      rewrite Hlen', Hlen1. clear -Hn. lia.
Qed.

End RecommenderGymRuns.

(** X5.  [run_epsilon_greedy_recommender_gym] on a ready environment,
    whatever its counter and stored context before: [reset] starts the
    count afresh, the loop raises nothing and is left after
    [max(1, num_users)] rounds with the counter at that number; at exit
    [sum(N)] is the number of rounds, every [N[i]] the number of rounds that
    chose arm [i], every [Q[i]] in [[0, 1]], and 0 for an arm never chosen. *)
Theorem recommender_gym_run_sound {G : Type} `{!Numpy G}
  (fuel : nat) (epsilon : Qc) (env : RecommenderSystemGymEnv.t) (g : G) :
  gym_env_ready env →
  (Z.to_nat (Z.max 1 (RecommenderSystemGymEnv.num_users env)) <= fuel)%nat →
  ∃ s obs env' g',
    run_epsilon_greedy_recommender_gym_locals fuel epsilon (env, g)
    = (Ok (Some (s, obs)), (env', g')) ∧
    RecommenderSystemGymEnv.current_step env'
    = Z.max 1 (RecommenderSystemGymEnv.num_users env) ∧
    RecommenderSystemGymEnv.context env' = Some obs ∧
    length (gym_rewards_history s)
    = Z.to_nat (Z.max 1 (RecommenderSystemGymEnv.num_users env)) ∧
    sound_counts (length (RecommenderSystemGymEnv.item_weights env))
      (gym_Q s) (gym_N s) (gym_actions_history s) (gym_rewards_history s).
Proof.
  intros Hready Hfuel.
  unfold run_epsilon_greedy_recommender_gym_locals, bind, get_self.
  rewrite gym_recommender_reset_unfold by apply (gym_ready_dim _ Hready).
  simpl.
  destruct (np_random_randn
              (Z.to_nat (RecommenderSystemGymEnv.context_dim env)) g)
    as [x g0] eqn:Hx0. simpl.
  set (env1 := RecommenderSystemGymEnv.set_context x
                 (RecommenderSystemGymEnv.set_current_step 0 env)).
  assert (Hrun1 : gym_env_running env env1).
  { repeat split. exists x. split; [reflexivity|].
    pose proof (np_random_randn_shape
                  (Z.to_nat (RecommenderSystemGymEnv.context_dim env)) g) as Hs.
    rewrite Hx0 in Hs. exact Hs. }
  rewrite (gym_ready_k _ Hready).
  destruct (rgym_loop_total
              (length (RecommenderSystemGymEnv.item_weights env)) epsilon env
              fuel Hready (eq_sym (gym_ready_k _ Hready))
              (gym_initial (Z.of_nat (length
                 (RecommenderSystemGymEnv.item_weights env)))) x env1 g0 Hrun1)
    as (s & obs & env' & g' & Hloop & Hled & Hrun' & Hc & Hctx & Hlen).
  - apply ledger_init.
  - unfold passes, env1. simpl. rewrite Z.sub_0_r. exact Hfuel.
  - assert (Hn : passes RecommenderSystemGymEnv.current_step
                        RecommenderSystemGymEnv.num_users env1
                 = Z.to_nat (Z.max 1 (RecommenderSystemGymEnv.num_users env)))
      by (unfold passes, env1; simpl; rewrite Z.sub_0_r; reflexivity).
    rewrite Hn in Hc, Hlen.
    exists s, obs, env', g'. split; [exact Hloop|].
    split; [rewrite Hc; unfold env1; simpl; lia|].
    split; [exact Hctx|].
    split; [exact Hlen | apply ledger_counts; exact Hled].
Qed.

Lemma demo_recommender_gym_env_ready : gym_env_ready demo_recommender_gym_env.
Proof.
  split; simpl; [reflexivity | discriminate | lia |].
  repeat constructor.
Defined.

Lemma recommender_gym_run_sound_witness :
  ∃ s obs env' g',
    run_epsilon_greedy_recommender_gym_locals 4 (Q2Qc (1 # 10))
      (demo_recommender_gym_env, 0%nat)
    = (Ok (Some (s, obs)), (env', g')) ∧
    RecommenderSystemGymEnv.current_step env'
    = Z.max 1 (RecommenderSystemGymEnv.num_users demo_recommender_gym_env) ∧
    RecommenderSystemGymEnv.context env' = Some obs ∧
    length (gym_rewards_history s)
    = Z.to_nat (Z.max 1 (RecommenderSystemGymEnv.num_users
                           demo_recommender_gym_env)) ∧
    sound_counts
      (length (RecommenderSystemGymEnv.item_weights demo_recommender_gym_env))
      (gym_Q s) (gym_N s) (gym_actions_history s) (gym_rewards_history s).
Proof.
  apply (recommender_gym_run_sound 4 (Q2Qc (1 # 10))
           demo_recommender_gym_env 0%nat).
  - exact demo_recommender_gym_env_ready.
  - vm_compute. lia.
Defined.

(** ** Pure exploitation and pure exploration *)

(** When no later position exceeds the first, [np.argmax] returns 0. *)
Lemma np_argmax_first_arm (Qv : list Qc) (x : Qc) :
  Qv !! 0%nat = Some x →
  (∀ j w, (1 <= j)%nat → Qv !! j = Some w → w ≤ x) →
  np_argmax Qv = Ok 0%Z.
Proof.
  intros Hx Hle.
  destruct (np_argmax_nonempty Qv) as [m Hm]; [intros ->; done|].
  rewrite Hm. f_equal.
  apply np_argmax_first_max in Hm as [Hrange (v & Hv & _ & Hfirst)].
  destruct (decide (m = 0%Z)) as [->|Hne]; [reflexivity|].
  exfalso.
  assert (H1 : (1 <= Z.to_nat m)%nat) by lia.
  pose proof (Hfirst 0%nat x Hx ltac:(lia)) as Hlt.
  pose proof (Hle _ _ H1 Hv) as Hge.
  exact (Qclt_not_le _ _ Hlt Hge).
Qed.

Section PureGreedy.
Context {G : Type} `{!Numpy G}.

Lemma eg_round_greedy (p0 : list Qc) epsilon s (g : G) s' g' :
  epsilon ≤ 0 →
  eg_consistent (length p0) s → unit_estimates (eg_Q s) (eg_N s) →
  stuck_on_first_arm s →
  eg_round (BernoulliBandit.init p0) (Z.of_nat (length p0)) epsilon s g
  = (Ok s', g') →
  stuck_on_first_arm s'.
Proof.
  intros Heps Hcons Hunit [Hacts Hzero] Hround.
  pose proof (eg_len_Q _ _ Hcons) as HQ.
  pose proof (eg_len_N _ _ Hcons) as HN.
  unfold eg_round, bind in Hround.
  rewrite eg_select_action_unfold in Hround.
  rewrite decide_False in Hround.
  2:{ apply Qcle_not_lt. eapply Qcle_trans; [exact Heps|].
      apply np_random_rand_range. }
  unfold lift in Hround.
  destruct (np_argmax (eg_Q s)) as [m|e] eqn:Hm; [|discriminate].
  assert (m = 0%Z) as ->.
  { apply np_argmax_first_max in Hm as Hfm. destruct Hfm as [Hrange _].
    destruct (lookup_lt_is_Some_2 (eg_Q s) 0 ltac:(lia)) as [x Hx].
    destruct (lookup_lt_is_Some_2 (eg_N s) 0 ltac:(lia)) as [n Hn].
    assert (Hx0 : 0 ≤ x) by (destruct (Hunit 0%nat x n Hx Hn) as [[? _] _]; done).
    rewrite (np_argmax_first_arm _ x Hx) in Hm; [congruence|].
    intros j w Hj Hw. rewrite (Hzero j w Hj Hw). exact Hx0. }
  rewrite bandit_step_unfold in Hround. simpl in Hround.
  destruct (getitem p0 0) as [pa|e]; [|discriminate].
  unfold ret in Hround.
  destruct (eg_update _ _ 0 _) as [[Qv Nv]|e] eqn:Hupd; [|discriminate].
  injection Hround as <- _. simpl.
  split; [apply Forall_app; split; [exact Hacts | by constructor]|].
  intros i q Hi Hq.
  rewrite eg_update_unfold in Hupd by congruence.
  destruct (py_index (length (eg_N s)) 0) as [j|e] eqn:Hj; [|discriminate].
  assert (j = 0%nat) as ->.
  { apply py_index_Ok in Hj as [_ [[_ ->]|[Hneg _]]]; [reflexivity | lia]. }
  destruct (eg_Q s !! 0%nat), (eg_N s !! 0%nat); try discriminate.
  injection Hupd as <- <-.
  simpl in Hq. rewrite list_lookup_insert_ne in Hq by lia. eapply Hzero; eauto.
Qed.

End PureGreedy.

(** X6.  With [epsilon <= 0], [epsilon_greedy] never leaves arm 0: the
    estimates start at 0, rewards are never negative and [np.argmax] breaks
    ties towards the lowest index, so every round chooses arm 0 and every
    other estimate is still 0 when the loop is left, whatever [p] is. *)
Theorem greedy_never_leaves_first_arm {G : Type} `{!Numpy G}
  (p0 : list Qc) (num_steps : Z) (epsilon : Qc) (g : G) s g' :
  epsilon ≤ 0 →
  epsilon_greedy_locals (BernoulliBandit.init p0) num_steps epsilon g
  = (Ok s, g') →
  actions_history s = replicate (Z.to_nat num_steps) 0%Z ∧
  ∀ i, (1 <= i < length p0)%nat →
       eg_Q s !! i = Some 0 ∧ eg_N s !! i = Some 0.
Proof.
  intros Heps Hrun.
  destruct (epsilon_greedy_locals_Ok _ _ _ _ _ _ Hrun) as (Hcons & Hrep & Hlen).
  rewrite epsilon_greedy_locals_unfold in Hrun.
  pose proof (eg_initial_consistent (Z.of_nat (length p0))) as H0.
  rewrite Nat2Z.id in H0.
  assert (Hstuck : (eg_consistent (length p0) s ∧
                    unit_estimates (eg_Q s) (eg_N s)) ∧ stuck_on_first_arm s).
  { eapply (eg_loop_invariant
              (fun s => (eg_consistent (length p0) s ∧
                         unit_estimates (eg_Q s) (eg_N s)) ∧
                        stuck_on_first_arm s));
      [| |exact Hrun].
    - intros s0 g0 s1 g1 [[Hc Hu] Hs] Hround.
      split; [split|].
      + eapply eg_round_consistent; eauto.
      + eapply eg_round_unit_estimates; eauto.
      + eapply eg_round_greedy; eauto.
    - split; [split; [exact H0 | apply unit_estimates_init]|].
      split; [constructor|].
      intros i q _ Hq. apply lookup_replicate in Hq as [-> _]. reflexivity. }
  destruct Hstuck as [_ [Hacts Hzero]].
  split.
  - symmetry. apply replicate_as_Forall. split.
    + rewrite (eg_len_hist _ _ Hcons). exact Hlen.
    + eapply Forall_impl; [exact Hacts|]. intros a ->. reflexivity.
  - intros i [Hi1 Hik].
    destruct (lookup_lt_is_Some_2 (eg_Q s) i) as [q Hq];
      [rewrite (eg_len_Q _ _ Hcons); exact Hik|].
    rewrite Hq, (Hzero i q Hi1 Hq). split; [reflexivity|].
    rewrite (eg_count_is_times_selected (Z.of_nat (length p0)) s i);
      rewrite ?Nat2Z.id; try done.
    rewrite times_selected_absent; [rewrite count_0; reflexivity|].
    intros Hin. rewrite Forall_forall in Hacts.
    specialize (Hacts _ Hin). lia.
Qed.

Lemma greedy_never_leaves_first_arm_witness :
  ∃ s g',
    epsilon_greedy_locals
      (BernoulliBandit.init [Q2Qc (1 # 10); Q2Qc (3 # 10); Q2Qc (4 # 5)])
      6 0 0%nat = (Ok s, g') ∧
    actions_history s = replicate (Z.to_nat 6) 0%Z ∧
    ∀ i, (1 <= i < 3)%nat → eg_Q s !! i = Some 0 ∧ eg_N s !! i = Some 0.
Proof.
  eexists _, _. split; [lazy; reflexivity|].
  eapply (greedy_never_leaves_first_arm
           [Q2Qc (1 # 10); Q2Qc (3 # 10); Q2Qc (4 # 5)] 6 0 0%nat).
  - apply Qcle_refl.
  - lazy. reflexivity.
Defined.

Section PureExploration.
Context {G : Type} `{!Numpy G}.

Lemma eg_round_explore (p0 : list Qc) k epsilon s (g : G) s' g' :
  1 ≤ epsilon →
  eg_round (BernoulliBandit.init p0) k epsilon s g = (Ok s', g') →
  actions_history s'
  = actions_history s ++ [(np_random_randint k (np_random_rand g).2).1] ∧
  g' = (np_random_rand (np_random_randint k (np_random_rand g).2).2).2.
Proof.
  intros Heps Hround. unfold eg_round, bind in Hround.
  rewrite eg_select_action_unfold in Hround.
  rewrite decide_True in Hround.
  2:{ eapply Qclt_le_trans; [|exact Heps]. apply np_random_rand_range. }
  unfold randint in Hround.
  destruct (decide (0 < k)%Z); [|discriminate].
  destruct (np_random_randint k (np_random_rand g).2) as [a g2]. simpl in *.
  rewrite bandit_step_unfold in Hround. simpl in Hround.
  destruct (getitem p0 a); [|discriminate].
  unfold lift, ret in Hround.
  destruct (eg_update _ _ a _) as [[Qv Nv]|e]; [|discriminate].
  injection Hround as <- <-. done.
Qed.

Lemma eg_loop_explore (p0 : list Qc) k epsilon rounds :
  1 ≤ epsilon →
  ∀ s (g : G) s' g',
    eg_loop (BernoulliBandit.init p0) k epsilon rounds s g = (Ok s', g') →
    actions_history s' = actions_history s ++ (explore_trace k rounds g).1 ∧
    g' = (explore_trace k rounds g).2.
Proof.
  intros Heps. induction rounds as [|rounds IH]; intros s g s' g' Hloop.
  - rewrite eg_loop_O in Hloop. injection Hloop as <- <-.
    simpl. rewrite app_nil_r. done.
  - rewrite eg_loop_S in Hloop.
    destruct (eg_round _ k epsilon s g) as [[s1|e] g1] eqn:Hround;
      [|discriminate].
    destruct (eg_round_explore _ _ _ _ _ _ _ Heps Hround) as [Hacts ->].
    destruct (IH _ _ _ _ Hloop) as [Hacts' ->].
    simpl. rewrite Hacts', Hacts, <- app_assoc. done.
Qed.

End PureExploration.

(** X7.  With [epsilon >= 1], [epsilon_greedy] never consults [Q]: on a
    bandit with at least one arm the loop raises nothing, and the actions it
    takes and the random source it leaves are those of [explore_trace],
    which depend on the number of arms and on the random source only, not
    on the probabilities [p] nor on the rewards. *)
Theorem exploration_ignores_rewards {G : Type} `{!Numpy G}
  (p0 : list Qc) (num_steps : Z) (epsilon : Qc) (g : G) :
  1 ≤ epsilon → p0 ≠ [] →
  ∃ s,
    epsilon_greedy_locals (BernoulliBandit.init p0) num_steps epsilon g
    = (Ok s, (explore_trace (Z.of_nat (length p0)) (Z.to_nat num_steps) g).2) ∧
    actions_history s
    = (explore_trace (Z.of_nat (length p0)) (Z.to_nat num_steps) g).1.
Proof.
  intros Heps Hne.
  destruct (epsilon_greedy_locals_total p0 num_steps epsilon g Hne)
    as (s & g' & Hrun).
  exists s. rewrite Hrun. rewrite epsilon_greedy_locals_unfold in Hrun.
  destruct (eg_loop_explore _ _ _ _ Heps _ _ _ _ Hrun) as [Hacts ->].
  split; [reflexivity | exact Hacts].
Qed.

Lemma exploration_ignores_rewards_witness :
  ∃ s,
    epsilon_greedy_locals
      (BernoulliBandit.init [Q2Qc (1 # 10); Q2Qc (3 # 10); Q2Qc (4 # 5)])
      6 1 0%nat
    = (Ok s, (explore_trace (Z.of_nat 3) (Z.to_nat 6) 0%nat).2) ∧
    actions_history s = (explore_trace (Z.of_nat 3) (Z.to_nat 6) 0%nat).1.
Proof.
  apply (exploration_ignores_rewards
           [Q2Qc (1 # 10); Q2Qc (3 # 10); Q2Qc (4 # 5)] 6 1 0%nat).
  - apply Qcle_refl.
  - discriminate.
Defined.

(** ** No arms *)

(** X8.  On a bandit without arms, [epsilon_greedy] with [num_steps <= 0]
    returns two empty arrays and leaves the random source alone; with
    [num_steps >= 1] it raises [ValueError] in its first round, after the
    one draw of the coin, whatever [epsilon] is: [np.random.randint(0)]
    and [np.argmax] of an empty array both refuse. *)
Theorem no_arms_raise_value_error {G : Type} `{!Numpy G}
  (num_steps : Z) (epsilon : Qc) (g : G) :
  ((num_steps <= 0)%Z →
   epsilon_greedy (BernoulliBandit.init []) num_steps epsilon g
   = (Ok ([], []), g)) ∧
  ((1 <= num_steps)%Z →
   epsilon_greedy (BernoulliBandit.init []) num_steps epsilon g
   = (Raise ValueError, (np_random_rand g).2)).
Proof.
  split; intros Hn; rewrite epsilon_greedy_returns, epsilon_greedy_locals_unfold.
  - replace (Z.to_nat num_steps) with 0%nat by lia. reflexivity.
  - destruct (Z.to_nat num_steps) as [|n] eqn:Hz; [lia|].
    rewrite eg_loop_S. unfold eg_round, bind.
    rewrite eg_select_action_unfold. simpl.
    destruct (decide (_ < epsilon)); [|reflexivity].
    rewrite randint_nonpositive by lia. reflexivity.
Qed.

(** What [run_epsilon_greedy_recommender] returns: the recorded rewards and
    [Q], from the locals its loop leaves. *)
Lemma run_epsilon_greedy_recommender_returns {G : Type} `{!Numpy G}
  (fuel : nat) (epsilon : Qc) (env : RecommenderSystemBandit.t) (g : G) :
  run_epsilon_greedy_recommender fuel epsilon (env, g) =
  match rec_loop fuel (RecommenderSystemBandit.k env) epsilon
          (eg_initial (RecommenderSystemBandit.k env)) (env, g) with
  | (Ok o, st) => (Ok ((fun s => (rewards_history s, eg_Q s)) <$> o), st)
  | (Raise e, st) => (Raise e, st)
  end.
Proof. reflexivity. Qed.

(** X9.  On a contextual environment without rows ([k = 0]) both
    pure-Python drivers raise [ValueError] in their first round:
    [run_thompson_search] because [np.argmax] refuses the empty Beta sample,
    [run_epsilon_greedy_recommender] because [np.random.randint(0)] and
    [np.argmax] of an empty [Q] both refuse (or, with a negative
    [context_dim], because [np.random.randn] does). *)
Theorem no_rows_raise_value_error {G : Type} `{!Numpy G}
  (fuel : nat) (epsilon : Qc) (env : SearchBandit.t) (g : G) :
  SearchBandit.k env = 0%Z →
  (run_thompson_search (S fuel) (env, g)).1 = Raise ValueError ∧
  (run_epsilon_greedy_recommender (S fuel) epsilon (env, g)).1
  = Raise ValueError.
Proof.
  intros Hk. split.
  - rewrite run_thompson_search_unfold, ts_loop_S, Hk.
    unfold ts_round, bind. rewrite get_context_unfold.
    destruct (decide (0 <= SearchBandit.context_dim env)%Z); [|reflexivity].
    unfold on_rng. rewrite ts_select_action_unfold. simpl.
    change (np_ones 0) with (@nil Qc).
    match goal with
    | |- context [np_random_beta [] [] ?g0] =>
        pose proof (np_random_beta_shape [] [] g0 eq_refl) as Hshape;
        destruct (np_random_beta [] [] g0) as [sample g1]
    end.
    simpl in *. destruct sample; [reflexivity | discriminate].
  - rewrite run_epsilon_greedy_recommender_returns, rec_loop_S, Hk.
    unfold rec_round, bind. rewrite get_context_unfold.
    destruct (decide (0 <= SearchBandit.context_dim env)%Z); [|reflexivity].
    unfold on_rng. rewrite eg_select_action_unfold. simpl.
    destruct (decide (_ < epsilon)); [|reflexivity].
    rewrite randint_nonpositive by lia. reflexivity.
Qed.

Lemma no_rows_raise_value_error_witness :
  (run_thompson_search 3 (SearchBandit.init [] 2 5, 0%nat)).1
  = Raise ValueError ∧
  (run_epsilon_greedy_recommender 3 (Q2Qc (1 # 10))
     (SearchBandit.init [] 2 5, 0%nat)).1 = Raise ValueError.
Proof.
  apply (no_rows_raise_value_error 2 (Q2Qc (1 # 10))
           (SearchBandit.init [] 2 5) 0%nat).
  reflexivity.
Defined.

(** ** Rejected steps *)

(** X10.  What a rejected [step] leaves behind.  [BernoulliBanditEnv.step]
    raises only [IndexError], after its draw: the random source is one draw
    further but the counter has not moved, so a rejected action does not
    count as a step.  The contextual [step] looks the row up and multiplies
    before it draws: it raises [IndexError] for an index outside
    [[-k, k)] or [ValueError] for a context whose length differs from the
    row's, and then neither the counter nor the random source has
    changed. *)
Theorem rejected_step_is_not_counted {G : Type} `{!Numpy G} :
  (∀ action (env : BernoulliBanditEnv.t) (g : G) e st',
     BernoulliBanditEnv.step action (env, g) = (Raise e, st') →
     e = IndexError ∧ st' = (env, (np_random_rand g).2) ∧
     (action < - Z.of_nat (length (BernoulliBanditEnv.p env))
      ∨ Z.of_nat (length (BernoulliBanditEnv.p env)) <= action)%Z) ∧
  (∀ action context (env : ContextualBandit.t) (g : G) e st',
     ContextualBandit.step action context (env, g) = (Raise e, st') →
     st' = (env, g) ∧
     (e = IndexError ∧
      (action < - Z.of_nat (length (ContextualBandit.weights env))
       ∨ Z.of_nat (length (ContextualBandit.weights env)) <= action)%Z
      ∨ e = ValueError ∧
        ∃ w, getitem (ContextualBandit.weights env) action = Ok w ∧
             length w ≠ length context)).
Proof.
  split.
  - intros action env g e st'. rewrite env_step_unfold.
    destruct (getitem (BernoulliBanditEnv.p env) action) as [pa|e0] eqn:Hget;
      [discriminate|].
    intros [= <- <-]. apply getitem_Raise in Hget as [-> Hout]. done.
  - intros action context env g e st'. rewrite contextual_step_unfold.
    destruct (getitem (ContextualBandit.weights env) action) as [w|e0] eqn:Hget.
    + unfold np_dot. destruct (decide (length w = length context)) as [|Hne];
        [discriminate|].
      intros [= <- <-]. split; [reflexivity|]. right. eauto.
    + intros [= <- <-]. apply getitem_Raise in Hget as [-> Hout].
      split; [reflexivity|]. left. done.
Qed.

Section BeforeReset.
Context {G : Type} `{!Numpy G}.


End BeforeReset.



(** ** Stepping past the horizon *)

Section PastHorizon.
Context {G : Type} `{!Numpy G}.

(** Any sequence of actions that [p] can be indexed with is accepted,
    whatever the counter and the horizon are. *)
Lemma call_each_env_total (xs : list Z) :
  ∀ (env : BernoulliBanditEnv.t) (g : G),
    Forall (fun a => (- Z.of_nat (length (BernoulliBanditEnv.p env)) <= a
                      < Z.of_nat (length (BernoulliBanditEnv.p env)))%Z) xs →
    ∃ rs g',
      call_each BernoulliBanditEnv.step xs (env, g)
      = (Ok rs,
         (BernoulliBanditEnv.set_current_step
            (BernoulliBanditEnv.current_step env + Z.of_nat (length xs)) env,
          g')).
Proof.
  induction xs as [|a xs IH]; intros env g Hvalid.
  - exists [], g. simpl. unfold ret. rewrite Z.add_0_r. destruct env; reflexivity.
  - apply Forall_cons in Hvalid as [Ha Hxs].
    replace (Z.of_nat (length (a :: xs))) with (1 + Z.of_nat (length xs))%Z
      by (simpl length; lia).
    simpl. unfold bind. rewrite env_step_unfold.
    assert (Hget : ∃ pa, getitem (BernoulliBanditEnv.p env) a = Ok pa).
    { destruct (decide (0 <= a)%Z).
      - destruct (getitem_index (BernoulliBanditEnv.p env) a (Z.to_nat a))
          as (pa & _ & ->); [apply py_index_inrange; lia | eauto].
      - destruct (getitem_index (BernoulliBanditEnv.p env) a
                    (Z.to_nat (a + Z.of_nat (length (BernoulliBanditEnv.p env)))))
          as (pa & _ & ->); [apply py_index_wrap; lia | eauto]. }
    destruct Hget as [pa ->].
    destruct (IH (BernoulliBanditEnv.set_current_step
                    (BernoulliBanditEnv.current_step env + 1) env)
                 (np_random_rand g).2 Hxs) as (rs & g' & ->).
    eexists _, g'. unfold ret, BernoulliBanditEnv.set_current_step. simpl.
    rewrite Z.add_assoc. reflexivity.
Qed.

End PastHorizon.

(** X12.  [BernoulliBanditEnv] never refuses a step because the episode is
    over: from a fresh environment with at least one arm any sequence of actions in [[-k, k)] is
    accepted, however long; the counter ends at the number of calls; once a
    call has reported [done], every later call reports it too; and [reset]
    then restores the environment exactly as the constructor left it. *)
Theorem steps_past_horizon_accepted {G : Type} `{!Numpy G}
  (p0 : list Qc) (num_steps : Z) (xs : list Z) (g : G) :
  p0 ≠ [] →
  Forall (fun a => (- Z.of_nat (length p0) <= a < Z.of_nat (length p0))%Z) xs →
  ∃ rs env' g',
    call_each BernoulliBanditEnv.step xs
      (BernoulliBanditEnv.init p0 num_steps, g) = (Ok rs, (env', g')) ∧
    length rs = length xs ∧
    BernoulliBanditEnv.current_step env' = Z.of_nat (length xs) ∧
    (∀ i j r r', (i <= j)%nat → rs !! i = Some r → rs !! j = Some r' →
                 BernoulliBanditEnv.done r = true →
                 BernoulliBanditEnv.done r' = true) ∧
    BernoulliBanditEnv.reset (env', g')
    = (Ok ([0], []), (BernoulliBanditEnv.init p0 num_steps, g')).
Proof.
  intros _ Hvalid.
  destruct (call_each_env_total xs (BernoulliBanditEnv.init p0 num_steps) g
              Hvalid) as (rs & g' & Hrun).
  eexists rs, _, g'. split; [exact Hrun|].
  assert (Hcounts :
    counts_to_horizon (S := BernoulliBanditEnv.t * G) BernoulliBanditEnv.step
      (fun st => BernoulliBanditEnv.current_step st.1)
      (fun st => BernoulliBanditEnv.num_steps st.1)
      BernoulliBanditEnv.done).
  { apply call_each_counts. intros x st r st' Hstep.
    destruct (env_step_counts _ _ _ _ Hstep) as (-> & Hd & _). done. }
  destruct (Hcounts _ _ _ _ Hrun) as (_ & _ & Hlen & Hdone).
  simpl in Hdone.
  split; [exact Hlen|]. split; [simpl; lia|]. split; [|reflexivity].
  intros i j r r' Hij Hi Hj Hr.
  rewrite (Hdone _ _ Hi) in Hr. apply bool_decide_eq_true in Hr.
  rewrite (Hdone _ _ Hj). apply bool_decide_eq_true. lia.
Qed.

Lemma steps_past_horizon_accepted_witness :
  ∃ rs env' g',
    call_each BernoulliBanditEnv.step [0; 2; -1; 1; -3]%Z
      (BernoulliBanditEnv.init
         [Q2Qc (1 # 10); Q2Qc (3 # 10); Q2Qc (4 # 5)] 2, 0%nat)
    = (Ok rs, (env', g')) ∧
    length rs = length [0; 2; -1; 1; -3]%Z ∧
    BernoulliBanditEnv.current_step env'
    = Z.of_nat (length [0; 2; -1; 1; -3]%Z) ∧
    (∀ i j r r', (i <= j)%nat → rs !! i = Some r → rs !! j = Some r' →
                 BernoulliBanditEnv.done r = true →
                 BernoulliBanditEnv.done r' = true) ∧
    BernoulliBanditEnv.reset (env', g')
    = (Ok ([0], []),
       (BernoulliBanditEnv.init
          [Q2Qc (1 # 10); Q2Qc (3 # 10); Q2Qc (4 # 5)] 2, g')).
Proof.
  apply (steps_past_horizon_accepted
           [Q2Qc (1 # 10); Q2Qc (3 # 10); Q2Qc (4 # 5)] 2
           [0; 2; -1; 1; -3]%Z 0%nat).
  - discriminate.
  - repeat constructor; simpl; lia.
Defined.
